(** * LZ8S: a byte-aligned LZ77 codec for tiny decoders

    A shallow embedding of the encoder [src/lz8s.c] and of the decoder
    [src/lz8dec.c], followed by the properties of the wire format and of
    the two programs that the specification states.

    Conventions of the embedding.
    - A C [int] is a [Z].  Every [int] the encoder computes stays far below
      [INT_MAX] for inputs of at most 128 KiB (costs are bounded by three
      times [INFINITE_COST]), so no wrap-around is written for them.  The
      decoder's [unsigned pos] wraps at 2^32 and that is written out.
    - A byte is a [Z] in [0, 256); a file is a [list Z] of bytes.
    - The global tuning variables of both programs are gathered in [Cfg];
      [zero_match_cost], which [lzop_init] derives from them, is a function
      of the configuration.
    - The statistics counters of the encoder are kept apart from its
      state, in [counters] and the functions named [_counted]; the debug
      output is left out.  Nothing the programs write to their output
      depends on either. *)

From Stdlib Require Import String.
From Stdlib Require Import ZArith List Bool Lia DecimalString.
Import ListNotations.
Open Scope Z_scope.

(** ** Shared data model *)

Record Cfg := {
  bits_moff   : Z;     (* number of bits used for OFFSET *)
  max_mlen    : Z;     (* maximum match length *)
  max_llen    : Z;     (* maximum literal length *)
  zero_offset : bool;  (* offset written/read on matches of length 0 *)
  offset_rel  : Z;     (* negative: offsets relative to the position *)
  exor_offset : bool   (* decoder only: offsets are stored inverted *)
}.

(** The defaults of the static variables in both programs. *)
Definition default_cfg : Cfg :=
  {| bits_moff := 8; max_mlen := 255; max_llen := 255;
     zero_offset := false; offset_rel := -1; exor_offset := false |}.

(** [p[i]] for a C array held in a list; the programs never read outside
    the array on the paths studied here. *)
Definition at_ (data : list Z) (i : Z) : Z := nth (Z.to_nat i) data 0.

Definition is_byte (x : Z) : Prop := 0 <= x < 256.

(** The option checks that both [main] functions run after [getopt]:
    [Some msg] is the message handed to [cmd_error]. *)
Definition check_options (cfg : Cfg) : option string :=
  if (max_mlen cfg <? 1) || (max_mlen cfg >? 32895) then
    Some "max match run length should be from 1 to 32895"%string
  else if (max_llen cfg <? 1) || (max_llen cfg >? 32895) then
    Some "max literal run length should be from 1 to 32895"%string
  else if (bits_moff cfg <? 0) || (bits_moff cfg >? 16) then
    Some "match offset bits should be from 0 to 16"%string
  else if bits_moff cfg =? 8 then
    if offset_rel cfg >? 255 then
      Some "relative address should be less than 256 with 8 bit offsets"%string
    else None
  else if bits_moff cfg =? 16 then
    if offset_rel cfg >? 65535 then
      Some "relative address should be less than 65536"%string
    else None
  else if offset_rel cfg >=? 0 then
    Some "relative address works only with 8 or 16 bit offsets"%string
  else None.

(** ** The encoder, [src/lz8s.c] *)
Module lz8s.

(* #define INFINITE_COST (INT_MAX/256) *)
Definition INFINITE_COST : Z := 2147483647 / 256.

(** *** Output buffer

    [struct bf] holds [uint8_t buf[65536]] and the fill level [len]; the
    model keeps the filled part [buf[0..len)] as a list.  [add_byte] has no
    bound check and nothing flushes the buffer before the end of [main]:
    a write at index 65536 is outside the array, which is undefined in C,
    and the model stops there with [None]. *)
Record bf := {
  buf   : list Z;   (* buf[0 .. len) *)
  total : Z;
  out   : list Z    (* what has been written to the output file *)
}.

Definition len (x : bf) : Z := Z.of_nat (length (buf x)).

Definition BUF_SIZE : Z := 65536.

Definition init (x : bf) : bf :=
  {| buf := []; total := 0; out := out x |}.

Definition bflush (x : bf) : bf :=
  {| buf := []; total := total x + len x; out := out x ++ buf x |}.

Definition add_byte (x : bf) (byte : Z) : option bf :=
  if len x <? BUF_SIZE then
    Some {| buf := buf x ++ [Z.land byte 255];  (* stored in a uint8_t *)
            total := total x; out := out x |}
  else None.

Notation "'do' x <- a ; b" :=
  (match a with Some x => b | None => None end)
  (at level 10, x name, a at level 100, b at level 200).

(** *** Match finder *)

Definition max (a b : Z) : Z := if a >? b then a else b.

(* for(i=0; i<max; i++) if( a[i] != b[i] ) return i;  return max; *)
Fixpoint get_mlen_loop (data : list Z) (a b mx : Z) (n : nat) (i : Z) : Z :=
  match n with
  | O => mx
  | S n' => if at_ data (a + i) =? at_ data (b + i)
            then get_mlen_loop data a b mx n' (i + 1)
            else i
  end.

(** [a] and [b] are the offsets of the two pointers into [data]. *)
Definition get_mlen (data : list Z) (a b mx : Z) : Z :=
  get_mlen_loop data a b mx (Z.to_nat mx) 0.

(** [int hsh(const uint8_t *p)]: a hash of the pointer itself, [p] being the
    address it holds (a [size_t]); no function of the program calls it. *)
Definition hsh (p : Z) : Z :=
  Z.land 255 (Z.lxor (Z.lxor (Z.lxor p (Z.shiftr p 8)) (Z.shiftr p 16))
                     (Z.shiftr p 24)).

(* #define max_off (1<<bits_moff) *)
Definition max_off (cfg : Cfg) : Z := Z.shiftl 1 (bits_moff cfg).

Definition min_mlen : Z := 1.

(** The loop of [match]; [n] counts the iterations left, [(mlen, mpos)] is
    the best match so far ([mpos] stands for the out-parameter [*mpos]). *)
Fixpoint match_loop (data : list Z) (pos mxlen : Z) (n : nat) (i : Z)
    (mlen mpos : Z) : Z * Z :=
  match n with
  | O => (mlen, mpos)
  | S n' =>
      let ml := get_mlen data pos i mxlen in
      if ml >? mlen then
        if ml >=? mxlen then (ml, pos - i)
        else match_loop data pos mxlen n' (i + 1) ml (pos - i)
      else match_loop data pos mxlen n' (i + 1) mlen mpos
  end.

(** [match(data, pos, size, &mpos)]: the result and the final [*mpos]. *)
Definition match_ (cfg : Cfg) (data : list Z) (pos size mpos : Z) : Z * Z :=
  let mxlen := - max (- max_mlen cfg) (pos - size) in
  let i0 := max (pos - max_off cfg) 0 in
  match_loop data pos mxlen (Z.to_nat (pos - i0)) i0 0 mpos.

(** *** Cost model *)

Definition mlen_cost (cfg : Cfg) (l : Z) : Z :=
  if l >? max_mlen cfg then INFINITE_COST
  else if (max_mlen cfg >? 255) && (l >? 127) then 16
  else 8.

Definition moff_cost (cfg : Cfg) (o : Z) : Z :=
  if (o >? max_off cfg) || (o <? 1) then INFINITE_COST
  else if bits_moff cfg =? 0 then 0
  else if bits_moff cfg <=? 8 then 8
  else 16.

(* zero_match_cost = mlen_cost(0) + (zero_offset ? moff_cost(1) : 0); *)
Definition zero_match_cost (cfg : Cfg) : Z :=
  mlen_cost cfg 0 + (if zero_offset cfg then moff_cost cfg 1 else 0).

(* while( l > max_llen ) { bits += 8 + zero_match_cost; l -= max_llen; } *)
Fixpoint llen_cost_loop (cfg : Cfg) (n : nat) (l bits : Z) : Z * Z :=
  match n with
  | O => (l, bits)
  | S n' => if l >? max_llen cfg
            then llen_cost_loop cfg n' (l - max_llen cfg)
                                (bits + (8 + zero_match_cost cfg))
            else (l, bits)
  end.

(** The [while] loop runs at most [l] times when [max_llen >= 1]. *)
Definition llen_cost (cfg : Cfg) (l : Z) : Z :=
  if l =? 0 then 0
  else
    let '(l, bits) := llen_cost_loop cfg (Z.to_nat l) l 0 in
    let bits := if (max_llen cfg >? 255) && (l >? 127) then bits + 8 else bits in
    8 + bits.

(** *** Optimal parsing table *)

Record lzop_st := {
  lbits : Z;   (* bits needed to code LITERAL from position *)
  llen  : Z;   (* literal length at position *)
  mbits : Z;   (* bits needed to code MATCH from position *)
  mlen  : Z;   (* match length at position *)
  mpos  : Z    (* best match offset at position *)
}.

(** The table [sp] is an array of [size + 1] cells obtained from [calloc];
    it is modelled as a function of the index, all cells zero at first. *)
Definition table := Z -> lzop_st.

Definition zero_st : lzop_st :=
  {| lbits := 0; llen := 0; mbits := 0; mlen := 0; mpos := 0 |}.

Definition calloc_table : table := fun _ => zero_st.

Definition set_st (sp : table) (i : Z) (c : lzop_st) : table :=
  fun j => if j =? i then c else sp j.

Record lzop := {
  data       : list Z;   (* the data to compress *)
  size       : Z;        (* data size *)
  sp         : table;    (* state at each position *)
  in_literal : bool      (* inside literal during encoding *)
}.

Definition lzop_init (data : list Z) (size : Z) : lzop :=
  {| data := data; size := size; sp := calloc_table; in_literal := false |}.

(** First loop of the literal case: [for(i = 1; i < 6; i++)], with its
    [break]; the state is [(ml, cur->lbits, cur->llen)]. *)
Fixpoint lit_lit_loop (cfg : Cfg) (sp : table) (pos size : Z) (n : nat) (i : Z)
    (ml cl_bits cl_len : Z) : Z * Z * Z :=
  match n with
  | O => (ml, cl_bits, cl_len)
  | S n' =>
      if pos + i >? size then (ml, cl_bits, cl_len)
      else
        let nxt := sp (pos + i) in
        let ml := if ml <? llen nxt + i then llen nxt + i else ml in
        let lb := lbits nxt + 8 * i - llen_cost cfg (llen nxt)
                  + llen_cost cfg (llen nxt + i) in
        if lb <? cl_bits
        then lit_lit_loop cfg sp pos size n' (i + 1) ml lb (llen nxt + i)
        else lit_lit_loop cfg sp pos size n' (i + 1) ml cl_bits cl_len
  end.

(** Second loop: [for(i = 1; i <= ml - 1; i++)]; state
    [(cur->lbits, cur->llen)]. *)
Fixpoint lit_match_loop (cfg : Cfg) (sp : table) (pos : Z) (n : nat) (i : Z)
    (cl_bits cl_len : Z) : Z * Z :=
  match n with
  | O => (cl_bits, cl_len)
  | S n' =>
      let nxt := sp (pos + i) in
      let mb := mbits nxt + 8 * i + llen_cost cfg i in
      if mb <? cl_bits
      then lit_match_loop cfg sp pos n' (i + 1) mb i
      else lit_match_loop cfg sp pos n' (i + 1) cl_bits cl_len
  end.

(** Third loop: [for(l = min_mlen; l <= ml; l++)]; state
    [(bestm, cur->mbits, cur->mlen)]. *)
Fixpoint match_len_loop (cfg : Cfg) (sp : table) (pos mp : Z) (n : nat) (l : Z)
    (bestm cm_bits cm_len : Z) : Z * Z * Z :=
  match n with
  | O => (bestm, cm_bits, cm_len)
  | S n' =>
      let nxt := sp (pos + l) in
      let mb := mbits nxt + llen_cost cfg 1 + moff_cost cfg mp + mlen_cost cfg l in
      let lb := lbits nxt + moff_cost cfg mp + mlen_cost cfg l in
      let '(bestm, cm_bits, cm_len) :=
        if lb <=? bestm then (lb, lb, l) else (bestm, cm_bits, cm_len) in
      let '(bestm, cm_bits, cm_len) :=
        if mb <=? bestm then (mb, mb, l) else (bestm, cm_bits, cm_len) in
      match_len_loop cfg sp pos mp n' (l + 1) bestm cm_bits cm_len
  end.

(** The body of the backward loop of [lzop_backfill] at [pos]: [cur] is
    [sp[pos]] and every [nxt] is a cell after it, so the two never alias. *)
Definition backfill_at (cfg : Cfg) (data : list Z) (size : Z) (sp : table)
    (pos : Z) : table :=
  let cur := sp pos in
  let '(ml, cl_bits, cl_len) :=
    lit_lit_loop cfg sp pos size 5 1 0 INFINITE_COST 0 in
  let '(cl_bits, cl_len) :=
    lit_match_loop cfg sp pos (Z.to_nat (ml - 1)) 1 cl_bits cl_len in
  let '(ml, mp) := match_ cfg data pos size 0 in
  let '(_, cm_bits, cm_len) :=
    match_len_loop cfg sp pos mp (Z.to_nat (ml + 1 - min_mlen)) min_mlen
                   INFINITE_COST INFINITE_COST (mlen cur) in
  set_st sp pos {| lbits := cl_bits; llen := cl_len;
                   mbits := cm_bits; mlen := cm_len; mpos := mp |}.

(* for(int pos = lz->size - 1; pos>=0; pos--) *)
Fixpoint backfill_loop (cfg : Cfg) (data : list Z) (size : Z) (n : nat)
    (pos : Z) (sp : table) : table :=
  match n with
  | O => sp
  | S n' => backfill_loop cfg data size n' (pos - 1)
                          (backfill_at cfg data size sp pos)
  end.

Definition lzop_backfill (cfg : Cfg) (lz : lzop) : lzop :=
  if size lz =? 0 then lz
  else
    let sp0 := set_st (sp lz) (size lz)
                 {| lbits := 0; llen := 0; mbits := INFINITE_COST;
                    mlen := 0; mpos := 0 |} in
    {| data := data lz; size := size lz;
       sp := backfill_loop cfg (data lz) (size lz) (Z.to_nat (size lz))
                           (size lz - 1) sp0;
       in_literal := in_literal lz |}.

(** *** Emitter *)

(** The length header, as [code_match] writes it with [max_mlen] and
    [lzop_encode] with [max_llen] (the same lines in both places). *)
Definition add_len (b : bf) (mx ln : Z) : option bf :=
  if (ln >? 127) && (mx >? 255) then
    do b <- add_byte b (Z.land (Z.lor 128 ln) 255);
    add_byte b (Z.shiftr ln 7 - 1)
  else
    add_byte b (Z.land ln 255).

Definition code_match (cfg : Cfg) (b : bf) (ln off : Z) : option bf :=
  do b <- add_len b (max_mlen cfg) ln;
  if negb (ln =? 0) || zero_offset cfg then
    do b <- (if negb (bits_moff cfg =? 0)
             then add_byte b (Z.land off 255) else Some b);
    if bits_moff cfg >? 8 then add_byte b (Z.shiftr off 8) else Some b
  else Some b.

Definition set_in_literal (lz : lzop) (v : bool) : lzop :=
  {| data := data lz; size := size lz; sp := sp lz; in_literal := v |}.

(** [lzop_encode(b, lz, pos, lpos, offset_rel)]: the new buffer, the new
    encoder state and the returned [lpos]. *)
Definition lzop_encode (cfg : Cfg) (b : bf) (lz : lzop) (pos lpos : Z)
    (offset_rel : Z) : option (bf * lzop * Z) :=
  if pos <=? lpos then
    (* skipping: output the byte if the skip is a literal *)
    if in_literal lz then
      do b <- add_byte b (at_ (data lz) pos);
      Some (b, lz, lpos)
    else Some (b, lz, lpos)
  else
    let cur := sp lz pos in
    let extra_cost := if in_literal lz then zero_match_cost cfg else 0 in
    if lbits cur + extra_cost <=? mbits cur then
      let ln := llen cur in
      let ln := if ln >? max_llen cfg then max_llen cfg else ln in
      do b <- (if in_literal lz then code_match cfg b 0 0 else Some b);
      do b <- add_len b (max_llen cfg) ln;
      do b <- add_byte b (at_ (data lz) pos);
      Some (b, set_in_literal lz true, pos + ln - 1)
    else
      let mp := mpos cur in
      let ml := mlen cur in
      let mp := if offset_rel <? 0 then Z.land (mp - 1) 65535
                else Z.land (pos + offset_rel - mp) 65535 in
      do b <- (if negb (in_literal lz) then add_byte b 0 else Some b);
      do b <- code_match cfg b ml mp;
      Some (b, set_in_literal lz false, pos + ml - 1).

(* for(int pos = 0; pos < sz; pos++) lpos = lzop_encode(&b, &lz, pos, lpos, offset_rel); *)
Fixpoint encode_loop (cfg : Cfg) (n : nat) (b : bf) (lz : lzop) (pos lpos : Z)
    : option (bf * lzop * Z) :=
  match n with
  | O => Some (b, lz, lpos)
  | S n' =>
      do r <- lzop_encode cfg b lz pos lpos (offset_rel cfg);
      let '(b, lz, lpos) := r in
      encode_loop cfg n' b lz (pos + 1) lpos
  end.

(** The compression part of [main] on the [sz] bytes read into [data]:
    the bytes written to the output file, [None] when a byte is stored
    outside the output buffer. *)
Definition compress (cfg : Cfg) (data : list Z) : option (list Z) :=
  let sz := Z.of_nat (length data) in
  let b := init {| buf := []; total := 0; out := [] |} in
  let lz := lzop_backfill cfg (lzop_init data sz) in
  let b := init b in
  do r <- encode_loop cfg (Z.to_nat sz) b lz 0 (-1);
  let '(b, _, _) := r in
  Some (out (bflush b)).

(** Maximum size of the input buffer: [malloc(128*1024)]. *)
Definition MAX_INPUT : Z := 128 * 1024.

Inductive outcome :=
| Exit_failure (msg : string)   (* cmd_error: exit(1) *)
| Exit_success (output : list Z)
| Undefined_behaviour.          (* a store outside [buf] *)

(** [main] after option parsing: [cfg] holds the parsed options and
    [input] is the whole content of the input file.
    [fread(data, 1, 128*1024, input_file)] stores at most 128 KiB. *)
Definition main (cfg : Cfg) (input : list Z) : outcome :=
  match check_options cfg with
  | Some msg => Exit_failure msg
  | None =>
      let data := firstn (Z.to_nat MAX_INPUT) input in
      match compress cfg data with
      | Some output => Exit_success output
      | None => Undefined_behaviour
      end
  end.

(** *** The statistics of the encoder

    The counters that [code_match] and [lzop_encode] keep besides the
    output: four fields of [struct lzop] and the three arrays [stat_llen],
    [stat_mlen] and [stat_moff], which [main] allocates with
    [max_llen + 1], [max_mlen + 1] and [max_off + 1] entries. *)
Record counters := {
  bytes_literal : Z;    (* bytes encoded as literal *)
  bytes_matches : Z;    (* bytes encoded as matches *)
  bits_literal  : Z;    (* bits used to encode literal lengths *)
  bits_matches  : Z;    (* bits used to encode matches *)
  stat_llen : Z -> Z;
  stat_mlen : Z -> Z;
  stat_moff : Z -> Z
}.

(** All counters at zero: [lzop_init] and the [calloc] of the arrays. *)
Definition no_counts : counters :=
  {| bytes_literal := 0; bytes_matches := 0; bits_literal := 0; bits_matches := 0;
     stat_llen := fun _ => 0; stat_mlen := fun _ => 0; stat_moff := fun _ => 0 |}.

(** [a[i]++] on an array of [n] entries; [None] stands for an index
    outside the array. *)
Definition bump (n : Z) (a : Z -> Z) (i : Z) : option (Z -> Z) :=
  if (0 <=? i) && (i <? n)
  then Some (fun j => if j =? i then a j + 1 else a j)
  else None.

(** [*bits += n], where [bits] is [&lz->bits_matches] if [len] is not zero
    and [&lz->bits_literal] otherwise. *)
Definition add_bits (c : counters) (ln n : Z) : counters :=
  if ln =? 0 then
    {| bytes_literal := bytes_literal c; bytes_matches := bytes_matches c;
       bits_literal := bits_literal c + n; bits_matches := bits_matches c;
       stat_llen := stat_llen c; stat_mlen := stat_mlen c; stat_moff := stat_moff c |}
  else
    {| bytes_literal := bytes_literal c; bytes_matches := bytes_matches c;
       bits_literal := bits_literal c; bits_matches := bits_matches c + n;
       stat_llen := stat_llen c; stat_mlen := stat_mlen c; stat_moff := stat_moff c |}.

Definition count_literal_byte (c : counters) : counters :=
  {| bytes_literal := bytes_literal c + 1; bytes_matches := bytes_matches c;
     bits_literal := bits_literal c; bits_matches := bits_matches c;
     stat_llen := stat_llen c; stat_mlen := stat_mlen c; stat_moff := stat_moff c |}.

Definition count_match_byte (c : counters) : counters :=
  {| bytes_literal := bytes_literal c; bytes_matches := bytes_matches c + 1;
     bits_literal := bits_literal c; bits_matches := bits_matches c;
     stat_llen := stat_llen c; stat_mlen := stat_mlen c; stat_moff := stat_moff c |}.

Definition set_arrays (c : counters) (sl sm so : Z -> Z) : counters :=
  {| bytes_literal := bytes_literal c; bytes_matches := bytes_matches c;
     bits_literal := bits_literal c; bits_matches := bits_matches c;
     stat_llen := sl; stat_mlen := sm; stat_moff := so |}.

(** [code_match] with its counter. *)
Definition code_match_counted (cfg : Cfg) (b : bf) (c : counters) (ln off : Z)
    : option (bf * counters) :=
  do b <- add_len b (max_mlen cfg) ln;
  let c := add_bits c ln (if (ln >? 127) && (max_mlen cfg >? 255) then 16 else 8) in
  if negb (ln =? 0) || zero_offset cfg then
    do r <- (if negb (bits_moff cfg =? 0)
             then do b <- add_byte b (Z.land off 255); Some (b, add_bits c ln 8)
             else Some (b, c));
    let '(b, c) := r in
    if bits_moff cfg >? 8
    then do b <- add_byte b (Z.shiftr off 8); Some (b, add_bits c ln 8)
    else Some (b, c)
  else Some (b, c).

(** [lzop_encode] with the counters and the statistics arrays. *)
Definition lzop_encode_counted (cfg : Cfg) (b : bf) (lz : lzop) (c : counters)
    (pos lpos : Z) (offset_rel : Z) : option (bf * lzop * Z * counters) :=
  if pos <=? lpos then
    if in_literal lz then
      do b <- add_byte b (at_ (data lz) pos);
      Some (b, lz, lpos, count_literal_byte c)
    else Some (b, lz, lpos, count_match_byte c)
  else
    let cur := sp lz pos in
    let extra_cost := if in_literal lz then zero_match_cost cfg else 0 in
    if lbits cur + extra_cost <=? mbits cur then
      let ln := llen cur in
      let ln := if ln >? max_llen cfg then max_llen cfg else ln in
      do r <- (if in_literal lz then code_match_counted cfg b c 0 0 else Some (b, c));
      let '(b, c) := r in
      do b <- add_len b (max_llen cfg) ln;
      let c := add_bits c 0 (if (max_llen cfg >? 255) && (ln >? 127) then 16 else 8) in
      do sl <- bump (max_llen cfg + 1) (stat_llen c) ln;
      let c := set_arrays c sl (stat_mlen c) (stat_moff c) in
      do b <- add_byte b (at_ (data lz) pos);
      Some (b, set_in_literal lz true, pos + ln - 1, count_literal_byte c)
    else
      let mp := mpos cur in
      let ml := mlen cur in
      do sm <- bump (max_mlen cfg + 1) (stat_mlen c) ml;
      do so <- bump (max_off cfg + 1) (stat_moff c) mp;
      let c := set_arrays c (stat_llen c) sm so in
      let mp := if offset_rel <? 0 then Z.land (mp - 1) 65535
                else Z.land (pos + offset_rel - mp) 65535 in
      do r <- (if negb (in_literal lz) then
                 do b <- add_byte b 0;
                 do sl <- bump (max_llen cfg + 1) (stat_llen c) 0;
                 Some (b, add_bits (set_arrays c sl (stat_mlen c) (stat_moff c)) 1 8)
               else Some (b, c));
      let '(b, c) := r in
      do r <- code_match_counted cfg b c ml mp;
      let '(b, c) := r in
      Some (b, set_in_literal lz false, pos + ml - 1, count_match_byte c).

Fixpoint encode_loop_counted (cfg : Cfg) (n : nat) (b : bf) (lz : lzop)
    (c : counters) (pos lpos : Z) : option (bf * lzop * Z * counters) :=
  match n with
  | O => Some (b, lz, lpos, c)
  | S n' =>
      do r <- lzop_encode_counted cfg b lz c pos lpos (offset_rel cfg);
      let '(b, lz, lpos, c) := r in
      encode_loop_counted cfg n' b lz c (pos + 1) lpos
  end.

(** The compression part of [main] with the statistics it prints from:
    [b.total] and the counters. *)
Definition compress_counted (cfg : Cfg) (data : list Z) : option (Z * counters) :=
  let sz := Z.of_nat (length data) in
  let b := init {| buf := []; total := 0; out := [] |} in
  let lz := lzop_backfill cfg (lzop_init data sz) in
  let b := init b in
  do r <- encode_loop_counted cfg (Z.to_nat sz) b lz no_counts 0 (-1);
  let '(b, _, _, c) := r in
  Some (total (bflush b), c).

End lz8s.

(** ** The decoder, [src/lz8dec.c] *)
Module lz8dec.

(** Standard input, standard output and the messages written to the
    standard error stream. *)
Record io := {
  stdin  : list Z;
  stdout : list Z;
  stderr : list string
}.

Definition EOF : Z := -1.

Definition getchar (s : io) : Z * io :=
  match stdin s with
  | [] => (EOF, s)
  | c :: rest => (c, {| stdin := rest; stdout := stdout s; stderr := stderr s |})
  end.

(** [putchar] writes its argument converted to [unsigned char]. *)
Definition putchar (s : io) (c : Z) : io :=
  {| stdin := stdin s; stdout := stdout s ++ [Z.land c 255]; stderr := stderr s |}.

Definition fprintf_stderr (s : io) (msg : string) : io :=
  {| stdin := stdin s; stdout := stdout s; stderr := stderr s ++ [msg] |}.

Definition nl : string := String (Ascii.ascii_of_nat 10) EmptyString.
Definition msg_len2 : string :=
  "ERROR, end of file reading second byte of length".
Definition msg_literal : string :=
  ("ERROR, short file reading literal." ++ nl)%string.
Definition msg_offset : string :=
  ("ERROR, short file reading match offset." ++ nl)%string.

(** Read match/literal length.  The test after the second [getchar] looks
    at [c] again, as the source does; [c2 << 7] on [EOF] is taken as the
    arithmetic shift that compilers produce. *)
Definition get_len (mx : Z) (s : io) : Z * io :=
  let '(c, s) := getchar s in
  if c =? EOF then (-1, s)
  else if (mx <? 256) || (c <? 128) then (c, s)
  else
    let '(c2, s) := getchar s in
    if c =? EOF then (-1, fprintf_stderr s msg_len2)
    else (c + Z.shiftl c2 7, s).

(** The state of [decode]: the streams, the window [buf] (a [char] array
    that the program does not initialise, so its first content is a
    parameter of [decode]) and the output position. *)
Record dstate := {
  dio  : io;
  dbuf : Z -> Z;
  dpos : Z
}.

Definition store (b : Z -> Z) (i x : Z) : Z -> Z :=
  fun j => if j =? i then x else b j.

(** [pos++] on an [unsigned]. *)
Definition incr (pos : Z) : Z := (pos + 1) mod 4294967296.

(** [return pos]: the conversion of an [unsigned] to [int]. *)
Definition to_int (u : Z) : Z :=
  if u <? 2147483648 then u else u - 4294967296.

(** The outcome of a part of the loop body: [decode] returns, or goes on. *)
Inductive ctl :=
| Return (ret : Z) (s : io)
| Next (st : dstate).

(** Copy from input (LITERAL): [for(int i = 0; i < n; i++)]. *)
Fixpoint copy_literal (mask : Z) (n : nat) (st : dstate) : ctl :=
  match n with
  | O => Next st
  | S n' =>
      let '(x, s) := getchar (dio st) in
      if x =? EOF then
        Return (to_int (dpos st)) (fprintf_stderr s msg_literal)
      else
        copy_literal mask n'
          {| dio := putchar s x;
             dbuf := store (dbuf st) (Z.land (dpos st) mask) x;
             dpos := incr (dpos st) |}
  end.

(** Copy from old output (MATCH).  Only [off & mask] is ever used, so the
    [int] [off] is followed without wrap-around. *)
Fixpoint copy_match (mask : Z) (n : nat) (off : Z) (st : dstate) : dstate :=
  match n with
  | O => st
  | S n' =>
      let x := dbuf st (Z.land off mask) in
      copy_match mask n' (off + 1)
        {| dio := putchar (dio st) x;
           dbuf := store (dbuf st) (Z.land (dpos st) mask) x;
           dpos := incr (dpos st) |}
  end.

(** Read match offset: both [getchar] calls with their checks. *)
Definition read_offset (cfg : Cfg) (st : dstate) : ctl + (Z * io) :=
  let s := dio st in
  let r1 :=
    if bits_moff cfg >? 0 then
      let '(off, s) := getchar s in
      if off =? EOF then
        inl (Return (to_int (dpos st)) (fprintf_stderr s msg_offset))
      else inr (off, s)
    else inr (0, s) in
  match r1 with
  | inl r => inl r
  | inr (off, s) =>
      if bits_moff cfg >? 8 then
        let '(x, s) := getchar s in
        if x =? EOF then
          inl (Return (to_int (dpos st)) (fprintf_stderr s msg_offset))
        else inr (off + Z.shiftl x 8, s)
      else inr (off, s)
  end.

Definition mask_of (cfg : Cfg) : Z :=
  if bits_moff cfg >? 8 then 65535 else 255.

(** First half of the loop body: decode LITERAL. *)
Definition decode_literal (cfg : Cfg) (st : dstate) : ctl :=
  let '(n, s) := get_len (max_llen cfg) (dio st) in
  if n <? 0 then Return (to_int (dpos st)) s
  else copy_literal (mask_of cfg) (Z.to_nat n)
         {| dio := s; dbuf := dbuf st; dpos := dpos st |}.

(** Second half of the loop body: decode MATCH. *)
Definition decode_match (cfg : Cfg) (st : dstate) : ctl :=
  let mask := mask_of cfg in
  let '(n, s) := get_len (max_mlen cfg) (dio st) in
  if n <? 0 then Return (to_int (dpos st)) s
  else
    let st := {| dio := s; dbuf := dbuf st; dpos := dpos st |} in
    if zero_offset cfg || negb (n =? 0) then
      match read_offset cfg st with
      | inl r => r
      | inr (off, s) =>
          let off := if exor_offset cfg then Z.lxor mask off else off in
          let off := if offset_rel cfg <? 0 then dpos st - off + mask
                     else off + mask + 1 - offset_rel cfg in
          Next (copy_match mask (Z.to_nat n) off
                  {| dio := s; dbuf := dbuf st; dpos := dpos st |})
      end
    else Next st.

(** [while(1)]: every turn that does not return reads at least one byte,
    so [fuel] above the length of the input is never used up. *)
Fixpoint decode_loop (cfg : Cfg) (fuel : nat) (st : dstate) : option (Z * io) :=
  match fuel with
  | O => None
  | S fuel' =>
      match decode_literal cfg st with
      | Return r s => Some (r, s)
      | Next st =>
          match decode_match cfg st with
          | Return r s => Some (r, s)
          | Next st => decode_loop cfg fuel' st
          end
      end
  end.

(** [decode()] on the input [input], the window holding [buf0] at first:
    the value returned and the final streams. *)
Definition decode (cfg : Cfg) (buf0 : Z -> Z) (input : list Z) : option (Z * io) :=
  decode_loop cfg (S (length input))
    {| dio := {| stdin := input; stdout := []; stderr := [] |};
       dbuf := buf0; dpos := 0 |}.

(** How [main] ends. *)
Inductive exit :=
| Failure (msg : string)        (* cmd_error(msg): exit(1) *)
| Status (code : Z) (s : io).   (* return code *)

(* printf("%d", n) *)
Definition string_of_int (n : Z) : string := NilZero.string_of_int (Z.to_int n).

(** [main] after option parsing: [cfg] holds the parsed options, [verbose]
    is [-v] and [input] is the content of the standard input, which is what
    [decode] reads with [getchar] whatever file the command line names.
    [None] stands for a [decode] that does not return (it always does). *)
Definition main (cfg : Cfg) (verbose : bool) (buf0 : Z -> Z) (input : list Z)
    : option exit :=
  match check_options cfg with
  | Some msg => Some (Failure msg)
  | None =>
      match decode cfg buf0 input with
      | None => None
      | Some (size, s) =>
          let s := if verbose
                   then fprintf_stderr s ("Output size: " ++ string_of_int size ++ nl)
                   else s in
          Some (Status 0 s)
      end
  end.

End lz8dec.

Import lz8s.
Import lz8dec.

(** * Definitions for the properties

    The notions the statements below are written with: the accepted
    configurations, the soundness of the parsing table, the wire format as
    the specification words it, the layout of the emitted stream and the
    decoder being in step with the input. *)

(** ** Tactics *)

Ltac zbool :=
  repeat match goal with
  | |- context [Z.gtb ?a ?b] => rewrite (Z.gtb_ltb a b)
  | |- context [Z.geb ?a ?b] => rewrite (Z.geb_leb a b)
  | H : context [Z.gtb ?a ?b] |- _ => rewrite (Z.gtb_ltb a b) in H
  | H : context [Z.geb ?a ?b] |- _ => rewrite (Z.geb_leb a b) in H
  end.

Ltac zcase :=
  zbool;
  match goal with
  | |- context [Z.ltb ?a ?b] => destruct (Z.ltb_spec a b)
  | |- context [Z.leb ?a ?b] => destruct (Z.leb_spec a b)
  | |- context [Z.eqb ?a ?b] => destruct (Z.eqb_spec a b)
  end.

Ltac list_eq :=
  repeat rewrite <- app_assoc; cbn [app]; rewrite ?app_nil_r; reflexivity.

Ltac zcases := repeat (zcase; simpl andb; simpl orb; simpl negb; cbv iota).

(** ** Configurations and input *)

(** What [check_options] accepts. *)
Record valid_cfg (cfg : Cfg) : Prop := {
  v_mlen : 1 <= max_mlen cfg <= 32895;
  v_llen : 1 <= max_llen cfg <= 32895;
  v_moff : 0 <= bits_moff cfg <= 16;
  v_rel  : offset_rel cfg < 0 \/
           (bits_moff cfg = 8 /\ offset_rel cfg <= 255) \/
           (bits_moff cfg = 16 /\ offset_rel cfg <= 65535)
}.

(** The run-length configuration: no offset bytes at all. *)
Definition rle_cfg : Cfg :=
  {| bits_moff := 0; max_mlen := 255; max_llen := 255;
     zero_offset := false; offset_rel := -1; exor_offset := false |}.

(** Every element is a byte (the executable form of [Forall is_byte]). *)
Definition bytes_ok (l : list Z) : bool :=
  forallb (fun x => (0 <=? x) && (x <? 256)) l.

Definition mkio (i o : list Z) (e : list string) : io :=
  {| stdin := i; stdout := o; stderr := e |}.

(** ** Costs and matches *)

(** The extra byte of a two-byte length, in bits. *)
Definition two_byte (mx l : Z) : Z :=
  if (mx >? 255) && (l >? 127) then 8 else 0.

(** The state of the scan of [match] before index [i]: [mlen] bounds every
    length seen so far and [mpos] points at the first index that reached it. *)
Definition scan_inv (data : list Z) (pos mxlen lo mp0 i mlen mpos : Z) : Prop :=
  0 <= mlen /\
  (forall j, lo <= j < i -> get_mlen data pos j mxlen <= mlen) /\
  (mlen = 0 -> mpos = mp0) /\
  (1 <= mlen ->
     lo <= pos - mpos < i /\
     get_mlen data pos (pos - mpos) mxlen = mlen /\
     forall j, lo <= j < pos - mpos -> get_mlen data pos j mxlen < mlen).

(** The [k] bytes at [pos] and the [k] bytes at [i] are the same: a common
    prefix of [data + pos] and [data + i], in the bytes of the input. *)
Definition common_prefix (data : list Z) (pos i k : Z) : Prop :=
  forall j, 0 <= j < k -> at_ data (pos + j) = at_ data (i + j).

(** What the parser needs of a match of length at least one. *)
Definition match_at (data : list Z) (cfg : Cfg) (size pos ml mp : Z) : Prop :=
  1 <= ml /\ ml <= max_mlen cfg /\ pos + ml <= size /\
  1 <= mp <= pos /\ mp <= max_off cfg /\
  forall k, 0 <= k < ml -> at_ data (pos + k) = at_ data (pos - mp + k).

(** ** Soundness of the parsing table *)

(** Coding one byte as a literal costs at most 40 bits: the byte, a
    length header and a zero-length match with a two-byte offset. *)
Definition after_ok (size p : Z) (c : lzop_st) : Prop :=
  0 <= llen c <= size - p /\ lbits c <= 40 * (size - p).

Definition cell_ok (cfg : Cfg) (data : list Z) (size p : Z) (c : lzop_st) : Prop :=
  1 <= llen c <= size - p /\ lbits c <= 40 * (size - p) /\
  (mbits c < INFINITE_COST -> match_at data cfg size p (mlen c) (mpos c)).

Definition table_ok (cfg : Cfg) (data : list Z) (size : Z) (sp : table)
    (from : Z) : Prop :=
  (forall p, from <= p < size -> cell_ok cfg data size p (sp p)) /\
  llen (sp size) = 0 /\ lbits (sp size) = 0.

(** ** The wire format

    The stream as the specification describes it: a sequence of blocks,
    each a length field followed by literal bytes or by an offset field. *)

Inductive block :=
| Lit (bytes : list Z)     (* a literal block carrying [bytes] *)
| Mat (ln off : Z).        (* a match block: length and offset field *)

(** [len_field(x)]: one byte if the limit is at most 255 or [x < 128],
    else [0x80 | (x & 0x7F)] followed by [(x >> 7) - 1]. *)
Definition len_field (mx x : Z) : list Z :=
  if (mx <=? 255) || (x <? 128) then [x]
  else [Z.lor 128 (Z.land x 127); Z.shiftr x 7 - 1].

(** [offset_field]: nothing, one byte, or two bytes with the low one first. *)
Definition offset_field (cfg : Cfg) (off : Z) : list Z :=
  (if bits_moff cfg =? 0 then [] else [Z.land off 255]) ++
  (if bits_moff cfg >? 8 then [Z.shiftr off 8] else []).

Definition wire_block (cfg : Cfg) (b : block) : list Z :=
  match b with
  | Lit bytes => len_field (max_llen cfg) (Z.of_nat (length bytes)) ++ bytes
  | Mat ln off =>
      len_field (max_mlen cfg) ln ++
      (if negb (ln =? 0) || zero_offset cfg then offset_field cfg off else [])
  end.

Definition wire (cfg : Cfg) (bl : list block) : list Z :=
  flat_map (wire_block cfg) bl.

Definition block_len (b : block) : Z :=
  match b with
  | Lit bytes => Z.of_nat (length bytes)
  | Mat ln _ => ln
  end.

Definition is_lit (b : block) : bool :=
  match b with Lit _ => true | Mat _ _ => false end.

(** [data[pos .. pos+n)]. *)
Fixpoint slice (data : list Z) (pos : Z) (n : nat) : list Z :=
  match n with
  | O => []
  | S n' => at_ data pos :: slice data (pos + 1) n'
  end.

(** The offset field of a match at [pos] with offset [mp]. *)
Definition enc_off (cfg : Cfg) (pos mp : Z) : Z :=
  if offset_rel cfg <? 0 then Z.land (mp - 1) 65535
  else Z.land (pos + offset_rel cfg - mp) 65535.

(** ** The layout of the emitted stream

    [parse cfg data size pos il bl]: from position [pos], with [il] telling
    that the block emitted last was a literal, the blocks [bl] code
    [data[pos .. size)] the way [lzop_encode] lays them out.  A zero-length
    block appears only to separate two blocks of the same kind, and nothing
    follows the block that reaches the end of the input. *)
Inductive parse (cfg : Cfg) (data : list Z) (size : Z)
    : Z -> bool -> list block -> Prop :=
| parse_end pos il :
    pos = size -> parse cfg data size pos il []
| parse_lit pos ln bl :
    0 <= pos -> 1 <= ln <= max_llen cfg -> pos + ln <= size ->
    parse cfg data size (pos + ln) true bl ->
    parse cfg data size pos false (Lit (slice data pos (Z.to_nat ln)) :: bl)
| parse_lit_split pos ln bl :
    0 <= pos -> 1 <= ln <= max_llen cfg -> pos + ln <= size ->
    parse cfg data size (pos + ln) true bl ->
    parse cfg data size pos true
          (Mat 0 0 :: Lit (slice data pos (Z.to_nat ln)) :: bl)
| parse_mat pos ml mp bl :
    match_at data cfg size pos ml mp ->
    parse cfg data size (pos + ml) false bl ->
    parse cfg data size pos true (Mat ml (enc_off cfg pos mp) :: bl)
| parse_mat_split pos ml mp bl :
    match_at data cfg size pos ml mp ->
    parse cfg data size (pos + ml) false bl ->
    parse cfg data size pos false (Lit [] :: Mat ml (enc_off cfg pos mp) :: bl).

(** Kinds alternate, starting with a literal when [expect_lit] holds; a
    zero-length block has a block of non-zero length on each side
    ([prev_nz] tells whether the block before is one). *)
Fixpoint layout_ok (expect_lit prev_nz : bool) (bl : list block) : bool :=
  match bl with
  | [] => true
  | b :: tl =>
      Bool.eqb (is_lit b) expect_lit &&
      (negb (block_len b =? 0) ||
       (prev_nz && match tl with
                   | n :: _ => negb (block_len n =? 0)
                   | [] => false
                   end)) &&
      layout_ok (negb expect_lit) (negb (block_len b =? 0)) tl
  end.

(** The number of input bytes the blocks stand for. *)
Definition total_len (bl : list block) : Z :=
  fold_right (fun b a => block_len b + a) 0 bl.

(** ** The decoder in step with the input *)

(** The ring buffer holds the last [mask + 1] bytes of the output. *)
Definition window_ok (cfg : Cfg) (data : list Z) (pos : Z) (b : Z -> Z) : Prop :=
  forall j, 0 <= j < pos -> pos - j <= mask_of cfg + 1 ->
            b (Z.land j (mask_of cfg)) = at_ data j.

(** The decoder has produced [data[0 .. pos)] and [input] is left. *)
Definition synced (cfg : Cfg) (data : list Z) (size pos : Z) (st : dstate)
    (input : list Z) : Prop :=
  0 <= pos <= size /\ dpos st = pos /\
  dio st = mkio input (slice data 0 (Z.to_nat pos)) [] /\
  window_ok cfg data pos (dbuf st).

(** One block that the decoder can take at [pos]: a literal when the
    last block was a match ([il = false]), a match after a literal. *)
Definition step (cfg : Cfg) (data : list Z) (size pos : Z) (il : bool)
    (b : block) (pos' : Z) : Prop :=
  match b with
  | Lit bytes =>
      il = false /\ 0 <= pos /\
      exists ln, 0 <= ln <= max_llen cfg /\ pos + ln <= size /\
                 bytes = slice data pos (Z.to_nat ln) /\ pos' = pos + ln
  | Mat ml off =>
      il = true /\ 0 <= pos <= size /\
      ((ml = 0 /\ off = 0 /\ pos' = pos) \/
       exists mp, match_at data cfg size pos ml mp /\
                  off = enc_off cfg pos mp /\ pos' = pos + ml)
  end.

Inductive run (cfg : Cfg) (data : list Z) (size : Z)
    : Z -> bool -> list block -> Z -> bool -> Prop :=
| run_nil pos il : run cfg data size pos il [] pos il
| run_cons pos il b pos1 bl pos' il' :
    step cfg data size pos il b pos1 ->
    run cfg data size pos1 (negb il) bl pos' il' ->
    run cfg data size pos il (b :: bl) pos' il'.

(** The block that reaches the end of the input. *)
Definition closing_block (cfg : Cfg) (data : list Z) (size pos : Z) (il : bool)
    (b : block) : Prop :=
  (il = false /\ 0 <= pos /\
   exists ln, 1 <= ln <= max_llen cfg /\ pos + ln = size /\
              b = Lit (slice data pos (Z.to_nat ln))) \/
  (il = true /\
   exists ml mp, match_at data cfg size pos ml mp /\ pos + ml = size /\
                 b = Mat ml (enc_off cfg pos mp)).

(** The value the decoder rebuilds from the offset field. *)
Definition read_value (cfg : Cfg) (off : Z) : Z :=
  if bits_moff cfg =? 0 then 0
  else if bits_moff cfg <=? 8 then off mod 256 else off.

(** The loop of [decode] entered at its second half. *)
Definition decode_from_match (cfg : Cfg) (fuel : nat) (st : dstate)
    : option (Z * io) :=
  match decode_match cfg st with
  | Return r s => Some (r, s)
  | Next st => decode_loop cfg fuel st
  end.

Definition phase (cfg : Cfg) (il : bool) (fuel : nat) (st : dstate)
    : option (Z * io) :=
  if il then decode_from_match cfg fuel st else decode_loop cfg fuel st.

(** What reading leaves behind: fewer bytes, the same messages. *)
Definition advanced (s s' : io) : Prop :=
  stderr s' = stderr s /\ Forall is_byte (stdin s') /\
  (length (stdin s') <= length (stdin s))%nat.

(** The position counts the bytes written, as an [unsigned]. *)
Definition counted (st : dstate) : Prop :=
  dpos st = Z.of_nat (length (stdout (dio st))) mod 4294967296.

(** What a part of the loop body hands on: the count, or a counting state. *)
Definition returns_count (c : ctl) : Prop :=
  match c with
  | Return r s => r = to_int (Z.of_nat (length (stdout s)) mod 4294967296)
  | Next st => counted st
  end.

(** ** Further notions

    Definitions for the properties of the code that the last part of the
    file states: memory safety of the match finder, the meaning of the
    costs in the parsing table, the limits of the emitted blocks, and the
    decoder on streams of any origin. *)

(** *** Reads of the input with their bounds checked *)

(** [data[i]] with the bounds of the array checked: [None] stands for a
    read outside the [length data] bytes of the input. *)
Definition read (data : list Z) (i : Z) : option Z :=
  if (0 <=? i) && (i <? Z.of_nat (length data)) then Some (at_ data i) else None.

(** [get_mlen] and [match] once more, every [a[i]], [b[i]] a checked read. *)
Fixpoint get_mlen_loop_checked (data : list Z) (a b mx : Z) (n : nat) (i : Z)
    : option Z :=
  match n with
  | O => Some mx
  | S n' =>
      do x <- read data (a + i);
      do y <- read data (b + i);
      if x =? y then get_mlen_loop_checked data a b mx n' (i + 1) else Some i
  end.

Definition get_mlen_checked (data : list Z) (a b mx : Z) : option Z :=
  get_mlen_loop_checked data a b mx (Z.to_nat mx) 0.

Fixpoint match_loop_checked (data : list Z) (pos mxlen : Z) (n : nat) (i : Z)
    (mlen mpos : Z) : option (Z * Z) :=
  match n with
  | O => Some (mlen, mpos)
  | S n' =>
      do ml <- get_mlen_checked data pos i mxlen;
      if ml >? mlen then
        if ml >=? mxlen then Some (ml, pos - i)
        else match_loop_checked data pos mxlen n' (i + 1) ml (pos - i)
      else match_loop_checked data pos mxlen n' (i + 1) mlen mpos
  end.

Definition match_checked (cfg : Cfg) (data : list Z) (pos size mpos : Z)
    : option (Z * Z) :=
  let mxlen := - lz8s.max (- max_mlen cfg) (pos - size) in
  let i0 := lz8s.max (pos - max_off cfg) 0 in
  match_loop_checked data pos mxlen (Z.to_nat (pos - i0)) i0 0 mpos.

(** *** The costs kept in the parsing table *)

(** What follows a literal that ends at [e]: nothing at the end of the
    input, the match kept at [e] otherwise. *)
Definition after_literal (size : Z) (sp : table) (e : Z) : Z :=
  if e =? size then 0 else mbits (sp e).

(** The two costs of a cell are those of its block and of what follows. *)
Definition literal_cost_ok (cfg : Cfg) (size : Z) (sp : table) (p : Z) : Prop :=
  lbits (sp p) =
    llen_cost cfg (llen (sp p)) + 8 * llen (sp p)
    + after_literal size sp (p + llen (sp p)).

Definition match_cost_ok (cfg : Cfg) (sp : table) (p : Z) : Prop :=
  mbits (sp p) < INFINITE_COST ->
  mbits (sp p) =
    mlen_cost cfg (mlen (sp p)) + moff_cost cfg (mpos (sp p))
    + Z.min (lbits (sp (p + mlen (sp p)))) (mbits (sp (p + mlen (sp p))) + 8).

(** The cost [cb] of a literal of [cl] bytes at [pos] and of what follows. *)
Definition lit_inv (cfg : Cfg) (size : Z) (sp : table) (pos cb cl : Z) : Prop :=
  1 <= cl /\
  cb = llen_cost cfg cl + 8 * cl + after_literal size sp (pos + cl).

(** *** Blocks within the limits of the options *)

(** A block that a length field and an offset field can hold. *)
Definition well_formed (cfg : Cfg) (b : block) : bool :=
  match b with
  | Lit bytes => (Z.of_nat (length bytes) <=? max_llen cfg) && bytes_ok bytes
  | Mat ln off => (0 <=? ln) && (ln <=? max_mlen cfg) && (0 <=? off) && (off <? 65536)
  end.

(** Moreover, without [-A], the offset field is below [max_off]. *)
Definition within_limits (cfg : Cfg) (b : block) : bool :=
  well_formed cfg b &&
  match b with
  | Lit _ => true
  | Mat _ off => (0 <=? offset_rel cfg) || (off <? max_off cfg)
  end.

(** Literal and match blocks in turn. *)
Fixpoint alternating (expect_lit : bool) (bl : list block) : bool :=
  match bl with
  | [] => true
  | b :: tl => Bool.eqb (is_lit b) expect_lit && alternating (negb expect_lit) tl
  end.

(** *** The decoder as a function of the blocks *)

Definition mkst (i o : list Z) (e : list string) (b : Z -> Z) (p : Z) : dstate :=
  {| dio := mkio i o e; dbuf := b; dpos := p |}.

(** The window and the position after the bytes [bs] have been written. *)
Fixpoint feed (mask : Z) (bs : list Z) (b : Z -> Z) (p : Z) : (Z -> Z) * Z :=
  match bs with
  | [] => (b, p)
  | x :: tl => feed mask tl (store b (Z.land p mask) x) (incr p)
  end.

(** The output, the window and the position after [n] bytes have been
    copied from the window, starting at the index [off]. *)
Fixpoint replay (mask : Z) (n : nat) (off : Z) (o : list Z) (b : Z -> Z) (p : Z)
    : list Z * (Z -> Z) * Z :=
  match n with
  | O => (o, b, p)
  | S n' =>
      let x := b (Z.land off mask) in
      replay mask n' (off + 1) (o ++ [Z.land x 255])
             (store b (Z.land p mask) x) (incr p)
  end.

(** Where the match of the block [Mat ln off] is copied from, as [decode]
    computes it at the position [p]. *)
Definition match_source (cfg : Cfg) (off p : Z) : Z :=
  let v := read_value cfg off in
  let v := if exor_offset cfg then Z.lxor (mask_of cfg) v else v in
  if offset_rel cfg <? 0 then p - v + mask_of cfg
  else v + mask_of cfg + 1 - offset_rel cfg.

(** *** Inverted offsets *)

(** The configuration with the decoder's [-x] set as given. *)
Definition set_exor (cfg : Cfg) (x : bool) : Cfg :=
  {| bits_moff := bits_moff cfg; max_mlen := max_mlen cfg; max_llen := max_llen cfg;
     zero_offset := zero_offset cfg; offset_rel := offset_rel cfg; exor_offset := x |}.

(** The block with every bit of its offset field inverted. *)
Definition invert_offset (b : block) : block :=
  match b with
  | Lit bytes => Lit bytes
  | Mat ln off => Mat ln (Z.lxor off 65535)
  end.

(** *** The decoder on a prefix of its input *)

Definition prefix_of (a b : list Z) : Prop := exists k, b = a ++ k.

(** What a part of the loop body has written so far. *)
Definition out_of (c : ctl) : list Z :=
  match c with
  | Return _ s => stdout s
  | Next st => stdout (dio st)
  end.

(** The decoder on a prefix of the input ([cs]) against the decoder on the
    whole input ([cl]) after the same part of the loop body: the first has
    written a prefix of what the second has, and it has come to its end,
    or has no input left, or is in the state of the second but for the
    input that the second still has. *)
Definition in_step (cs cl : ctl) : Prop :=
  prefix_of (out_of cs) (out_of cl) /\
  match cs with
  | Return _ _ => True
  | Next st =>
      stdin (dio st) = [] \/
      exists a x o e b p,
        Forall is_byte (a ++ x) /\ st = mkst a o e b p /\
        cl = Next (mkst (a ++ x) o e b p)
  end.

(** *** How much the decoder can write *)

(** The most bytes one match block can stand for, by the form of its
    length field. *)
Definition max_copy (cfg : Cfg) : Z :=
  if max_mlen cfg <? 256 then 255 else 32895.

Definition potential (cfg : Cfg) (s : io) : Z :=
  Z.of_nat (length (stdout s)) + max_copy cfg * Z.of_nat (length (stdin s)).

(** *** The options as the decoder reads them *)

(** Two configurations on which every test of [decode] and [get_len]
    comes out the same. *)
Definition same_tests (cfg cfg' : Cfg) : bool :=
  Bool.eqb (max_llen cfg <? 256) (max_llen cfg' <? 256) &&
  Bool.eqb (max_mlen cfg <? 256) (max_mlen cfg' <? 256) &&
  Bool.eqb (bits_moff cfg >? 0) (bits_moff cfg' >? 0) &&
  Bool.eqb (bits_moff cfg >? 8) (bits_moff cfg' >? 8) &&
  Bool.eqb (zero_offset cfg) (zero_offset cfg') &&
  Bool.eqb (exor_offset cfg) (exor_offset cfg') &&
  (((offset_rel cfg <? 0) && (offset_rel cfg' <? 0)) ||
   (offset_rel cfg =? offset_rel cfg')).

(** * Properties *)

(** ** Elementary facts *)

Lemma max_spec (a b : Z) : lz8s.max a b = Z.max a b.
Proof. unfold lz8s.max. zcases; lia. Qed.

Lemma land_255 (x : Z) : Z.land x 255 = x mod 256.
Proof. apply (Z.land_ones x 8). lia. Qed.

Lemma land_65535 (x : Z) : Z.land x 65535 = x mod 65536.
Proof. apply (Z.land_ones x 16). lia. Qed.

Lemma shiftr_7 (x : Z) : Z.shiftr x 7 = x / 128.
Proof. apply (Z.shiftr_div_pow2 x 7). lia. Qed.

Lemma shiftr_8 (x : Z) : Z.shiftr x 8 = x / 256.
Proof. apply (Z.shiftr_div_pow2 x 8). lia. Qed.

Lemma shiftl_7 (x : Z) : Z.shiftl x 7 = x * 128.
Proof. apply (Z.shiftl_mul_pow2 x 7). lia. Qed.

Lemma shiftl_8 (x : Z) : Z.shiftl x 8 = x * 256.
Proof. apply (Z.shiftl_mul_pow2 x 8). lia. Qed.

Lemma land_127 (x : Z) : Z.land x 127 = x mod 128.
Proof. apply (Z.land_ones x 7). lia. Qed.

Lemma lor_128_table :
  forallb (fun n => Z.lor 128 (Z.of_nat n) =? 128 + Z.of_nat n mod 128)
          (seq 0 256) = true.
Proof. vm_compute. reflexivity. Qed.

Lemma lor_128_small (y : Z) :
  0 <= y < 256 -> Z.lor 128 y = 128 + y mod 128.
Proof.
  intros Hy. pose proof lor_128_table as T. rewrite forallb_forall in T.
  specialize (T (Z.to_nat y)). rewrite Z2Nat.id in T by lia.
  apply Z.eqb_eq, T, in_seq. lia.
Qed.

(** [(0x80 | x) & 0xFF] keeps the low seven bits and sets the eighth. *)
Lemma lor_128 (x : Z) : Z.land (Z.lor 128 x) 255 = 128 + x mod 128.
Proof.
  rewrite Z.land_lor_distr_l. change (Z.land 128 255) with 128.
  rewrite land_255, lor_128_small by (apply Z.mod_pos_bound; lia).
  f_equal. Z.div_mod_to_equations. lia.
Qed.

(** The window never exceeds the decoder's ring buffer. *)
Lemma max_off_pos (cfg : Cfg) : 0 <= bits_moff cfg -> 1 <= max_off cfg.
Proof.
  intros H. unfold max_off. rewrite Z.shiftl_mul_pow2 by assumption.
  assert (0 < 2 ^ bits_moff cfg) by (apply Z.pow_pos_nonneg; lia). lia.
Qed.

Lemma max_off_le (cfg : Cfg) (k : Z) :
  0 <= bits_moff cfg <= k -> max_off cfg <= 2 ^ k.
Proof.
  intros H. unfold max_off. rewrite Z.shiftl_mul_pow2 by lia.
  rewrite Z.mul_1_l. apply Z.pow_le_mono_r; lia.
Qed.

Lemma check_options_valid (cfg : Cfg) :
  check_options cfg = None <-> valid_cfg cfg.
Proof.
  unfold check_options. split.
  - intros H. revert H. zcases; try discriminate; intros _; constructor; lia.
  - intros [H1 H2 H3 H4]. zcases; try reflexivity; lia.
Qed.

(** ** Cost model *)

Section Costs.
Variable cfg : Cfg.
Hypothesis Hv : valid_cfg cfg.

Lemma mlen_cost_0 : mlen_cost cfg 0 = 8.
Proof.
  destruct Hv. unfold mlen_cost. zcases; try reflexivity; lia.
Qed.

Lemma moff_cost_1 : 0 <= moff_cost cfg 1 <= 16.
Proof.
  destruct Hv. pose proof (max_off_pos cfg ltac:(lia)).
  unfold moff_cost. zcases; lia.
Qed.

Lemma zero_match_cost_bound : 8 <= zero_match_cost cfg <= 24.
Proof.
  unfold zero_match_cost. rewrite mlen_cost_0.
  pose proof moff_cost_1. destruct (zero_offset cfg); lia.
Qed.

(** The [while] loop of [llen_cost] takes [q] turns and leaves a rest
    in [1, max_llen]. *)
Lemma llen_cost_loop_spec (n : nat) (l bits : Z) :
  1 <= l <= Z.of_nat n ->
  exists q,
    0 <= q /\
    llen_cost_loop cfg n l bits =
      (l - q * max_llen cfg, bits + q * (8 + zero_match_cost cfg)) /\
    1 <= l - q * max_llen cfg <= max_llen cfg.
Proof.
  destruct Hv as [_ Hl _ _].
  revert l bits. induction n as [|n IH]; intros l bits Hn; [lia|].
  cbn [llen_cost_loop]. zcases.
  - destruct (IH (l - max_llen cfg) (bits + (8 + zero_match_cost cfg)))
      as (q & Hq & E & R); [lia|].
    exists (q + 1). rewrite E. split; [lia|]. split; [f_equal; lia | lia].
  - exists 0. split; [lia|]. split; [f_equal; lia | lia].
Qed.

Lemma llen_cost_spec (l : Z) :
  1 <= l ->
  exists q r,
    0 <= q /\ 1 <= r <= max_llen cfg /\ l = r + q * max_llen cfg /\
    llen_cost cfg l =
      8 + q * (8 + zero_match_cost cfg) + two_byte (max_llen cfg) r.
Proof.
  intros Hl. unfold llen_cost.
  destruct (Z.eqb_spec l 0); [lia|].
  destruct (llen_cost_loop_spec (Z.to_nat l) l 0) as (q & Hq & E & R); [lia|].
  rewrite E. exists q, (l - q * max_llen cfg).
  repeat split; try lia.
  unfold two_byte. destruct ((max_llen cfg >? 255) && (l - q * max_llen cfg >? 127)); lia.
Qed.

Lemma llen_cost_0 : llen_cost cfg 0 = 0.
Proof. reflexivity. Qed.

(** One more literal byte costs at most one more header and one
    zero-length match. *)
Lemma llen_cost_step (l : Z) :
  0 <= l -> llen_cost cfg (l + 1) <= llen_cost cfg l + 8 + zero_match_cost cfg.
Proof.
  intros Hl. pose proof zero_match_cost_bound as Z.
  destruct (llen_cost_spec (l + 1)) as (q' & r' & Hq' & Hr' & El' & E'); [lia|].
  rewrite E'.
  destruct (Z.eq_dec l 0) as [->|Hn].
  - rewrite llen_cost_0.
    assert (q' = 0) by nia. subst q'.
    assert (r' = 1) by lia. subst r'.
    unfold two_byte. rewrite andb_false_r. lia.
  - destruct (llen_cost_spec l) as (q & r & Hq & Hr & El & E); [lia|].
    rewrite E.
    assert (Hd : q' = q \/ q' = q + 1) by nia.
    assert (T : forall x, 0 <= two_byte (max_llen cfg) x <= 8).
    { intros x. unfold two_byte.
      destruct ((max_llen cfg >? 255) && (x >? 127)); lia. }
    pose proof (T r). pose proof (T r').
    destruct Hd as [-> | ->]; [lia|].
    assert (r' = 1) by nia. subst r'.
    unfold two_byte at 1. rewrite andb_false_r. lia.
Qed.

End Costs.

(** ** Match finder *)

Section MatchFinder.
Variable data : list Z.

Lemma get_mlen_loop_spec (a b mx : Z) (n : nat) (i : Z) :
  0 <= i -> i + Z.of_nat n = mx ->
  (forall k, 0 <= k < i -> at_ data (a + k) = at_ data (b + k)) ->
  let r := get_mlen_loop data a b mx n i in
  i <= r <= mx /\
  (forall k, 0 <= k < r -> at_ data (a + k) = at_ data (b + k)) /\
  (r < mx -> at_ data (a + r) <> at_ data (b + r)).
Proof.
  revert i. induction n as [|n IH]; intros i Hi Hn Hp; cbn [get_mlen_loop].
  - split; [lia|]. split; [intros; apply Hp; lia | lia].
  - destruct (Z.eqb_spec (at_ data (a + i)) (at_ data (b + i))) as [E|E].
    + destruct (IH (i + 1)) as (R1 & R2 & R3); [lia | lia | | ].
      * intros k Hk. destruct (Z.eq_dec k i) as [->|]; [exact E | apply Hp; lia].
      * split; [lia|]. split; assumption.
    + split; [lia|]. split; [exact Hp | intros _; exact E].
Qed.

(** [get_mlen] is the length of the longest common prefix of [data+a]
    and [data+b], capped by [mx]. *)
Lemma get_mlen_spec (a b mx : Z) :
  0 <= mx ->
  let r := get_mlen data a b mx in
  0 <= r <= mx /\
  (forall k, 0 <= k < r -> at_ data (a + k) = at_ data (b + k)) /\
  (r < mx -> at_ data (a + r) <> at_ data (b + r)).
Proof.
  intros Hm. unfold get_mlen.
  apply get_mlen_loop_spec; [lia | lia | intros; lia].
Qed.

Lemma get_mlen_le (a b mx : Z) : get_mlen data a b mx <= mx.
Proof.
  destruct (Z.le_gt_cases 0 mx) as [H|H].
  - apply get_mlen_spec; assumption.
  - unfold get_mlen. replace (Z.to_nat mx) with O by lia. simpl. lia.
Qed.

Lemma match_loop_inv (pos mxlen lo mp0 : Z) (n : nat) (i mlen mpos : Z) :
  lo <= i -> i + Z.of_nat n = pos ->
  scan_inv data pos mxlen lo mp0 i mlen mpos ->
  let '(ml, mp) := match_loop data pos mxlen n i mlen mpos in
  scan_inv data pos mxlen lo mp0 pos ml mp.
Proof.
  revert i mlen mpos.
  induction n as [|n IH]; intros i mlen mpos Hi Hn Inv; cbn [match_loop].
  - assert (i = pos) by lia. subst i. exact Inv.
  - destruct Inv as (I0 & I1 & I2 & I3).
    set (ml := get_mlen data pos i mxlen).
    assert (Hnew : ml > mlen -> scan_inv data pos mxlen lo mp0 (i + 1) ml (pos - i)).
    { intros Hgt. unfold scan_inv. replace (pos - (pos - i)) with i by lia.
      split; [lia|]. split; [|split; [lia|]].
      - intros j Hj. destruct (Z.eq_dec j i) as [->|]; [fold ml; lia|].
        specialize (I1 j ltac:(lia)). lia.
      - intros _. split; [lia|]. split; [reflexivity|].
        intros j Hj. specialize (I1 j ltac:(lia)). lia. }
    zcases.
    + (* the cap is reached: nothing longer can follow *)
      destruct (Hnew ltac:(lia)) as (J0 & J1 & J2 & J3).
      unfold scan_inv. split; [lia|]. split; [|split; [lia|]].
      * intros j _. pose proof (get_mlen_le pos j mxlen). lia.
      * intros H1. destruct (J3 H1) as (K1 & K2 & K3).
        split; [lia|]. split; assumption.
    + apply IH; [lia | lia | apply Hnew; lia].
    + apply IH; [lia | lia |].
      unfold scan_inv. split; [lia|]. split; [|split; [assumption|]].
      * intros j Hj. destruct (Z.eq_dec j i) as [->|]; [fold ml; lia|].
        apply I1; lia.
      * intros H1. destruct (I3 H1) as (K1 & K2 & K3).
        split; [lia|]. split; assumption.
Qed.

Lemma match_scan (cfg : Cfg) (pos size mp0 : Z) :
  let mxlen := Z.min (max_mlen cfg) (size - pos) in
  let lo := Z.max (pos - max_off cfg) 0 in
  let '(ml, mp) := match_ cfg data pos size mp0 in
  scan_inv data pos mxlen lo mp0 pos ml mp.
Proof.
  intros mxlen lo. unfold match_. rewrite !max_spec.
  replace (- Z.max (- max_mlen cfg) (pos - size)) with mxlen by (unfold mxlen; lia).
  fold lo.
  destruct (Z.le_gt_cases lo pos) as [H|H].
  - apply (match_loop_inv pos mxlen lo mp0); [lia | lia |].
    unfold scan_inv. split; [lia|]. split; [intros; lia|]. split; [auto | lia].
  - replace (Z.to_nat (pos - lo)) with O by lia. cbn [match_loop].
    unfold scan_inv. split; [lia|]. split; [intros; lia|]. split; [auto | lia].
Qed.

Lemma match_valid (cfg : Cfg) (pos size mp0 : Z) :
  0 <= pos < size ->
  let '(ml, mp) := match_ cfg data pos size mp0 in
  0 <= ml /\ (1 <= ml -> match_at data cfg size pos ml mp).
Proof.
  intros Hp. pose proof (match_scan cfg pos size mp0) as S.
  cbv zeta in S. destruct (match_ cfg data pos size mp0) as [ml mp].
  destruct S as (S0 & S1 & S2 & S3). split; [assumption|].
  intros H1. destruct (S3 H1) as (K1 & K2 & K3).
  set (mx := Z.min (max_mlen cfg) (size - pos)) in *.
  pose proof (get_mlen_le pos (pos - mp) mx) as Hle.
  destruct (get_mlen_spec pos (pos - mp) mx ltac:(lia)) as (G1 & G2 & _).
  rewrite K2 in G1, G2.
  unfold match_at. repeat split; try lia. exact G2.
Qed.
End MatchFinder.

(** ** The parsing table *)

Section Table.
Variable cfg : Cfg.
Hypothesis Hv : valid_cfg cfg.
Variable data : list Z.
Variable size : Z.
Hypothesis Hsize : size <= MAX_INPUT.

Lemma table_after (sp : table) (from p : Z) :
  table_ok cfg data size sp from -> from <= p <= size -> after_ok size p (sp p).
Proof.
  intros [H [E1 E2]] Hp. unfold after_ok.
  destruct (Z.eq_dec p size) as [->|].
  - rewrite E1, E2. lia.
  - destruct (H p ltac:(lia)) as (A & B & _). lia.
Qed.

Section At.
Variable sp : table.
Variable pos : Z.
Hypothesis Hpos : 0 <= pos < size.
Hypothesis Hnext : forall p, pos < p <= size -> after_ok size p (sp p).

Lemma lit_lit_loop_inv (n : nat) (i ml cb cl ml' cb' cl' : Z) :
  1 <= i ->
  lit_lit_loop cfg sp pos size n i ml cb cl = (ml', cb', cl') ->
  cb' <= cb /\
  (ml <= size - pos -> ml' <= size - pos) /\
  (1 <= cl <= size - pos -> 1 <= cl' <= size - pos).
Proof.
  revert i ml cb cl.
  induction n as [|n IH]; intros i ml cb cl Hi E; cbn [lit_lit_loop] in E.
  - inversion E; subst. lia.
  - revert E. destruct (Z.gtb_spec (pos + i) size) as [Hout|Hin]; intros E.
    + inversion E; subst. lia.
    + destruct (Hnext (pos + i) ltac:(lia)) as [L _].
      revert E. zcases; intros E; (apply IH in E; [|lia]); lia.
Qed.

Lemma lit_lit_loop_S (n : nat) (i ml cb cl : Z) :
  lit_lit_loop cfg sp pos size (S n) i ml cb cl =
  if pos + i >? size then (ml, cb, cl)
  else
    let nxt := sp (pos + i) in
    let ml := if ml <? llen nxt + i then llen nxt + i else ml in
    let lb := lbits nxt + 8 * i - llen_cost cfg (llen nxt)
              + llen_cost cfg (llen nxt + i) in
    if lb <? cb
    then lit_lit_loop cfg sp pos size n (i + 1) ml lb (llen nxt + i)
    else lit_lit_loop cfg sp pos size n (i + 1) ml cb cl.
Proof. reflexivity. Qed.

(** The first turn always records a literal: its cost is finite. *)
Lemma lit_lit_loop_first (ml' cb' cl' : Z) :
  lit_lit_loop cfg sp pos size 5 1 0 INFINITE_COST 0 = (ml', cb', cl') ->
  cb' <= 40 * (size - pos) /\ ml' <= size - pos /\ 1 <= cl' <= size - pos.
Proof.
  intros E. rewrite lit_lit_loop_S in E. cbv zeta in E.
  destruct (Hnext (pos + 1) ltac:(lia)) as [L B].
  pose proof (llen_cost_step cfg Hv (llen (sp (pos + 1))) ltac:(lia)) as S.
  pose proof (zero_match_cost_bound cfg Hv) as Zc.
  assert (Hinf : INFINITE_COST = 8388607) by reflexivity.
  unfold MAX_INPUT in Hsize.
  revert E.
  destruct (Z.gtb_spec (pos + 1) size) as [|_]; [lia|].
  destruct (Z.ltb_spec 0 (llen (sp (pos + 1)) + 1)) as [_|]; [|lia].
  destruct (Z.ltb_spec
              (lbits (sp (pos + 1)) + 8 * 1 - llen_cost cfg (llen (sp (pos + 1)))
               + llen_cost cfg (llen (sp (pos + 1)) + 1)) INFINITE_COST)
    as [_|]; [|lia].
  intros E. apply lit_lit_loop_inv in E; [|lia]. lia.
Qed.

Lemma lit_match_loop_inv (n : nat) (i cb cl cb' cl' : Z) :
  lit_match_loop cfg sp pos n i cb cl = (cb', cl') ->
  cb' <= cb /\ (cl' = cl \/ i <= cl' < i + Z.of_nat n).
Proof.
  revert i cb cl.
  induction n as [|n IH]; intros i cb cl E; cbn [lit_match_loop] in E.
  - inversion E; subst. lia.
  - revert E. zcases; intros E; apply IH in E; lia.
Qed.

Lemma match_len_loop_inv (mp : Z) (n : nat) (l bm cb cl bm' cb' cl' : Z) :
  match_len_loop cfg sp pos mp n l bm cb cl = (bm', cb', cl') ->
  (cb' = cb /\ cl' = cl) \/ l <= cl' < l + Z.of_nat n.
Proof.
  revert l bm cb cl.
  induction n as [|n IH]; intros l bm cb cl E; cbn [match_len_loop] in E.
  - inversion E; subst. lia.
  - revert E. zcases; intros E; apply IH in E; lia.
Qed.

Lemma backfill_at_cell :
  cell_ok cfg data size pos (backfill_at cfg data size sp pos pos).
Proof.
  unfold backfill_at.
  destruct (lit_lit_loop cfg sp pos size 5 1 0 INFINITE_COST 0)
    as [[ml cb] cl] eqn:E1.
  apply lit_lit_loop_first in E1. destruct E1 as (B1 & M1 & L1).
  destruct (lit_match_loop cfg sp pos (Z.to_nat (ml - 1)) 1 cb cl)
    as [cb2 cl2] eqn:E2.
  apply lit_match_loop_inv in E2.
  pose proof (match_valid data cfg pos size 0 Hpos) as MV.
  destruct (match_ cfg data pos size 0) as [mlm mp].
  destruct MV as [M0 MV].
  destruct (match_len_loop cfg sp pos mp (Z.to_nat (mlm + 1 - min_mlen))
              min_mlen INFINITE_COST INFINITE_COST (mlen (sp pos)))
    as [[bm cmb] cml] eqn:E3.
  apply match_len_loop_inv in E3. unfold min_mlen in E3.
  unfold set_st. rewrite Z.eqb_refl.
  unfold cell_ok; cbn [lbits llen mbits mlen mpos].
  split; [lia|]. split; [lia|].
  intros Hfin. destruct E3 as [[E3 _] | E3]; [lia|].
  destruct (MV ltac:(lia)) as (V1 & V2 & V3 & V4 & V5 & V6).
  unfold match_at. repeat split; try lia.
  intros k Hk. apply V6. lia.
Qed.

Lemma backfill_at_other (p : Z) :
  p <> pos -> backfill_at cfg data size sp pos p = sp p.
Proof.
  intros Hne. unfold backfill_at.
  destruct (lit_lit_loop cfg sp pos size 5 1 0 INFINITE_COST 0) as [[ml cb] cl].
  destruct (lit_match_loop cfg sp pos (Z.to_nat (ml - 1)) 1 cb cl) as [cb2 cl2].
  destruct (match_ cfg data pos size 0) as [mlm mp].
  destruct (match_len_loop cfg sp pos mp (Z.to_nat (mlm + 1 - min_mlen))
              min_mlen INFINITE_COST INFINITE_COST (mlen (sp pos)))
    as [[bm cmb] cml].
  unfold set_st. destruct (Z.eqb_spec p pos); [contradiction | reflexivity].
Qed.
End At.

Lemma backfill_at_ok (sp : table) (pos : Z) :
  0 <= pos < size -> table_ok cfg data size sp (pos + 1) ->
  table_ok cfg data size (backfill_at cfg data size sp pos) pos.
Proof.
  intros Hp T.
  assert (Hn : forall p, pos < p <= size -> after_ok size p (sp p)).
  { intros p Hr. apply (table_after sp (pos + 1)); [assumption | lia]. }
  destruct T as (T1 & T2 & T3). split; [|split].
  - intros p Hr. destruct (Z.eq_dec p pos) as [->|Hne].
    + apply backfill_at_cell; assumption.
    + rewrite backfill_at_other by assumption. apply T1. lia.
  - rewrite backfill_at_other by lia. assumption.
  - rewrite backfill_at_other by lia. assumption.
Qed.

Lemma backfill_loop_ok (n : nat) (pos : Z) (sp : table) :
  Z.of_nat n = pos + 1 -> pos < size -> table_ok cfg data size sp (pos + 1) ->
  table_ok cfg data size (backfill_loop cfg data size n pos sp) 0.
Proof.
  revert pos sp. induction n as [|n IH]; intros pos sp Hn Hp T;
    cbn [backfill_loop].
  - replace 0 with (pos + 1) by lia. exact T.
  - apply IH; [lia | lia |].
    replace (pos - 1 + 1) with pos by lia.
    apply backfill_at_ok; [lia | exact T].
Qed.

(** After [lzop_backfill] every cell of a non-empty input is sound. *)
Lemma lzop_backfill_ok :
  0 < size ->
  table_ok cfg data size (sp (lzop_backfill cfg (lzop_init data size))) 0.
Proof.
  intros Hs. unfold lzop_backfill, lzop_init. cbn [lz8s.size lz8s.sp lz8s.data].
  destruct (Z.eqb_spec size 0); [lia|]. cbn [lz8s.sp].
  apply backfill_loop_ok; [lia | lia |].
  replace (size - 1 + 1) with size by lia.
  split; [intros; lia|].
  unfold set_st. rewrite Z.eqb_refl. cbn. split; reflexivity.
Qed.
End Table.

(** ** Slices and length fields *)

Lemma slice_length (data : list Z) (pos : Z) (n : nat) :
  length (slice data pos n) = n.
Proof. revert pos. induction n; intros; simpl; auto. Qed.

Lemma slice_app (data : list Z) (pos : Z) (n m : nat) :
  slice data pos (n + m) = slice data pos n ++ slice data (pos + Z.of_nat n) m.
Proof.
  revert pos. induction n as [|n IH]; intros pos.
  - simpl. f_equal. lia.
  - cbn [slice Nat.add app]. rewrite IH. do 3 f_equal. lia.
Qed.

Lemma slice_skipn (data : list Z) (k : nat) :
  slice data (Z.of_nat k) (length data - k) = skipn k data.
Proof.
  remember (length data - k)%nat as n eqn:En. revert k En.
  induction n as [|n IH]; intros k En.
  - simpl. symmetry. apply skipn_all2. lia.
  - cbn [slice]. replace (Z.of_nat k + 1) with (Z.of_nat (S k)) by lia.
    rewrite IH by lia. unfold at_. rewrite Nat2Z.id.
    assert (Hk : (k < length data)%nat) by lia.
    clear - Hk. revert k Hk. induction data as [|x xs IHd]; intros k Hk.
    + simpl in Hk. lia.
    + destruct k; [reflexivity|]. simpl in *. apply IHd. lia.
Qed.

Lemma slice_all (data : list Z) : slice data 0 (length data) = data.
Proof.
  pose proof (slice_skipn data 0) as H. simpl in H.
  rewrite Nat.sub_0_r in H. exact H.
Qed.

Lemma at_byte (data : list Z) (i : Z) :
  Forall is_byte data -> is_byte (at_ data i).
Proof.
  intros H. unfold at_.
  destruct (nth_in_or_default (Z.to_nat i) data 0) as [Hin | ->].
  - rewrite Forall_forall in H. apply H, Hin.
  - unfold is_byte. lia.
Qed.

Lemma land_byte (x : Z) : is_byte x -> Z.land x 255 = x.
Proof. intros H. rewrite land_255. apply Z.mod_small. exact H. Qed.

(** The two forms of the length field in arithmetic terms. *)
Lemma len_field_cases (mx x : Z) :
  0 <= x ->
  (((mx <= 255 \/ x < 128) /\ len_field mx x = [x]) \/
   (255 < mx /\ 128 <= x /\ len_field mx x = [128 + x mod 128; x / 128 - 1])).
Proof.
  intros Hx. unfold len_field. zcases; try (left; split; [lia | reflexivity]).
  right. split; [lia|]. split; [lia|].
  rewrite land_127, shiftr_7, lor_128_small.
  - rewrite Z.mod_mod by lia. reflexivity.
  - pose proof (Z.mod_pos_bound x 128). lia.
Qed.

(** ** The emitter writes the wire format *)

Lemma add_byte_buf (b b' : bf) (x : Z) :
  add_byte b x = Some b' -> buf b' = buf b ++ [Z.land x 255].
Proof.
  unfold add_byte. destruct (len b <? BUF_SIZE); [|discriminate].
  intros E. inversion E. reflexivity.
Qed.

Lemma add_byte_fits (b b' : bf) (x : Z) :
  add_byte b x = Some b' -> len b' <= BUF_SIZE.
Proof.
  unfold add_byte, len. destruct (Z.ltb_spec (Z.of_nat (length (buf b))) BUF_SIZE);
    [|discriminate].
  intros E. inversion E. cbn [buf]. rewrite length_app. simpl. lia.
Qed.

Lemma add_len_buf (b b' : bf) (mx x : Z) :
  0 <= x <= 32895 -> (mx <= 255 -> x <= 255) ->
  add_len b mx x = Some b' -> buf b' = buf b ++ len_field mx x.
Proof.
  intros Hx Hm. unfold add_len.
  destruct (len_field_cases mx x ltac:(lia)) as [[C ->] | (C1 & C2 & ->)].
  - replace ((x >? 127) && (mx >? 255)) with false.
    + intros E. apply add_byte_buf in E.
      assert (Hb : is_byte x) by (unfold is_byte; lia).
      rewrite E, !(land_byte x Hb). reflexivity.
    + symmetry. apply andb_false_iff. zbool.
      destruct C; [right | left]; apply Z.ltb_ge; lia.
  - replace ((x >? 127) && (mx >? 255)) with true.
    + destruct (add_byte b (Z.land (Z.lor 128 x) 255)) as [b1|] eqn:E1; [|discriminate].
      intros E2. apply add_byte_buf in E1, E2. rewrite E2, E1, <- app_assoc.
      rewrite lor_128, shiftr_7. cbn [app]. do 2 f_equal.
      * apply land_byte. unfold is_byte. pose proof (Z.mod_pos_bound x 128). lia.
      * f_equal. apply land_byte. unfold is_byte. Z.div_mod_to_equations. lia.
    + symmetry. apply andb_true_iff. zbool. split; apply Z.ltb_lt; lia.
Qed.

Lemma code_match_buf (cfg : Cfg) (b b' : bf) (ln off : Z) :
  0 <= ln <= 32895 -> (max_mlen cfg <= 255 -> ln <= 255) ->
  0 <= off < 65536 ->
  code_match cfg b ln off = Some b' ->
  buf b' = buf b ++ wire_block cfg (Mat ln off).
Proof.
  intros Hl Hm Ho. unfold code_match.
  destruct (add_len b (max_mlen cfg) ln) as [b1|] eqn:E1; [|discriminate].
  apply add_len_buf in E1; [|assumption..].
  cbn [wire_block]. unfold offset_field.
  destruct (negb (ln =? 0) || zero_offset cfg).
  - destruct (Z.eqb_spec (bits_moff cfg) 0) as [E0|E0]; cbn [negb].
    + destruct (Z.gtb_spec (bits_moff cfg) 8); [lia|].
      intros E. inversion E; subst. rewrite E1. list_eq.
    + destruct (add_byte b1 (Z.land off 255)) as [b2|] eqn:E2; [|discriminate].
      apply add_byte_buf in E2.
      rewrite (land_byte (Z.land off 255)) in E2
        by (rewrite land_255; apply Z.mod_pos_bound; lia).
      destruct (Z.gtb_spec (bits_moff cfg) 8).
      * intros E3. apply add_byte_buf in E3.
        rewrite land_byte in E3
          by (rewrite shiftr_8; unfold is_byte; Z.div_mod_to_equations; lia).
        rewrite E3, E2, E1. list_eq.
      * intros E. inversion E; subst. rewrite E2, E1. list_eq.
  - intros E. inversion E; subst. rewrite E1. list_eq.
Qed.

(** ** The emitter walk *)

Section Walk.
Variable cfg : Cfg.
Variable data : list Z.
Variable size : Z.
Hypothesis Hv : valid_cfg cfg.
Hypothesis Hbytes : Forall is_byte data.
Hypothesis Hsize : size <= MAX_INPUT.

Lemma enc_off_range (pos mp : Z) : 0 <= enc_off cfg pos mp < 65536.
Proof.
  unfold enc_off. destruct (offset_rel cfg <? 0);
    rewrite land_65535; apply Z.mod_pos_bound; lia.
Qed.

(** Positions inside a literal block: one byte each. *)
Lemma skip_literal (k m : nat) (b : bf) (lz : lzop) (p lpos : Z) r :
  lz8s.data lz = data -> in_literal lz = true ->
  p + Z.of_nat k - 1 <= lpos ->
  encode_loop cfg (k + m) b lz p lpos = Some r ->
  exists b1, buf b1 = buf b ++ slice data p k /\
             encode_loop cfg m b1 lz (p + Z.of_nat k) lpos = Some r.
Proof.
  intros Hd Hl. revert b p.
  induction k as [|k IH]; intros b p Hp E.
  - exists b. rewrite app_nil_r. split; [reflexivity|].
    replace (p + Z.of_nat 0) with p by lia. exact E.
  - cbn [Nat.add encode_loop] in E. unfold lzop_encode in E.
    destruct (Z.leb_spec p lpos); [|lia]. rewrite Hl, Hd in E.
    destruct (add_byte b (at_ data p)) as [b0|] eqn:E0; [|discriminate].
    apply add_byte_buf in E0. rewrite land_byte in E0 by (apply at_byte, Hbytes).
    destruct (IH b0 (p + 1) ltac:(lia) E) as (b1 & B1 & E1).
    exists b1. split.
    + rewrite B1, E0. cbn [slice]. list_eq.
    + replace (p + Z.of_nat (S k)) with (p + 1 + Z.of_nat k) by lia. exact E1.
Qed.

(** Positions inside a match block: nothing is written. *)
Lemma skip_match (k m : nat) (b : bf) (lz : lzop) (p lpos : Z) :
  in_literal lz = false ->
  p + Z.of_nat k - 1 <= lpos ->
  encode_loop cfg (k + m) b lz p lpos =
  encode_loop cfg m b lz (p + Z.of_nat k) lpos.
Proof.
  intros Hl. revert p.
  induction k as [|k IH]; intros p Hp.
  - replace (p + Z.of_nat 0) with p by lia. reflexivity.
  - cbn [Nat.add encode_loop]. unfold lzop_encode.
    destruct (Z.leb_spec p lpos); [|lia]. rewrite Hl.
    rewrite IH by lia. f_equal. lia.
Qed.

(** The choice made at a block boundary, read off a sound table. *)
Lemma literal_choice (c : lzop_st) (pos : Z) :
  cell_ok cfg data size pos c ->
  let ln := if llen c >? max_llen cfg then max_llen cfg else llen c in
  1 <= ln <= max_llen cfg /\ pos + ln <= size.
Proof.
  intros (L & _ & _). destruct Hv. cbv zeta. zcases; lia.
Qed.

Lemma match_choice (c : lzop_st) (pos extra : Z) :
  0 <= pos -> cell_ok cfg data size pos c ->
  extra <= 24 -> mbits c < lbits c + extra ->
  match_at data cfg size pos (mlen c) (mpos c).
Proof.
  intros Hp (_ & B & M) He Hlt. apply M.
  unfold MAX_INPUT in Hsize.
  assert (INFINITE_COST = 8388607) by reflexivity. lia.
Qed.
End Walk.

Section WalkMain.
Variable cfg : Cfg.
Variable data : list Z.
Variable size : Z.
Hypothesis Hv : valid_cfg cfg.
Hypothesis Hbytes : Forall is_byte data.
Hypothesis Hsize : size <= MAX_INPUT.

(** A literal block: header, first byte, then the skipped positions. *)
Lemma literal_block (n : nat) (b : bf) (lz : lzop) (pos ln : Z) r :
  lz8s.data lz = data -> in_literal lz = true ->
  1 <= ln <= max_llen cfg -> pos + ln + Z.of_nat n = size ->
  (do b2 <- add_len b (max_llen cfg) ln;
   do b3 <- add_byte b2 (at_ data pos);
   encode_loop cfg (Z.to_nat (ln - 1) + n) b3 lz (pos + 1) (pos + ln - 1)) = Some r ->
  exists b4,
    buf b4 = buf b ++ wire_block cfg (Lit (slice data pos (Z.to_nat ln))) /\
    encode_loop cfg n b4 lz (pos + ln) (pos + ln - 1) = Some r.
Proof.
  intros Hd Hl Hln Hn E. destruct Hv as [_ Hll _ _].
  destruct (add_len b (max_llen cfg) ln) as [b2|] eqn:E2; [|discriminate].
  destruct (add_byte b2 (at_ data pos)) as [b3|] eqn:E3; [|discriminate].
  apply add_len_buf in E2; [|lia|lia].
  apply add_byte_buf in E3. rewrite land_byte in E3 by (apply at_byte, Hbytes).
  apply (skip_literal cfg data Hbytes) in E; [|assumption|assumption|lia].
  destruct E as (b4 & B4 & E4). exists b4. split.
  - rewrite B4, E3, E2. cbn [wire_block]. rewrite slice_length.
    rewrite Z2Nat.id by lia.
    replace (Z.to_nat ln) with (S (Z.to_nat (ln - 1))) by lia.
    cbn [slice]. list_eq.
  - replace (pos + ln) with (pos + 1 + Z.of_nat (Z.to_nat (ln - 1))) by lia.
    replace (pos + 1 + Z.of_nat (Z.to_nat (ln - 1)) - 1) with (pos + ln - 1) by lia.
    exact E4.
Qed.

Lemma walk_parse (N n : nat) :
  (n <= N)%nat ->
  forall (pos : Z) (b : bf) (lz : lzop) r,
    lz8s.data lz = data -> table_ok cfg data size (sp lz) 0 ->
    0 <= pos -> pos + Z.of_nat n = size ->
    encode_loop cfg n b lz pos (pos - 1) = Some r ->
    exists bl, parse cfg data size pos (in_literal lz) bl /\
               buf (fst (fst r)) = buf b ++ wire cfg bl.
Proof.
  revert n. induction N as [|N IH]; intros n Hn pos b lz r Hd T Hp Hsz E.
  - replace n with O in * by lia. cbn in E. inversion E; subst; cbn.
    exists []. split; [constructor; lia | cbn; list_eq].
  - destruct n as [|n].
    { cbn in E. inversion E; subst; cbn.
      exists []. split; [constructor; lia | cbn; list_eq]. }
    cbn [encode_loop] in E. unfold lzop_encode in E.
    destruct (Z.leb_spec pos (pos - 1)); [lia|].
    destruct T as (T1 & T2 & T3).
    pose proof (T1 pos ltac:(lia)) as C.
    pose proof (zero_match_cost_bound cfg Hv) as Zc.
    destruct (Z.leb_spec
                (lbits (sp lz pos)
                 + (if in_literal lz then zero_match_cost cfg else 0))
                (mbits (sp lz pos))) as [Hlit|Hmat].
    + (* LITERAL *)
      pose proof (literal_choice cfg data size Hv (sp lz pos) pos C) as [L1 L2].
      cbv zeta in L1, L2.
      set (ln := if llen (sp lz pos) >? max_llen cfg
                 then max_llen cfg else llen (sp lz pos)) in *.
      rewrite Hd in E.
      assert (Hsplit : n = (Z.to_nat (ln - 1) + Z.to_nat (size - pos - ln))%nat) by lia.
      destruct (in_literal lz) eqn:Hil.
      * destruct (code_match cfg b 0 0) as [b1|] eqn:E1; [|discriminate].
        apply code_match_buf in E1; [|destruct Hv; lia..].
        destruct (add_len b1 (max_llen cfg) ln) as [b2|] eqn:E2; [|discriminate].
        destruct (add_byte b2 (at_ data pos)) as [b3|] eqn:E3; [|discriminate].
        rewrite Hsplit in E.
        replace (pos + 1 - 1) with pos in E by lia.
        destruct (literal_block (Z.to_nat (size - pos - ln)) b1
                    (set_in_literal lz true) pos ln r) as (b4 & B4 & E4);
          [assumption | reflexivity | lia | lia | | ].
        { rewrite E2, E3. exact E. }
        apply IH in E4; [|lia|assumption|split; [exact T1 | split; assumption]|lia|lia].
        destruct E4 as (bl & P & B). cbn [in_literal set_in_literal] in P.
        exists (Mat 0 0 :: Lit (slice data pos (Z.to_nat ln)) :: bl). split.
        -- apply parse_lit_split; assumption || lia.
        -- rewrite B, B4, E1. unfold wire. cbn [flat_map]. list_eq.
      * rewrite Hsplit in E.
        destruct (literal_block (Z.to_nat (size - pos - ln)) b
                    (set_in_literal lz true) pos ln r) as (b4 & B4 & E4);
          [assumption | reflexivity | lia | lia | | ].
        { destruct (add_len b (max_llen cfg) ln) as [b2|]; [|discriminate].
          destruct (add_byte b2 (at_ data pos)) as [b3|]; [|discriminate].
          exact E. }
        apply IH in E4; [|lia|assumption|split; [exact T1 | split; assumption]|lia|lia].
        destruct E4 as (bl & P & B). cbn [in_literal set_in_literal] in P.
        exists (Lit (slice data pos (Z.to_nat ln)) :: bl). split.
        -- apply parse_lit; assumption || lia.
        -- rewrite B, B4. unfold wire. cbn [flat_map]. list_eq.
    + (* MATCH *)
      assert (M : match_at data cfg size pos (mlen (sp lz pos)) (mpos (sp lz pos))).
      { apply (match_choice cfg data size Hsize (sp lz pos) pos
                 (if in_literal lz then zero_match_cost cfg else 0));
          [lia | assumption | destruct (in_literal lz); lia | lia]. }
      pose proof M as (M1 & M2 & M3 & M4 & M5 & M6).
      set (ml := mlen (sp lz pos)) in *. set (mp := mpos (sp lz pos)) in *.
      fold (enc_off cfg pos mp) in E.
      assert (Hsplit : n = (Z.to_nat (ml - 1) + Z.to_nat (size - pos - ml))%nat) by lia.
      pose proof (enc_off_range cfg pos mp) as Ho.
      assert (Hcm : forall b0 b1, code_match cfg b0 ml (enc_off cfg pos mp) = Some b1 ->
                buf b1 = buf b0 ++ wire_block cfg (Mat ml (enc_off cfg pos mp))).
      { intros b0 b1 E1. apply code_match_buf in E1; [assumption|destruct Hv; lia..]. }
      destruct (in_literal lz) eqn:Hil; cbn [negb] in E.
      * destruct (code_match cfg b ml (enc_off cfg pos mp)) as [b1|] eqn:E1; [|discriminate].
        apply Hcm in E1. rewrite Hsplit in E.
        rewrite skip_match in E; [|reflexivity|lia].
        replace (pos + 1 + Z.of_nat (Z.to_nat (ml - 1))) with (pos + ml) in E by lia.
        apply IH in E; [|lia|assumption|split; [exact T1 | split; assumption]|lia|lia].
        destruct E as (bl & P & B). cbn [in_literal set_in_literal] in P.
        exists (Mat ml (enc_off cfg pos mp) :: bl). split.
        -- apply parse_mat; assumption.
        -- rewrite B, E1. unfold wire. cbn [flat_map]. list_eq.
      * destruct (add_byte b 0) as [b0|] eqn:E0; [|discriminate].
        apply add_byte_buf in E0. change (Z.land 0 255) with 0 in E0.
        destruct (code_match cfg b0 ml (enc_off cfg pos mp)) as [b1|] eqn:E1; [|discriminate].
        apply Hcm in E1. rewrite Hsplit in E.
        rewrite skip_match in E; [|reflexivity|lia].
        replace (pos + 1 + Z.of_nat (Z.to_nat (ml - 1))) with (pos + ml) in E by lia.
        apply IH in E; [|lia|assumption|split; [exact T1 | split; assumption]|lia|lia].
        destruct E as (bl & P & B). cbn [in_literal set_in_literal] in P.
        exists (Lit [] :: Mat ml (enc_off cfg pos mp) :: bl). split.
        -- apply parse_mat_split; assumption.
        -- rewrite B, E1, E0. unfold wire. cbn [flat_map wire_block length].
           replace (len_field (max_llen cfg) (Z.of_nat 0)) with [0].
           ++ list_eq.
           ++ unfold len_field. change (Z.of_nat 0) with 0.
              destruct (max_llen cfg <=? 255); reflexivity.
Qed.
End WalkMain.

(** ** The decoder on well-formed blocks *)

(** Reading back a length field (both forms). *)
Lemma get_len_field (mx x : Z) (rest o : list Z) (e : list string) :
  0 <= x <= 32895 -> (mx <= 255 -> x <= 255) ->
  get_len mx (mkio (len_field mx x ++ rest) o e) = (x, mkio rest o e).
Proof.
  intros Hx Hm. unfold get_len, getchar, mkio. cbn [stdin stdout stderr].
  destruct (len_field_cases mx x ltac:(lia)) as [[C ->] | (C1 & C2 & ->)];
    cbn [app].
  - destruct (Z.eqb_spec x EOF) as [E|_]; [unfold EOF in E; lia|].
    replace ((mx <? 256) || (x <? 128)) with true; [reflexivity|].
    symmetry. apply orb_true_iff.
    destruct C; [left | right]; apply Z.ltb_lt; lia.
  - pose proof (Z.mod_pos_bound x 128 ltac:(lia)) as Hr.
    destruct (Z.eqb_spec (128 + x mod 128) EOF) as [E|_]; [unfold EOF in E; lia|].
    replace ((mx <? 256) || (128 + x mod 128 <? 128)) with false.
    + cbn [stdin stdout stderr]. rewrite shiftl_7. f_equal. Z.div_mod_to_equations. lia.
    + symmetry. apply orb_false_iff. split; apply Z.ltb_ge; lia.
Qed.

Lemma get_len_eof (mx : Z) (o : list Z) (e : list string) :
  get_len mx (mkio [] o e) = (-1, mkio [] o e).
Proof. reflexivity. Qed.

Section Decoder.
Variable cfg : Cfg.
Variable data : list Z.
Variable size : Z.
Hypothesis Hv : valid_cfg cfg.
Hypothesis Hx : exor_offset cfg = false.
Hypothesis Hbytes : Forall is_byte data.
Hypothesis Hsize : size <= MAX_INPUT.

Local Notation "'mask'" := (mask_of cfg).

Lemma mask_cases :
  (bits_moff cfg <= 8 /\ mask = 255) \/ (8 < bits_moff cfg /\ mask = 65535).
Proof. unfold mask_of. zcases; [right | left]; split; lia || reflexivity. Qed.

Lemma land_mask (x : Z) : Z.land x mask = x mod (mask + 1).
Proof.
  destruct mask_cases as [[_ ->] | [_ ->]]; [apply land_255 | apply land_65535].
Qed.

Lemma to_int_pos (pos : Z) : 0 <= pos <= size -> to_int pos = pos.
Proof.
  intros H. unfold to_int, MAX_INPUT in *. destruct (Z.ltb_spec pos 2147483648); lia.
Qed.

(** Producing the byte [data[pos]] keeps the decoder in step. *)
Lemma emit_synced (pos : Z) (b : Z -> Z) (input : list Z) :
  0 <= pos < size -> window_ok cfg data pos b ->
  synced cfg data size (pos + 1)
    {| dio := putchar (mkio input (slice data 0 (Z.to_nat pos)) []) (at_ data pos);
       dbuf := store b (Z.land pos mask) (at_ data pos);
       dpos := incr pos |} input.
Proof.
  intros Hp W. unfold synced. cbn [dio dbuf dpos].
  split; [lia|]. split; [|split].
  - unfold incr, MAX_INPUT in *. apply Z.mod_small. lia.
  - unfold putchar, mkio. cbn [stdin stdout stderr]. f_equal.
    rewrite land_byte by (apply at_byte, Hbytes).
    replace (Z.to_nat (pos + 1)) with (Z.to_nat pos + 1)%nat by lia.
    rewrite slice_app. cbn [slice]. do 3 f_equal. lia.
  - intros j Hj Hd. unfold store.
    destruct (Z.eqb_spec (Z.land j mask) (Z.land pos mask)) as [E|E].
    + destruct (Z.eq_dec j pos) as [->|Hne]; [reflexivity|].
      exfalso. rewrite !land_mask in E.
      destruct mask_cases as [[_ Em] | [_ Em]]; rewrite Em in *;
        Z.div_mod_to_equations; lia.
    + assert (j <> pos) by (intros ->; apply E; reflexivity).
      apply W; lia.
Qed.

Lemma copy_literal_ok (n : nat) (pos : Z) (st : dstate) (rest : list Z) :
  pos + Z.of_nat n <= size ->
  synced cfg data size pos st (slice data pos n ++ rest) ->
  exists st', copy_literal mask n st = Next st' /\
              synced cfg data size (pos + Z.of_nat n) st' rest.
Proof.
  revert pos st. induction n as [|n IH]; intros pos st Hn S.
  - exists st. split; [reflexivity|].
    replace (pos + Z.of_nat 0) with pos by lia. exact S.
  - destruct S as (Hp & Epos & Eio & W).
    cbn [copy_literal]. rewrite Eio. cbn [slice app].
    unfold getchar at 1. cbn [mkio stdin stdout stderr].
    pose proof (at_byte data pos Hbytes) as Hb. unfold is_byte in Hb.
    destruct (Z.eqb_spec (at_ data pos) EOF) as [E|_]; [unfold EOF in E; lia|].
    rewrite Epos.
    destruct (IH (pos + 1)
                {| dio := putchar (mkio (slice data (pos + 1) n ++ rest)
                                        (slice data 0 (Z.to_nat pos)) [])
                                  (at_ data pos);
                   dbuf := store (dbuf st) (Z.land pos mask) (at_ data pos);
                   dpos := incr pos |} ltac:(lia)) as (st' & E' & S').
    { apply emit_synced; [lia | exact W]. }
    exists st'. split; [exact E'|].
    replace (pos + Z.of_nat (S n)) with (pos + 1 + Z.of_nat n) by lia. exact S'.
Qed.

(** Copying a match: every byte comes from the window, also when the
    source overlaps the bytes being written. *)
Lemma copy_match_ok (n : nat) (pos mp off : Z) (st : dstate) (rest : list Z) :
  pos + Z.of_nat n <= size ->
  1 <= mp <= pos -> mp <= mask + 1 ->
  Z.land off mask = Z.land (pos - mp) mask ->
  (forall k, 0 <= k < Z.of_nat n -> at_ data (pos + k) = at_ data (pos - mp + k)) ->
  synced cfg data size pos st rest ->
  synced cfg data size (pos + Z.of_nat n) (copy_match mask n off st) rest.
Proof.
  revert pos off st. induction n as [|n IH]; intros pos off st Hn Hmp Hm Eo Hd S.
  - replace (pos + Z.of_nat 0) with pos by lia. exact S.
  - destruct S as (Hp & Epos & Eio & W).
    cbn [copy_match]. rewrite Eo, Epos, Eio.
    rewrite (W (pos - mp)) by lia.
    replace (at_ data (pos - mp)) with (at_ data pos)
      by (rewrite <- (Z.add_0_r pos) at 1; rewrite Hd by lia; f_equal; lia).
    replace (pos + Z.of_nat (S n)) with (pos + 1 + Z.of_nat n) by lia.
    apply (IH (pos + 1)); [lia | lia | lia | | | ].
    + rewrite !land_mask in *.
      destruct mask_cases as [[_ Em] | [_ Em]]; rewrite Em in *;
        Z.div_mod_to_equations; lia.
    + intros k Hk. replace (pos + 1 + k) with (pos + (k + 1)) by lia.
      rewrite Hd by lia. f_equal. lia.
    + apply emit_synced; [lia | exact W].
Qed.
End Decoder.

Section Blocks.
Variable cfg : Cfg.
Variable data : list Z.
Variable size : Z.
Hypothesis Hv : valid_cfg cfg.
Hypothesis Hx : exor_offset cfg = false.
Hypothesis Hbytes : Forall is_byte data.
Hypothesis Hsize : size <= MAX_INPUT.

Local Notation "'mask'" := (mask_of cfg).

Lemma read_offset_ok (st : dstate) (off : Z) (rest o : list Z) :
  0 <= off < 65536 ->
  dio st = mkio (offset_field cfg off ++ rest) o [] ->
  read_offset cfg st = inr (read_value cfg off, mkio rest o []).
Proof.
  intros Ho Eio. destruct Hv as [_ _ Hb _].
  unfold read_offset, read_value, offset_field in *. rewrite Eio.
  assert (B1 : 0 <= Z.land off 255 < 256)
    by (rewrite land_255; apply Z.mod_pos_bound; lia).
  assert (B2 : 0 <= Z.shiftr off 8 < 256)
    by (rewrite shiftr_8; Z.div_mod_to_equations; lia).
  destruct (Z.eqb_spec (bits_moff cfg) 0) as [E0|E0].
  - destruct (Z.gtb_spec (bits_moff cfg) 0); [lia|].
    destruct (Z.gtb_spec (bits_moff cfg) 8); [lia|]. reflexivity.
  - destruct (Z.gtb_spec (bits_moff cfg) 0); [|lia].
    unfold getchar at 1. cbn [mkio stdin stdout stderr app].
    destruct (Z.eqb_spec (Z.land off 255) EOF) as [E|_]; [unfold EOF in E; lia|].
    destruct (Z.gtb_spec (bits_moff cfg) 8).
    + destruct (Z.leb_spec (bits_moff cfg) 8); [lia|].
      unfold getchar. cbn [mkio stdin stdout stderr app].
      destruct (Z.eqb_spec (Z.shiftr off 8) EOF) as [E|_]; [unfold EOF in E; lia|].
      rewrite shiftl_8, shiftr_8, land_255. do 2 f_equal.
      Z.div_mod_to_equations. lia.
    + destruct (Z.leb_spec (bits_moff cfg) 8); [|lia].
      rewrite land_255. reflexivity.
Qed.

(** The decoder's source index is [pos - mp] in the window. *)
Lemma offset_decoded (pos mp : Z) :
  1 <= mp <= pos -> mp <= max_off cfg ->
  let v := read_value cfg (enc_off cfg pos mp) in
  Z.land (if offset_rel cfg <? 0 then pos - v + mask
          else v + mask + 1 - offset_rel cfg) mask
  = Z.land (pos - mp) mask.
Proof.
  intros Hmp Hmo. cbv zeta. destruct Hv as [_ _ Hb Hr].
  rewrite !(land_mask cfg).
  unfold read_value, enc_off. rewrite !land_65535.
  destruct (Z.ltb_spec (offset_rel cfg) 0) as [Hrel|Hrel].
  - destruct (Z.eqb_spec (bits_moff cfg) 0) as [E0|E0].
    + assert (max_off cfg = 1) by (unfold max_off; rewrite E0; reflexivity).
      destruct (mask_cases cfg) as [[_ Em] | [? _]]; [|lia].
      rewrite Em.
      Z.div_mod_to_equations. lia.
    + destruct (Z.leb_spec (bits_moff cfg) 8).
      * pose proof (max_off_le cfg 8 ltac:(lia)) as Hm8.
        change (2 ^ 8) with 256 in Hm8.
        destruct (mask_cases cfg) as [[_ Em] | [? _]]; [|lia].
        rewrite Em.
        Z.div_mod_to_equations. lia.
      * pose proof (max_off_le cfg 16 ltac:(lia)) as Hm16.
        change (2 ^ 16) with 65536 in Hm16.
        destruct (mask_cases cfg) as [[? _] | [_ Em]]; [lia|].
        rewrite Em.
        Z.div_mod_to_equations. lia.
  - destruct Hr as [?|[[E8 _]|[E16 _]]]; [lia| |].
    + rewrite E8. cbn [Z.eqb Z.leb Z.compare Pos.compare Pos.compare_cont].
      destruct (mask_cases cfg) as [[_ Em] | [? _]]; [|lia].
      rewrite Em.
      Z.div_mod_to_equations. lia.
    + rewrite E16. cbn [Z.eqb Z.leb Z.compare Pos.compare Pos.compare_cont].
      destruct (mask_cases cfg) as [[? _] | [_ Em]]; [lia|].
      rewrite Em.
      Z.div_mod_to_equations. lia.
Qed.
End Blocks.

Section Stream.
Variable cfg : Cfg.
Variable data : list Z.
Variable size : Z.
Hypothesis Hv : valid_cfg cfg.
Hypothesis Hx : exor_offset cfg = false.
Hypothesis Hbytes : Forall is_byte data.
Hypothesis Hsize : size <= MAX_INPUT.

Local Notation "'mask'" := (mask_of cfg).
Local Notation "'synced_'" := (synced cfg data size).
Local Notation "'step_'" := (step cfg data size).
Local Notation "'run_'" := (run cfg data size).

Lemma max_off_mask : max_off cfg <= mask + 1.
Proof.
  destruct Hv as [_ _ Hb _].
  destruct (mask_cases cfg) as [[H ->] | [H ->]].
  - apply (max_off_le cfg 8). lia.
  - apply (max_off_le cfg 16). lia.
Qed.

Lemma decode_literal_step (pos pos' : Z) (b : block) (st : dstate) (rest : list Z) :
  step_ pos false b pos' ->
  synced_ pos st (wire_block cfg b ++ rest) ->
  exists st', decode_literal cfg st = Next st' /\ synced_ pos' st' rest.
Proof.
  intros Hs S. destruct b as [bytes | ml off]; cbn [step] in Hs.
  2: { destruct Hs as [Hf _]. discriminate. }
  destruct Hs as (_ & Hp & ln & Hl & Hle & -> & ->).
  destruct S as (Hp' & Epos & Eio & W).
  unfold decode_literal. rewrite Eio. cbn [wire_block].
  rewrite slice_length, Z2Nat.id, <- app_assoc by lia.
  rewrite get_len_field by (destruct Hv; lia).
  destruct (Z.ltb_spec ln 0); [lia|].
  replace (pos + ln) with (pos + Z.of_nat (Z.to_nat ln)) by lia.
  apply (copy_literal_ok cfg data size Hbytes Hsize); [lia|].
  unfold synced. cbn [dio dbuf dpos]. repeat split; try assumption; lia.
Qed.

Lemma decode_match_step (pos pos' : Z) (b : block) (st : dstate) (rest : list Z) :
  step_ pos true b pos' ->
  synced_ pos st (wire_block cfg b ++ rest) ->
  exists st', decode_match cfg st = Next st' /\ synced_ pos' st' rest.
Proof.
  intros Hs S. destruct b as [bytes | ml off]; cbn [step] in Hs.
  1: { destruct Hs as [Hf _]. discriminate. }
  destruct Hs as (_ & Hp & Hs).
  destruct S as (Hp' & Epos & Eio & W).
  unfold decode_match. rewrite Eio. cbn [wire_block]. rewrite <- app_assoc.
  destruct Hs as [(-> & -> & ->) | (mp & M & -> & ->)].
  - rewrite get_len_field by (destruct Hv; lia).
    change (0 <? 0) with false. change (0 =? 0) with true. cbn [negb orb].
    rewrite orb_false_r. cbv iota.
    destruct (zero_offset cfg).
    + rewrite (read_offset_ok cfg Hv _ 0 rest (slice data 0 (Z.to_nat pos)))
        by (lia || reflexivity).
      eexists. split; [reflexivity|]. cbn [copy_match Z.to_nat].
      unfold synced. cbn [dio dbuf dpos]. repeat split; try assumption; lia.
    + eexists. split; [reflexivity|].
      unfold synced. cbn [dio dbuf dpos]. repeat split; try assumption; lia.
  - destruct M as (M1 & M2 & M3 & M4 & M5 & M6).
    rewrite get_len_field by (destruct Hv; lia).
    destruct (Z.ltb_spec ml 0); [lia|].
    destruct (Z.eqb_spec ml 0); [lia|]. cbn [negb orb]. rewrite orb_true_r.
    pose proof (enc_off_range cfg pos mp) as Ho.
    rewrite (read_offset_ok cfg Hv _ (enc_off cfg pos mp) rest
               (slice data 0 (Z.to_nat pos))) by (lia || reflexivity).
    rewrite Hx. cbn [dio dbuf dpos]. rewrite Epos.
    eexists. split; [reflexivity|].
    replace (pos + ml) with (pos + Z.of_nat (Z.to_nat ml)) by lia.
    pose proof max_off_mask as Hmm.
    apply (copy_match_ok cfg data size Hbytes Hsize) with (mp := mp); try lia.
    + apply (offset_decoded cfg Hv); lia.
    + intros k Hk. apply M6. lia.
    + unfold synced. cbn [dio dbuf dpos]. repeat split; try assumption; lia.
Qed.

Lemma decode_loop_S (fuel : nat) (st : dstate) :
  decode_loop cfg (S fuel) st =
  match decode_literal cfg st with
  | Return r s => Some (r, s)
  | Next st => decode_from_match cfg fuel st
  end.
Proof. reflexivity. Qed.

(** Decoding a run of blocks brings the decoder, in step, to its end. *)
Lemma decode_run (pos pos' : Z) (il il' : bool) (bl : list block) :
  run_ pos il bl pos' il' ->
  forall (st : dstate) (rest : list Z) (f : nat),
    synced_ pos st (wire cfg bl ++ rest) ->
    (length bl < f)%nat ->
    exists st' f',
      synced_ pos' st' rest /\ (f <= f' + length bl)%nat /\
      phase cfg il f st = phase cfg il' f' st'.
Proof.
  induction 1 as [pos il | pos il b pos1 bl pos' il' Hs Hr IH];
    intros st rest f S Hf.
  - exists st, f. split; [exact S|]. split; [cbn; lia | reflexivity].
  - unfold wire in S. cbn [flat_map] in S. rewrite <- app_assoc in S.
    fold (wire cfg bl) in S. cbn [length] in Hf.
    destruct il; cbn [negb] in *.
    + destruct (decode_match_step pos pos1 b st _ Hs S) as (st1 & E1 & S1).
      destruct (IH st1 rest f S1 ltac:(lia)) as (st' & f' & S' & F' & P').
      exists st', f'. split; [exact S'|]. split; [cbn [length]; lia|].
      rewrite <- P'. cbn [phase]. unfold decode_from_match. rewrite E1. reflexivity.
    + destruct f as [|f1]; [lia|].
      destruct (decode_literal_step pos pos1 b st _ Hs S) as (st1 & E1 & S1).
      destruct (IH st1 rest f1 S1 ltac:(lia)) as (st' & f' & S' & F' & P').
      exists st', f'. split; [exact S'|]. split; [cbn [length]; lia|].
      rewrite <- P'. cbn [phase]. rewrite decode_loop_S, E1. reflexivity.
Qed.

(** End of file at a length field: [decode] returns the count. *)
Lemma phase_eof (pos : Z) (il : bool) (f : nat) (st : dstate) :
  synced_ pos st [] -> (1 <= f)%nat ->
  phase cfg il f st = Some (pos, mkio [] (slice data 0 (Z.to_nat pos)) []).
Proof.
  intros (Hp & Epos & Eio & _) Hf. destruct il; cbn [phase].
  - unfold decode_from_match, decode_match. rewrite Eio, get_len_eof.
    cbn. rewrite Epos, (to_int_pos size) by assumption. reflexivity.
  - destruct f as [|f]; [lia|]. rewrite decode_loop_S.
    unfold decode_literal. rewrite Eio, get_len_eof.
    cbn. rewrite Epos, (to_int_pos size) by assumption. reflexivity.
Qed.

Lemma wire_length (bl : list block) : (length bl <= length (wire cfg bl))%nat.
Proof.
  induction bl as [|b bl IH]; [cbn; lia|].
  unfold wire in *. cbn [flat_map length]. rewrite length_app.
  assert (1 <= length (wire_block cfg b))%nat; [|lia].
  destruct b as [bytes | ml off]; cbn [wire_block]; rewrite length_app;
    unfold len_field.
  - destruct ((max_llen cfg <=? 255) || (Z.of_nat (length bytes) <? 128)); cbn; lia.
  - destruct ((max_mlen cfg <=? 255) || (ml <? 128)); cbn; lia.
Qed.

(** The encoder's layout is a run of blocks up to the end of the data. *)
Lemma parse_run (pos : Z) (il : bool) (bl : list block) :
  parse cfg data size pos il bl -> exists il', run_ pos il bl size il'.
Proof.
  destruct Hv as [_ Hll _ _].
  induction 1 as [pos il E | pos ln bl Hp Hl Hle P IH | pos ln bl Hp Hl Hle P IH
                 | pos ml mp bl M P IH | pos ml mp bl M P IH].
  - subst. exists il. constructor.
  - destruct IH as [il' R]. exists il'.
    apply run_cons with (pos1 := pos + ln); [|exact R].
    cbn. split; [reflexivity|]. split; [lia|]. exists ln. repeat split; lia.
  - destruct IH as [il' R]. exists il'.
    apply run_cons with (pos1 := pos).
    { cbn. split; [reflexivity|]. split; [lia|]. left. repeat split. }
    apply run_cons with (pos1 := pos + ln); [|exact R].
    cbn. split; [reflexivity|]. split; [lia|]. exists ln. repeat split; lia.
  - destruct IH as [il' R]. exists il'. pose proof M as (M1 & M2 & M3 & M4 & _).
    apply run_cons with (pos1 := pos + ml); [|exact R].
    cbn. split; [reflexivity|]. split; [lia|]. right. exists mp.
    split; [exact M | split; reflexivity].
  - destruct IH as [il' R]. exists il'. pose proof M as (M1 & M2 & M3 & M4 & _).
    apply run_cons with (pos1 := pos).
    { cbn. split; [reflexivity|]. split; [lia|]. exists 0. repeat split; lia. }
    apply run_cons with (pos1 := pos + ml); [|exact R].
    cbn. split; [reflexivity|]. split; [lia|]. right. exists mp.
    split; [exact M | split; reflexivity].
Qed.
End Stream.

(** ** From [compress] to the wire *)

Lemma bytes_ok_spec (l : list Z) : bytes_ok l = true -> Forall is_byte l.
Proof.
  unfold bytes_ok. rewrite forallb_forall, Forall_forall.
  intros H x Hin. specialize (H x Hin).
  apply andb_true_iff in H. destruct H as [H1 H2].
  unfold is_byte. lia.
Qed.

Lemma add_byte_out (b b' : bf) (x : Z) :
  add_byte b x = Some b' -> out b' = out b.
Proof.
  unfold add_byte. destruct (len b <? BUF_SIZE); [|discriminate].
  intros E. inversion E. reflexivity.
Qed.

Lemma add_len_out (b b' : bf) (mx x : Z) :
  add_len b mx x = Some b' -> out b' = out b /\ (len b <= BUF_SIZE -> len b' <= BUF_SIZE).
Proof.
  unfold add_len. destruct ((x >? 127) && (mx >? 255)).
  - destruct (add_byte b (Z.land (Z.lor 128 x) 255)) as [b1|] eqn:E1; [|discriminate].
    intros E2. pose proof (add_byte_fits _ _ _ E2).
    apply add_byte_out in E1, E2. split; [congruence | lia].
  - intros E. pose proof (add_byte_fits _ _ _ E).
    apply add_byte_out in E. split; [assumption | lia].
Qed.

Lemma code_match_out (cfg : Cfg) (b b' : bf) (ln off : Z) :
  code_match cfg b ln off = Some b' ->
  out b' = out b /\ (len b <= BUF_SIZE -> len b' <= BUF_SIZE).
Proof.
  unfold code_match.
  destruct (add_len b (max_mlen cfg) ln) as [b1|] eqn:E1; [|discriminate].
  apply add_len_out in E1. destruct E1 as [O1 F1].
  destruct (negb (ln =? 0) || zero_offset cfg).
  - destruct (negb (bits_moff cfg =? 0)).
    + destruct (add_byte b1 (Z.land off 255)) as [b2|] eqn:E2; [|discriminate].
      pose proof (add_byte_fits _ _ _ E2). apply add_byte_out in E2.
      destruct (bits_moff cfg >? 8).
      * intros E3. pose proof (add_byte_fits _ _ _ E3). apply add_byte_out in E3.
        split; [congruence | lia].
      * intros E. inversion E; subst. split; [congruence | lia].
    + destruct (bits_moff cfg >? 8).
      * intros E3. pose proof (add_byte_fits _ _ _ E3). apply add_byte_out in E3.
        split; [congruence | lia].
      * intros E. inversion E; subst. split; [congruence | exact F1].
  - intros E. inversion E; subst. split; [congruence | exact F1].
Qed.

Lemma lzop_encode_out (cfg : Cfg) (b : bf) (lz : lzop) (pos lpos rel : Z) b' lz' lpos' :
  lzop_encode cfg b lz pos lpos rel = Some (b', lz', lpos') ->
  out b' = out b /\ (len b <= BUF_SIZE -> len b' <= BUF_SIZE).
Proof.
  unfold lzop_encode. destruct (pos <=? lpos).
  - destruct (in_literal lz).
    + destruct (add_byte b (at_ (data lz) pos)) as [b1|] eqn:E1; [|discriminate].
      intros E. inversion E; subst. pose proof (add_byte_fits _ _ _ E1).
      apply add_byte_out in E1. split; [assumption | lia].
    + intros E. inversion E; subst. split; [reflexivity | auto].
  - match goal with |- context [if ?c then _ else _] => destruct c end.
    + destruct (if in_literal lz then code_match cfg b 0 0 else Some b)
        as [b1|] eqn:E1; [|discriminate].
      assert (H1 : out b1 = out b /\ (len b <= BUF_SIZE -> len b1 <= BUF_SIZE)).
      { destruct (in_literal lz); [apply code_match_out in E1; exact E1|].
        inversion E1; subst. split; auto. }
      match goal with |- context [add_len b1 ?m ?l] =>
        destruct (add_len b1 m l) as [b2|] eqn:E2; [|discriminate] end.
      apply add_len_out in E2.
      destruct (add_byte b2 (at_ (data lz) pos)) as [b3|] eqn:E3; [|discriminate].
      intros E. inversion E; subst. pose proof (add_byte_fits _ _ _ E3).
      apply add_byte_out in E3. destruct H1, E2. split; [congruence | lia].
    + destruct (if negb (in_literal lz) then add_byte b 0 else Some b)
        as [b1|] eqn:E1; [|discriminate].
      assert (H1 : out b1 = out b /\ (len b <= BUF_SIZE -> len b1 <= BUF_SIZE)).
      { destruct (negb (in_literal lz)).
        - pose proof (add_byte_fits _ _ _ E1). apply add_byte_out in E1.
          split; [assumption | lia].
        - inversion E1; subst. split; auto. }
      match goal with |- context [code_match cfg b1 ?l ?o] =>
        destruct (code_match cfg b1 l o) as [b2|] eqn:E2; [|discriminate] end.
      apply code_match_out in E2.
      intros E. inversion E; subst. destruct H1, E2. split; [congruence | auto].
Qed.

Lemma encode_loop_out (cfg : Cfg) (n : nat) (b : bf) (lz : lzop) (pos lpos : Z) b' lz' lpos' :
  encode_loop cfg n b lz pos lpos = Some (b', lz', lpos') ->
  out b' = out b /\ (len b <= BUF_SIZE -> len b' <= BUF_SIZE).
Proof.
  revert b lz pos lpos. induction n as [|n IH]; intros b lz pos lpos E.
  - cbn in E. inversion E; subst. split; auto.
  - cbn [encode_loop] in E.
    destruct (lzop_encode cfg b lz pos lpos (offset_rel cfg)) as [[[b1 lz1] lpos1]|] eqn:E1;
      [|discriminate].
    apply lzop_encode_out in E1. apply IH in E. destruct E1, E. split; [congruence | auto].
Qed.

Lemma backfill_data (cfg : Cfg) (d : list Z) (sz : Z) :
  lz8s.data (lzop_backfill cfg (lzop_init d sz)) = d /\
  in_literal (lzop_backfill cfg (lzop_init d sz)) = false.
Proof.
  unfold lzop_backfill, lzop_init. cbn [size].
  destruct (sz =? 0); split; reflexivity.
Qed.

Section Compress.
Variable cfg : Cfg.
Variable data : list Z.
Hypothesis Hv : valid_cfg cfg.
Hypothesis Hbytes : Forall is_byte data.
Hypothesis Hsize : Z.of_nat (length data) <= MAX_INPUT.

Local Notation "'size'" := (Z.of_nat (length data)).

Lemma backfill_table :
  table_ok cfg data size (sp (lzop_backfill cfg (lzop_init data size))) 0.
Proof.
  destruct (Z.eq_dec size 0) as [E|E].
  - unfold lzop_backfill, lzop_init. cbn [lz8s.size]. rewrite E. cbn.
    split; [intros; lia | split; reflexivity].
  - apply lzop_backfill_ok; [assumption | assumption | lia].
Qed.

(** The output of [compress] is the wire form of the emitter's layout,
    and it fits the output buffer. *)
Lemma compress_parse (output : list Z) :
  compress cfg data = Some output ->
  exists bl, parse cfg data size 0 false bl /\ output = wire cfg bl /\
             Z.of_nat (length output) <= BUF_SIZE.
Proof.
  unfold compress.
  set (lz := lzop_backfill cfg (lzop_init data size)).
  destruct (encode_loop cfg (Z.to_nat size) _ lz 0 (-1))
    as [[[b' lz'] lpos']|] eqn:E; [|discriminate].
  intros E'. inversion E'; subst output. clear E'.
  pose proof (encode_loop_out _ _ _ _ _ _ _ _ _ E) as [O F].
  destruct (backfill_data cfg data size) as [D IL]. fold lz in D, IL.
  change (-1) with (0 - 1) in E.
  apply (walk_parse cfg data size Hv Hbytes Hsize (Z.to_nat size) (Z.to_nat size)) in E;
    [|lia|exact D|apply backfill_table|lia|lia].
  destruct E as (bl & P & B). rewrite IL in P. cbn [fst] in B.
  exists bl. split; [exact P|].
  unfold bflush. cbn [out init] in *. rewrite O. cbn [buf app] in *.
  split; [exact B|]. apply F. unfold len, BUF_SIZE. cbn. lia.
Qed.
End Compress.

Lemma synced_start (cfg : Cfg) (data : list Z) (size : Z) (buf0 : Z -> Z)
    (input : list Z) :
  0 <= size ->
  synced cfg data size 0
    {| dio := {| stdin := input; stdout := []; stderr := [] |};
       dbuf := buf0; dpos := 0 |} input.
Proof.
  intros Hs. unfold synced, window_ok. cbn [dio dbuf dpos].
  split; [lia|]. split; [reflexivity|]. split; [reflexivity|]. intros; lia.
Qed.

Lemma firstn_idem {A : Type} (n : nat) (l : list A) :
  firstn n (firstn n l) = firstn n l.
Proof. rewrite firstn_firstn. f_equal. lia. Qed.

Lemma firstn_repeat_more {A : Type} (x : A) (n k : nat) :
  firstn n (repeat x (n + k)) = repeat x n.
Proof. induction n as [|n IH]; [reflexivity|]. cbn. f_equal. exact IH. Qed.

(** ** The layout of the stream *)

Section Layout.
Variable cfg : Cfg.
Variable data : list Z.
Variable size : Z.

Lemma block_len_slice (pos ln : Z) :
  1 <= ln -> block_len (Lit (slice data pos (Z.to_nat ln))) = ln.
Proof. intros H. cbn. rewrite slice_length. lia. Qed.

Lemma parse_layout (pos : Z) (il : bool) (bl : list block) :
  parse cfg data size pos il bl -> layout_ok (negb il) true bl = true.
Proof.
  induction 1 as [pos il E | pos ln bl Hp Hl Hle P IH | pos ln bl Hp Hl Hle P IH
                 | pos ml mp bl M P IH | pos ml mp bl M P IH];
    cbn [layout_ok negb is_lit Bool.eqb andb] in *.
  - reflexivity.
  - rewrite block_len_slice by lia.
    destruct (Z.eqb_spec ln 0); [lia|]. cbn. exact IH.
  - rewrite block_len_slice by lia.
    destruct (Z.eqb_spec ln 0); [lia|]. cbn. exact IH.
  - destruct M as (M1 & _). cbn [block_len].
    destruct (Z.eqb_spec ml 0); [lia|]. cbn. exact IH.
  - destruct M as (M1 & _). cbn [block_len length].
    destruct (Z.eqb_spec ml 0); [lia|]. cbn. exact IH.
Qed.

Lemma parse_total (pos : Z) (il : bool) (bl : list block) :
  parse cfg data size pos il bl -> total_len bl = size - pos.
Proof.
  induction 1 as [pos il E | pos ln bl Hp Hl Hle P IH | pos ln bl Hp Hl Hle P IH
                 | pos ml mp bl M P IH | pos ml mp bl M P IH];
    unfold total_len in *; cbn [fold_right]; rewrite ?block_len_slice by lia;
    cbn [block_len length]; try rewrite IH; lia.
Qed.


(** With matches of one byte at most, the stream is longer than the input. *)
Lemma parse_wire_min (pos : Z) (il : bool) (bl : list block) :
  max_mlen cfg = 1 ->
  parse cfg data size pos il bl ->
  size - pos + (if il then 0 else if pos <? size then 1 else 0)
  <= Z.of_nat (length (wire cfg bl)).
Proof.
  intros Hm.
  assert (HL : forall mx x, (1 <= length (len_field mx x))%nat).
  { intros mx x. unfold len_field. destruct ((mx <=? 255) || (x <? 128)); cbn; lia. }
  induction 1 as [pos il E | pos ln bl Hp Hl Hle P IH | pos ln bl Hp Hl Hle P IH
                 | pos ml mp bl M P IH | pos ml mp bl M P IH];
    unfold wire in *; cbn [flat_map wire_block]; rewrite ?length_app, ?slice_length.
  - subst. destruct il; [cbn; lia|]. rewrite Z.ltb_irrefl. cbn. lia.
  - pose proof (HL (max_llen cfg) (Z.of_nat (Z.to_nat ln))).
    destruct (Z.ltb_spec pos size); lia.
  - pose proof (HL (max_llen cfg) (Z.of_nat (Z.to_nat ln))).
    pose proof (HL (max_mlen cfg) 0). lia.
  - destruct M as (M1 & M2 & M3 & _).
    pose proof (HL (max_mlen cfg) ml).
    destruct (Z.ltb_spec (pos + ml) size); lia.
  - destruct M as (M1 & M2 & M3 & _).
    pose proof (HL (max_mlen cfg) ml).
    pose proof (HL (max_llen cfg) (Z.of_nat (@length Z []))).
    destruct (Z.ltb_spec (pos + ml) size); destruct (Z.ltb_spec pos size); lia.
Qed.
End Layout.


(** ** Truncated streams *)

Lemma slice_removelast (data : list Z) (pos : Z) (k : nat) :
  removelast (slice data pos (S k)) = slice data pos k.
Proof.
  replace (S k) with (k + 1)%nat by lia. rewrite slice_app.
  cbn [slice]. apply removelast_last.
Qed.

Lemma slice_firstn (data : list Z) (n : nat) :
  (n <= length data)%nat -> slice data 0 n = firstn n data.
Proof.
  intros Hn. pose proof (slice_all data) as A.
  replace (length data) with (n + (length data - n))%nat in A by lia.
  rewrite slice_app in A. rewrite <- A at 2.
  rewrite firstn_app, slice_length, Nat.sub_diag, firstn_O, app_nil_r.
  rewrite <- (slice_length data 0 n) at 2. symmetry. apply firstn_all.
Qed.

Lemma wire_snoc (cfg : Cfg) (bl : list block) (b : block) :
  wire cfg (bl ++ [b]) = wire cfg bl ++ wire_block cfg b.
Proof. unfold wire. rewrite flat_map_app. cbn. rewrite app_nil_r. reflexivity. Qed.

Lemma parse_nil_inv (cfg : Cfg) (data : list Z) (size pos : Z) (il : bool) :
  parse cfg data size pos il [] -> pos = size.
Proof. inversion 1. assumption. Qed.

Section Truncation.
Variable cfg : Cfg.
Variable data : list Z.
Variable size : Z.
Hypothesis Hv : valid_cfg cfg.
Hypothesis Hx : exor_offset cfg = false.
Hypothesis Hbytes : Forall is_byte data.
Hypothesis Hsize : size <= MAX_INPUT.

Local Notation "'mask'" := (mask_of cfg).
Local Notation "'synced_'" := (synced cfg data size).
Local Notation "'step_'" := (step cfg data size).
Local Notation "'run_'" := (run cfg data size).

Lemma step_lit (pos ln : Z) :
  0 <= pos -> 0 <= ln <= max_llen cfg -> pos + ln <= size ->
  step_ pos false (Lit (slice data pos (Z.to_nat ln))) (pos + ln).
Proof.
  intros. cbn. split; [reflexivity|]. split; [lia|].
  exists ln. repeat split; lia.
Qed.

Lemma step_mat (pos ml mp : Z) :
  match_at data cfg size pos ml mp ->
  step_ pos true (Mat ml (enc_off cfg pos mp)) (pos + ml).
Proof.
  intros M. pose proof M as (M1 & M2 & M3 & M4 & _).
  cbn. split; [reflexivity|]. split; [lia|]. right. exists mp.
  split; [exact M | split; reflexivity].
Qed.

Lemma step_zero_mat (pos : Z) :
  0 <= pos <= size -> step_ pos true (Mat 0 0) pos.
Proof.
  intros. cbn. split; [reflexivity|]. split; [lia|]. left. repeat split.
Qed.

Lemma parse_closing (pos : Z) (il : bool) (bl : list block) :
  parse cfg data size pos il bl -> bl <> [] ->
  exists bl0 b pos' il',
    bl = bl0 ++ [b] /\ run_ pos il bl0 pos' il' /\ closing_block cfg data size pos' il' b.
Proof.
  destruct Hv as [_ Hll _ _].
  induction 1 as [pos il E | pos ln bl Hp Hl Hle P IH | pos ln bl Hp Hl Hle P IH
                 | pos ml mp bl M P IH | pos ml mp bl M P IH]; intros Hne.
  - contradiction.
  - destruct bl as [|b1 bl1].
    + apply parse_nil_inv in P.
      exists [], (Lit (slice data pos (Z.to_nat ln))), pos, false.
      split; [reflexivity|]. split; [constructor|].
      left. split; [reflexivity|]. split; [lia|]. exists ln. repeat split; lia.
    + destruct (IH ltac:(discriminate)) as (bl0 & b & pos' & il' & E & R & C).
      exists (Lit (slice data pos (Z.to_nat ln)) :: bl0), b, pos', il'.
      split; [rewrite E; reflexivity|]. split; [|exact C].
      apply run_cons with (pos1 := pos + ln); [apply step_lit; lia | exact R].
  - destruct bl as [|b1 bl1].
    + apply parse_nil_inv in P.
      exists [Mat 0 0], (Lit (slice data pos (Z.to_nat ln))), pos, false.
      split; [reflexivity|]. split.
      * apply run_cons with (pos1 := pos); [apply step_zero_mat; lia | constructor].
      * left. split; [reflexivity|]. split; [lia|]. exists ln. repeat split; lia.
    + destruct (IH ltac:(discriminate)) as (bl0 & b & pos' & il' & E & R & C).
      exists (Mat 0 0 :: Lit (slice data pos (Z.to_nat ln)) :: bl0), b, pos', il'.
      split; [rewrite E; reflexivity|]. split; [|exact C].
      apply run_cons with (pos1 := pos); [apply step_zero_mat; lia|].
      apply run_cons with (pos1 := pos + ln); [apply step_lit; lia | exact R].
  - pose proof M as (M1 & M2 & M3 & M4 & _).
    destruct bl as [|b1 bl1].
    + apply parse_nil_inv in P.
      exists [], (Mat ml (enc_off cfg pos mp)), pos, true.
      split; [reflexivity|]. split; [constructor|].
      right. split; [reflexivity|]. exists ml, mp.
      split; [exact M | split; [lia | reflexivity]].
    + destruct (IH ltac:(discriminate)) as (bl0 & b & pos' & il' & E & R & C).
      exists (Mat ml (enc_off cfg pos mp) :: bl0), b, pos', il'.
      split; [rewrite E; reflexivity|]. split; [|exact C].
      apply run_cons with (pos1 := pos + ml); [apply step_mat; exact M | exact R].
  - pose proof M as (M1 & M2 & M3 & M4 & _).
    assert (Hz : step_ pos false (Lit []) pos).
    { replace pos with (pos + 0) at 2 by lia.
      apply (step_lit pos 0); lia. }
    destruct bl as [|b1 bl1].
    + apply parse_nil_inv in P.
      exists [Lit []], (Mat ml (enc_off cfg pos mp)), pos, true.
      split; [reflexivity|]. split.
      * apply run_cons with (pos1 := pos); [exact Hz | constructor].
      * right. split; [reflexivity|]. exists ml, mp.
      split; [exact M | split; [lia | reflexivity]].
    + destruct (IH ltac:(discriminate)) as (bl0 & b & pos' & il' & E & R & C).
      exists (Lit [] :: Mat ml (enc_off cfg pos mp) :: bl0), b, pos', il'.
      split; [rewrite E; reflexivity|]. split; [|exact C].
      apply run_cons with (pos1 := pos); [exact Hz|].
      apply run_cons with (pos1 := pos + ml); [apply step_mat; exact M | exact R].
Qed.

(** A literal block that lacks bytes: "short file reading literal". *)
Lemma copy_literal_short (k n : nat) (pos : Z) (st : dstate) :
  (k < n)%nat -> pos + Z.of_nat k <= size ->
  synced_ pos st (slice data pos k) ->
  copy_literal mask n st =
  Return (pos + Z.of_nat k)
         (mkio [] (slice data 0 (Z.to_nat (pos + Z.of_nat k))) [msg_literal]).
Proof.
  revert n pos st. induction k as [|k IH]; intros n pos st Hk Hle S;
    (destruct n as [|n]; [lia|]); destruct S as (Hp & Epos & Eio & W);
    cbn [copy_literal]; rewrite Eio.
  - cbn. rewrite Epos, (to_int_pos size) by assumption.
    replace (pos + 0) with pos by lia. reflexivity.
  - cbn [slice]. unfold getchar at 1. cbn [mkio stdin stdout stderr].
    pose proof (at_byte data pos Hbytes) as Hb. unfold is_byte in Hb.
    destruct (Z.eqb_spec (at_ data pos) EOF) as [E|_]; [unfold EOF in E; lia|].
    rewrite Epos.
    replace (pos + Z.of_nat (S k)) with (pos + 1 + Z.of_nat k) by lia.
    apply (IH n (pos + 1)); [lia | lia |].
    apply (emit_synced cfg data size Hbytes Hsize); [lia | exact W].
Qed.

Lemma truncated_literal (pos ln : Z) (st : dstate) (f : nat) :
  1 <= ln <= max_llen cfg -> pos + ln = size -> (1 <= f)%nat ->
  synced_ pos st (removelast (wire_block cfg (Lit (slice data pos (Z.to_nat ln))))) ->
  decode_loop cfg f st =
  Some (size - 1, mkio [] (slice data 0 (Z.to_nat (size - 1))) [msg_literal]).
Proof.
  intros Hl Hle Hf Sy. destruct Hv as [_ Hll _ _].
  destruct f as [|f]; [lia|]. rewrite decode_loop_S.
  cbn [wire_block] in Sy. rewrite slice_length, Z2Nat.id in Sy by lia.
  replace (Z.to_nat ln) with (S (Z.to_nat (ln - 1))) in Sy by lia.
  rewrite removelast_app in Sy by discriminate.
  rewrite slice_removelast in Sy.
  destruct Sy as (Hp & Epos & Eio & W).
  unfold decode_literal. rewrite Eio.
  rewrite get_len_field by lia.
  destruct (Z.ltb_spec ln 0); [lia|].
  rewrite (copy_literal_short (Z.to_nat (ln - 1)) (Z.to_nat ln) pos); [| lia | lia |].
  - replace (pos + Z.of_nat (Z.to_nat (ln - 1))) with (size - 1) by lia. reflexivity.
  - unfold synced. cbn [dio dbuf dpos]. repeat split; try assumption; lia.
Qed.

Lemma truncated_match (pos ml mp : Z) (st : dstate) (f : nat) :
  1 <= bits_moff cfg ->
  match_at data cfg size pos ml mp ->
  synced_ pos st (removelast (wire_block cfg (Mat ml (enc_off cfg pos mp)))) ->
  decode_from_match cfg f st =
  Some (pos, mkio [] (slice data 0 (Z.to_nat pos)) [msg_offset]).
Proof.
  intros Hb (M1 & M2 & M3 & M4 & M5 & M6) Sy. destruct Hv as [Hml _ Hbm _].
  cbn [wire_block] in Sy.
  destruct (Z.eqb_spec ml 0); [lia|]. cbn [negb orb] in Sy.
  assert (Hoff : offset_field cfg (enc_off cfg pos mp) <> []).
  { unfold offset_field. destruct (Z.eqb_spec (bits_moff cfg) 0); [lia|]. discriminate. }
  rewrite removelast_app in Sy by exact Hoff.
  destruct Sy as (Hp & Epos & Eio & W).
  unfold decode_from_match, decode_match. rewrite Eio.
  rewrite <- (app_nil_r (removelast _)).
  rewrite get_len_field by lia.
  destruct (Z.ltb_spec ml 0); [lia|].
  destruct (Z.eqb_spec ml 0); [lia|]. cbn [negb]. rewrite orb_true_r.
  unfold read_offset, offset_field. cbn [dio dpos].
  destruct (Z.eqb_spec (bits_moff cfg) 0); [lia|].
  destruct (Z.gtb_spec (bits_moff cfg) 0); [|lia].
  rewrite Epos, (to_int_pos size) by assumption.
  destruct (Z.gtb_spec (bits_moff cfg) 8).
  - cbn [app removelast]. unfold getchar at 1. cbn [mkio stdin stdout stderr].
    assert (B1 : 0 <= Z.land (enc_off cfg pos mp) 255 < 256)
      by (rewrite land_255; apply Z.mod_pos_bound; lia).
    destruct (Z.eqb_spec (Z.land (enc_off cfg pos mp) 255) EOF) as [E|_];
      [unfold EOF in E; lia|].
    reflexivity.
  - reflexivity.
Qed.
End Truncation.

(** ** The decoder on arbitrary streams *)

Section AnyStream.
Variable cfg : Cfg.

Local Notation "'mask'" := (mask_of cfg).

Lemma getchar_cases (s : io) :
  Forall is_byte (stdin s) ->
  (stdin s = [] /\ getchar s = (EOF, s)) \/
  (exists c rest, stdin s = c :: rest /\ is_byte c /\ Forall is_byte rest /\
                  getchar s = (c, {| stdin := rest; stdout := stdout s;
                                     stderr := stderr s |})).
Proof.
  intros Hb. unfold getchar. destruct (stdin s) as [|c rest] eqn:E.
  - left. split; reflexivity.
  - right. exists c, rest. inversion Hb; subst.
    split; [reflexivity|]. split; [assumption|]. split; [assumption | reflexivity].
Qed.

Lemma get_len_any (mx : Z) (s : io) :
  Forall is_byte (stdin s) ->
  let '(n, s') := get_len mx s in
  advanced s s' /\
  ((n < 0 /\ stdin s' = []) \/
   (0 <= n /\ (length (stdin s') < length (stdin s))%nat)).
Proof.
  intros Hb. unfold get_len, advanced.
  destruct (getchar_cases s Hb) as [[E ->] | (c & rest & E & Hc & Hr & ->)].
  - cbn. rewrite E. split; [repeat split; auto|].
    left. split; [lia | reflexivity].
  - unfold is_byte in Hc.
    destruct (Z.eqb_spec c EOF) as [Ec|_]; [unfold EOF in Ec; lia|].
    destruct ((mx <? 256) || (c <? 128)) eqn:Eone.
    + cbn [stdin stdout stderr]. rewrite E. cbn [length].
      split; [repeat split; auto; lia|]. right. lia.
    + apply orb_false_iff in Eone. destruct Eone as [_ Ec]. apply Z.ltb_ge in Ec.
      destruct (getchar_cases {| stdin := rest; stdout := stdout s; stderr := stderr s |} Hr)
        as [[E2 ->] | (c2 & rest2 & E2 & Hc2 & Hr2 & ->)];
        cbn [stdin stdout stderr] in *; rewrite E; subst rest; cbn [length].
      * split; [repeat split; auto; lia|].
        right. change (Z.shiftl EOF 7) with (-128). lia.
      * split; [repeat split; auto; lia|].
        right. unfold is_byte in Hc2. rewrite shiftl_7. lia.
Qed.

Lemma copy_literal_any (n : nat) (st : dstate) :
  Forall is_byte (stdin (dio st)) ->
  match copy_literal mask n st with
  | Return _ s => stdin s = [] /\ stderr s = stderr (dio st) ++ [msg_literal]
  | Next st' => advanced (dio st) (dio st')
  end.
Proof.
  revert st. induction n as [|n IH]; intros st Hb; cbn [copy_literal].
  - unfold advanced. repeat split; auto; try lia.
  - destruct (getchar_cases (dio st) Hb) as [[E ->] | (c & rest & E & Hc & Hr & ->)].
    + cbn. split; [exact E | reflexivity].
    + unfold is_byte in Hc.
      destruct (Z.eqb_spec c EOF) as [Ec|_]; [unfold EOF in Ec; lia|].
      match goal with |- match copy_literal _ _ ?st1 with _ => _ end =>
        specialize (IH st1 Hr); destruct (copy_literal mask n st1) as [r s|st'] end.
      * exact IH.
      * unfold advanced in *. cbn [dio stdin stdout stderr putchar] in IH.
        rewrite E. cbn [length]. destruct IH as (I1 & I2 & I3).
        repeat split; auto; try lia.
Qed.

Lemma copy_match_any (n : nat) (off : Z) (st : dstate) :
  stdin (dio (copy_match mask n off st)) = stdin (dio st) /\
  stderr (dio (copy_match mask n off st)) = stderr (dio st) /\
  length (stdout (dio (copy_match mask n off st))) =
    (length (stdout (dio st)) + n)%nat.
Proof.
  revert off st. induction n as [|n IH]; intros off st; cbn [copy_match].
  - repeat split; lia.
  - match goal with |- context [copy_match _ _ _ ?st1] =>
      destruct (IH (off + 1) st1) as (I1 & I2 & I3) end.
    rewrite I1, I2, I3. cbn [dio putchar stdin stdout stderr].
    rewrite length_app. cbn [length]. repeat split; lia.
Qed.

Lemma read_offset_any (st : dstate) :
  Forall is_byte (stdin (dio st)) ->
  match read_offset cfg st with
  | inl (Return _ s) => stdin s = [] /\ stderr s = stderr (dio st) ++ [msg_offset]
  | inl (Next _) => False
  | inr (_, s) => advanced (dio st) s
  end.
Proof.
  intros Hb. unfold read_offset.
  assert (H2 : forall off s, advanced (dio st) s ->
    match (if bits_moff cfg >? 8
           then let '(x, s0) := getchar s in
                if x =? EOF
                then inl (Return (to_int (dpos st)) (fprintf_stderr s0 msg_offset))
                else inr (off + Z.shiftl x 8, s0)
           else inr (off, s)) with
    | inl (Return _ s') => stdin s' = [] /\ stderr s' = stderr (dio st) ++ [msg_offset]
    | inl (Next _) => False
    | inr (_, s') => advanced (dio st) s'
    end).
  { intros off s (A1 & A2 & A3). destruct (bits_moff cfg >? 8).
    - destruct (getchar_cases s A2) as [[E ->] | (c & rest & E & Hc & Hr & ->)].
      + cbn. rewrite A1. split; [exact E | reflexivity].
      + unfold is_byte in Hc.
        destruct (Z.eqb_spec c EOF) as [Ec|_]; [unfold EOF in Ec; lia|].
        unfold advanced. cbn [stdin stdout stderr]. rewrite E in A3. cbn [length] in A3.
        repeat split; auto; try lia.
    - unfold advanced. repeat split; auto; try lia. }
  destruct (bits_moff cfg >? 0).
  - destruct (getchar_cases (dio st) Hb) as [[E ->] | (c & rest & E & Hc & Hr & ->)].
    + cbn. split; [exact E | reflexivity].
    + unfold is_byte in Hc.
      destruct (Z.eqb_spec c EOF) as [Ec|_]; [unfold EOF in Ec; lia|].
      apply H2. unfold advanced. cbn [stdin stdout stderr]. rewrite E. cbn [length].
      repeat split; auto; try lia.
  - apply H2. unfold advanced. repeat split; auto; try lia.
Qed.

Lemma decode_literal_any (st : dstate) :
  Forall is_byte (stdin (dio st)) ->
  match decode_literal cfg st with
  | Return _ s =>
      stdin s = [] /\
      (stderr s = stderr (dio st) \/ stderr s = stderr (dio st) ++ [msg_literal])
  | Next st' =>
      stderr (dio st') = stderr (dio st) /\ Forall is_byte (stdin (dio st')) /\
      (length (stdin (dio st')) < length (stdin (dio st)))%nat
  end.
Proof.
  intros Hb. unfold decode_literal.
  pose proof (get_len_any (max_llen cfg) (dio st) Hb) as G.
  destruct (get_len (max_llen cfg) (dio st)) as [n s].
  destruct G as ((A1 & A2 & A3) & G).
  destruct (Z.ltb_spec n 0).
  - destruct G as [[_ E] | [? _]]; [|lia]. split; [exact E | left; exact A1].
  - destruct G as [[? _] | [_ Hlt]]; [lia|].
    match goal with |- match copy_literal _ _ ?st1 with _ => _ end =>
      pose proof (copy_literal_any (Z.to_nat n) st1 A2) as C;
      destruct (copy_literal mask (Z.to_nat n) st1) as [r s'|st'] end;
      cbn [dio] in C.
    + destruct C as [C1 C2]. split; [exact C1 | right; congruence].
    + destruct C as (C1 & C2 & C3). repeat split; [congruence | exact C2 | lia].
Qed.

Lemma decode_match_any (st : dstate) :
  Forall is_byte (stdin (dio st)) ->
  match decode_match cfg st with
  | Return _ s =>
      stdin s = [] /\
      (stderr s = stderr (dio st) \/ stderr s = stderr (dio st) ++ [msg_offset])
  | Next st' =>
      stderr (dio st') = stderr (dio st) /\ Forall is_byte (stdin (dio st')) /\
      (length (stdin (dio st')) < length (stdin (dio st)))%nat
  end.
Proof.
  intros Hb. unfold decode_match.
  pose proof (get_len_any (max_mlen cfg) (dio st) Hb) as G.
  destruct (get_len (max_mlen cfg) (dio st)) as [n s].
  destruct G as ((A1 & A2 & A3) & G).
  destruct (Z.ltb_spec n 0).
  - destruct G as [[_ E] | [? _]]; [|lia]. split; [exact E | left; exact A1].
  - destruct G as [[? _] | [_ Hlt]]; [lia|].
    destruct (zero_offset cfg || negb (n =? 0)).
    + match goal with |- context [read_offset cfg ?st1] =>
        pose proof (read_offset_any st1 A2) as R;
        destruct (read_offset cfg st1) as [[r s'|st']|[off s']] end;
        cbn [dio] in R.
      * destruct R as [R1 R2]. split; [exact R1 | right; congruence].
      * contradiction.
      * destruct R as (R1 & R2 & R3).
        match goal with |- context [copy_match mask ?k ?o ?st2] =>
          destruct (copy_match_any k o st2) as (C1 & C2 & _) end.
        rewrite C1, C2. cbn [dio]. repeat split; [congruence | exact R2 | lia].
    + cbn [dio]. repeat split; [exact A1 | exact A2 | lia].
Qed.

(** [decode] always comes to an end, with the whole input read, and the
    only messages it can leave are the two "short file" ones. *)
Lemma decode_loop_any (fuel : nat) (st : dstate) :
  (length (stdin (dio st)) < fuel)%nat ->
  Forall is_byte (stdin (dio st)) ->
  stderr (dio st) = [] ->
  exists r s,
    decode_loop cfg fuel st = Some (r, s) /\ stdin s = [] /\
    (stderr s = [] \/ stderr s = [msg_literal] \/ stderr s = [msg_offset]).
Proof.
  revert st. induction fuel as [|fuel IH]; intros st Hf Hb He; [lia|].
  cbn [decode_loop].
  pose proof (decode_literal_any st Hb) as L.
  destruct (decode_literal cfg st) as [r s|st1].
  - exists r, s. split; [reflexivity|]. destruct L as [L1 L2]. split; [exact L1|].
    rewrite He in L2. destruct L2 as [->| ->]; auto.
  - destruct L as (L1 & L2 & L3).
    pose proof (decode_match_any st1 L2) as M.
    destruct (decode_match cfg st1) as [r s|st2].
    + exists r, s. split; [reflexivity|]. destruct M as [M1 M2]. split; [exact M1|].
      rewrite L1, He in M2. destruct M2 as [->| ->]; auto.
    + destruct M as (M1 & M2 & M3). apply IH; [lia | exact M2 | congruence].
Qed.
End AnyStream.

Lemma copy_literal_bytes (mask : Z) (bs : list Z) (st : dstate) (rest : list Z) :
  Forall is_byte bs ->
  stdin (dio st) = bs ++ rest ->
  exists st',
    copy_literal mask (length bs) st = Next st' /\
    stdin (dio st') = rest /\
    stdout (dio st') = stdout (dio st) ++ bs /\
    stderr (dio st') = stderr (dio st).
Proof.
  revert st. induction bs as [|x bs IH]; intros st Hb E.
  - exists st. cbn. rewrite app_nil_r. repeat split; auto.
  - inversion Hb as [|? ? Hx Hbs]; subst. cbn [length copy_literal].
    unfold getchar. rewrite E. cbn [app].
    unfold is_byte in Hx.
    destruct (Z.eqb_spec x EOF) as [Ex|_]; [unfold EOF in Ex; lia|].
    match goal with |- context [copy_literal _ _ ?st1] =>
      destruct (IH st1 Hbs) as (st' & C & I1 & I2 & I3); [reflexivity|] end.
    exists st'. split; [exact C|]. split; [exact I1|].
    cbn [dio putchar stdin stdout stderr] in I2, I3.
    rewrite land_byte in I2 by (unfold is_byte; lia).
    split; [rewrite I2; list_eq | exact I3].
Qed.

(** ** The value returned by [decode] *)

Lemma counted_emit (st : dstate) (s : io) (x i : Z) :
  counted st -> stdout s = stdout (dio st) ->
  counted {| dio := putchar s x; dbuf := store (dbuf st) i x;
             dpos := incr (dpos st) |}.
Proof.
  unfold counted, incr. intros C E. cbn [dio dpos putchar stdout].
  rewrite C, E, length_app. cbn [length].
  rewrite Nat2Z.inj_add. change (Z.of_nat 1) with 1.
  rewrite Z.add_mod_idemp_l by lia. reflexivity.
Qed.

Lemma getchar_stdout (s : io) : stdout (snd (getchar s)) = stdout s.
Proof. unfold getchar. destruct (stdin s); reflexivity. Qed.

Lemma get_len_stdout (mx : Z) (s : io) : stdout (snd (get_len mx s)) = stdout s.
Proof.
  unfold get_len. pose proof (getchar_stdout s) as G1.
  destruct (getchar s) as [c s1]. cbn [snd] in G1.
  destruct (c =? EOF); [exact G1|].
  destruct ((mx <? 256) || (c <? 128)); [exact G1|].
  pose proof (getchar_stdout s1) as G2.
  destruct (getchar s1) as [c2 s2]. cbn [snd] in *. congruence.
Qed.

Lemma copy_literal_count (mask : Z) (n : nat) (st : dstate) :
  counted st -> returns_count (copy_literal mask n st).
Proof.
  revert st. induction n as [|n IH]; intros st C; cbn [copy_literal].
  - exact C.
  - pose proof (getchar_stdout (dio st)) as G.
    destruct (getchar (dio st)) as [x s]. cbn [snd] in G.
    destruct (x =? EOF).
    + cbn. rewrite G. unfold counted in C. rewrite C. reflexivity.
    + apply IH. apply counted_emit; assumption.
Qed.

Lemma copy_match_count (mask : Z) (n : nat) (off : Z) (st : dstate) :
  counted st -> counted (copy_match mask n off st).
Proof.
  revert off st. induction n as [|n IH]; intros off st C; cbn [copy_match].
  - exact C.
  - apply IH. apply counted_emit; [assumption | reflexivity].
Qed.

Lemma decode_literal_count (cfg : Cfg) (st : dstate) :
  counted st -> returns_count (decode_literal cfg st).
Proof.
  intros C. unfold decode_literal.
  pose proof (get_len_stdout (max_llen cfg) (dio st)) as G.
  destruct (get_len (max_llen cfg) (dio st)) as [n s]. cbn [snd] in G.
  destruct (n <? 0).
  - cbn. rewrite G. unfold counted in C. rewrite C. reflexivity.
  - apply copy_literal_count. unfold counted in *. cbn [dio dpos]. congruence.
Qed.

Lemma decode_match_count (cfg : Cfg) (st : dstate) :
  counted st -> returns_count (decode_match cfg st).
Proof.
  intros C. unfold decode_match.
  pose proof (get_len_stdout (max_mlen cfg) (dio st)) as G.
  destruct (get_len (max_mlen cfg) (dio st)) as [n s]. cbn [snd] in G.
  destruct (n <? 0).
  - cbn. rewrite G. unfold counted in C. rewrite C. reflexivity.
  - destruct (zero_offset cfg || negb (n =? 0)).
    + unfold read_offset. cbn [dio dpos].
      assert (Hret : forall s', stdout s' = stdout s ->
                returns_count (Return (to_int (dpos st)) (fprintf_stderr s' msg_offset))).
      { intros s' E. cbn. rewrite E, G. unfold counted in C. rewrite C. reflexivity. }
      assert (Hnext : forall off s', stdout s' = stdout s ->
                returns_count
                  (Next (copy_match (mask_of cfg) (Z.to_nat n)
                           (if offset_rel cfg <? 0
                            then dpos st - (if exor_offset cfg
                                            then Z.lxor (mask_of cfg) off else off)
                                 + mask_of cfg
                            else (if exor_offset cfg
                                  then Z.lxor (mask_of cfg) off else off)
                                 + mask_of cfg + 1 - offset_rel cfg)
                           {| dio := s'; dbuf := dbuf st; dpos := dpos st |}))).
      { intros off s' E. cbn [returns_count]. apply copy_match_count.
        unfold counted in *. cbn [dio dpos]. congruence. }
      destruct (bits_moff cfg >? 0).
      * pose proof (getchar_stdout s) as G1.
        destruct (getchar s) as [o1 s1]. cbn [snd] in G1.
        destruct (o1 =? EOF); [apply Hret; exact G1|].
        destruct (bits_moff cfg >? 8).
        -- pose proof (getchar_stdout s1) as G2.
           destruct (getchar s1) as [o2 s2]. cbn [snd] in G2.
           destruct (o2 =? EOF); [apply Hret; congruence|].
           apply Hnext. congruence.
        -- apply Hnext. exact G1.
      * destruct (bits_moff cfg >? 8).
        -- pose proof (getchar_stdout s) as G2.
           destruct (getchar s) as [o2 s2]. cbn [snd] in G2.
           destruct (o2 =? EOF); [apply Hret; exact G2|].
           apply Hnext. exact G2.
        -- apply Hnext. reflexivity.
    + cbn [returns_count]. unfold counted in *. cbn [dio dpos]. congruence.
Qed.

Lemma decode_loop_count (cfg : Cfg) (fuel : nat) (st : dstate) r s :
  counted st -> decode_loop cfg fuel st = Some (r, s) ->
  r = to_int (Z.of_nat (length (stdout s)) mod 4294967296).
Proof.
  revert st. induction fuel as [|fuel IH]; intros st C E; [discriminate|].
  cbn [decode_loop] in E.
  pose proof (decode_literal_count cfg st C) as L.
  destruct (decode_literal cfg st) as [r1 s1|st1].
  - inversion E; subst. exact L.
  - pose proof (decode_match_count cfg st1 L) as M.
    destruct (decode_match cfg st1) as [r2 s2|st2].
    + inversion E; subst. exact M.
    + apply (IH st2); assumption.
Qed.

(** ** Room in the output buffer *)

Lemma add_byte_ok (b : bf) (x : Z) :
  len b < BUF_SIZE -> exists b', add_byte b x = Some b' /\ len b' = len b + 1.
Proof.
  intros H. unfold add_byte. destruct (Z.ltb_spec (len b) BUF_SIZE); [|lia].
  eexists. split; [reflexivity|]. unfold len. cbn [buf]. rewrite length_app. cbn. lia.
Qed.

Lemma add_len_ok (b : bf) (mx x : Z) :
  len b + 2 <= BUF_SIZE ->
  exists b', add_len b mx x = Some b' /\
             len b' = len b + (if (x >? 127) && (mx >? 255) then 2 else 1).
Proof.
  intros H. unfold add_len. destruct ((x >? 127) && (mx >? 255)).
  - destruct (add_byte_ok b (Z.land (Z.lor 128 x) 255) ltac:(lia)) as (b1 & E1 & L1).
    rewrite E1.
    destruct (add_byte_ok b1 (Z.shiftr x 7 - 1) ltac:(lia)) as (b2 & E2 & L2).
    exists b2. split; [exact E2 | lia].
  - destruct (add_byte_ok b (Z.land x 255) ltac:(lia)) as (b1 & E1 & L1).
    exists b1. split; [exact E1 | lia].
Qed.

Lemma code_match_ok (cfg : Cfg) (b : bf) (ln off : Z) :
  len b + 4 <= BUF_SIZE ->
  exists b', code_match cfg b ln off = Some b' /\
             len b' <= len b + 4 /\ (ln = 0 -> len b' <= len b + 3).
Proof.
  intros H. unfold code_match.
  destruct (add_len_ok b (max_mlen cfg) ln ltac:(lia)) as (b1 & E1 & L1).
  rewrite E1.
  assert (L0 : ln = 0 -> len b1 = len b + 1).
  { intros ->. rewrite L1. reflexivity. }
  assert (L1' : len b1 <= len b + 2).
  { rewrite L1. destruct ((ln >? 127) && (max_mlen cfg >? 255)); lia. }
  destruct (negb (ln =? 0) || zero_offset cfg).
  - destruct (negb (bits_moff cfg =? 0)).
    + destruct (add_byte_ok b1 (Z.land off 255) ltac:(lia)) as (b2 & E2 & L2).
      rewrite E2. destruct (bits_moff cfg >? 8).
      * destruct (add_byte_ok b2 (Z.shiftr off 8) ltac:(lia)) as (b3 & E3 & L3).
        exists b3. split; [exact E3|]. split; [lia | intros; specialize (L0 ltac:(assumption)); lia].
      * exists b2. split; [reflexivity|]. split; [lia | intros; specialize (L0 ltac:(assumption)); lia].
    + destruct (bits_moff cfg >? 8).
      * destruct (add_byte_ok b1 (Z.shiftr off 8) ltac:(lia)) as (b3 & E3 & L3).
        exists b3. split; [exact E3|]. split; [lia | intros; specialize (L0 ltac:(assumption)); lia].
      * exists b1. split; [reflexivity|]. split; [lia | intros; specialize (L0 ltac:(assumption)); lia].
  - exists b1. split; [reflexivity|]. split; [lia | intros; specialize (L0 ltac:(assumption)); lia].
Qed.

(** One call of [lzop_encode] with [5 * pos] bytes in the buffer (one more
    inside a block whose header took two bytes) leaves at most
    [5 * (pos + 1)] bytes, one more only while a block is being skipped. *)
Lemma lzop_encode_ok (cfg : Cfg) (b : bf) (lz : lzop) (pos lpos rel : Z) :
  len b <= 5 * pos + (if pos <=? lpos then 1 else 0) ->
  5 * (pos + 1) + 1 <= BUF_SIZE ->
  exists b' lz' lpos',
    lzop_encode cfg b lz pos lpos rel = Some (b', lz', lpos') /\
    len b' <= 5 * (pos + 1) + (if pos + 1 <=? lpos' then 1 else 0).
Proof.
  intros Hl Hr. unfold lzop_encode.
  destruct (Z.leb_spec pos lpos) as [Hskip|Hnew].
  - destruct (in_literal lz).
    + destruct (add_byte_ok b (at_ (data lz) pos) ltac:(lia)) as (b1 & E1 & L1).
      rewrite E1. exists b1, lz, lpos. split; [reflexivity|].
      destruct (pos + 1 <=? lpos); lia.
    + exists b, lz, lpos. split; [reflexivity|]. destruct (pos + 1 <=? lpos); lia.
  - match goal with |- context [if ?c then _ else _] => destruct c end.
    + set (ln := if llen (sp lz pos) >? max_llen cfg then max_llen cfg
                 else llen (sp lz pos)).
      assert (H1 : exists b1, (if in_literal lz then code_match cfg b 0 0 else Some b)
                              = Some b1 /\ len b1 <= len b + 3).
      { destruct (in_literal lz).
        - destruct (code_match_ok cfg b 0 0 ltac:(lia)) as (b1 & E1 & _ & L1).
          exists b1. split; [exact E1 | apply L1; reflexivity].
        - exists b. split; [reflexivity | lia]. }
      destruct H1 as (b1 & E1 & L1). rewrite E1.
      destruct (add_len_ok b1 (max_llen cfg) ln ltac:(lia)) as (b2 & E2 & L2).
      rewrite E2.
      assert (Hb2 : len b2 < BUF_SIZE).
      { rewrite L2. destruct ((ln >? 127) && (max_llen cfg >? 255)); lia. }
      destruct (add_byte_ok b2 (at_ (data lz) pos) Hb2) as (b3 & E3 & L3).
      rewrite E3. eexists _, _, _. split; [reflexivity|].
      rewrite L3, L2.
      destruct ((ln >? 127) && (max_llen cfg >? 255)) eqn:Etwo.
      * apply andb_true_iff in Etwo. destruct Etwo as [Hgt _].
        apply Z.gtb_lt in Hgt.
        destruct (Z.leb_spec (pos + 1) (pos + ln - 1)); lia.
      * destruct (pos + 1 <=? pos + ln - 1); lia.
    + assert (H1 : exists b1, (if negb (in_literal lz) then add_byte b 0 else Some b)
                              = Some b1 /\ len b1 <= len b + 1).
      { destruct (negb (in_literal lz)).
        - destruct (add_byte_ok b 0 ltac:(lia)) as (b1 & E1 & L1).
          exists b1. split; [exact E1 | lia].
        - exists b. split; [reflexivity | lia]. }
      destruct H1 as (b1 & E1 & L1). rewrite E1.
      match goal with |- context [code_match cfg b1 ?l ?o] =>
        destruct (code_match_ok cfg b1 l o ltac:(lia)) as (b2 & E2 & L2 & _) end.
      rewrite E2. eexists _, _, _. split; [reflexivity|].
      match goal with |- context [if ?c then _ else _] => destruct c end; lia.
Qed.

Lemma encode_loop_ok (cfg : Cfg) (n : nat) (b : bf) (lz : lzop) (pos lpos : Z) :
  len b <= 5 * pos + (if pos <=? lpos then 1 else 0) ->
  5 * (pos + Z.of_nat n) + 1 <= BUF_SIZE ->
  exists r, encode_loop cfg n b lz pos lpos = Some r.
Proof.
  revert b lz pos lpos. induction n as [|n IH]; intros b lz pos lpos Hl Hr;
    cbn [encode_loop].
  - eexists. reflexivity.
  - destruct (lzop_encode_ok cfg b lz pos lpos (offset_rel cfg) Hl ltac:(lia))
      as (b' & lz' & lpos' & E & L).
    rewrite E. apply IH; [exact L | lia].
Qed.

(** Only [bflush] changes [total]. *)
Lemma add_byte_total (b b' : bf) (x : Z) :
  add_byte b x = Some b' -> total b' = total b.
Proof.
  unfold add_byte. destruct (len b <? BUF_SIZE); [|discriminate].
  intros E. inversion E. reflexivity.
Qed.

Lemma add_len_total (b b' : bf) (mx x : Z) :
  add_len b mx x = Some b' -> total b' = total b.
Proof.
  unfold add_len. destruct ((x >? 127) && (mx >? 255)).
  - destruct (add_byte b (Z.land (Z.lor 128 x) 255)) as [b1|] eqn:E1; [|discriminate].
    intros E2. apply add_byte_total in E1, E2. congruence.
  - apply add_byte_total.
Qed.

Lemma code_match_total (cfg : Cfg) (b b' : bf) (ln off : Z) :
  code_match cfg b ln off = Some b' -> total b' = total b.
Proof.
  unfold code_match.
  destruct (add_len b (max_mlen cfg) ln) as [b1|] eqn:E1; [|discriminate].
  apply add_len_total in E1.
  destruct (negb (ln =? 0) || zero_offset cfg).
  - destruct (negb (bits_moff cfg =? 0)).
    + destruct (add_byte b1 (Z.land off 255)) as [b2|] eqn:E2; [|discriminate].
      apply add_byte_total in E2.
      destruct (bits_moff cfg >? 8).
      * intros E3. apply add_byte_total in E3. congruence.
      * intros E. inversion E; subst. congruence.
    + destruct (bits_moff cfg >? 8).
      * intros E3. apply add_byte_total in E3. congruence.
      * intros E. inversion E; subst. congruence.
  - intros E. inversion E; subst. congruence.
Qed.

Lemma lzop_encode_total (cfg : Cfg) (b : bf) (lz : lzop) (pos lpos rel : Z) b' lz' lpos' :
  lzop_encode cfg b lz pos lpos rel = Some (b', lz', lpos') -> total b' = total b.
Proof.
  unfold lzop_encode. destruct (pos <=? lpos).
  - destruct (in_literal lz).
    + destruct (add_byte b (at_ (data lz) pos)) as [b1|] eqn:E1; [|discriminate].
      intros E. inversion E; subst. apply (add_byte_total _ _ _ E1).
    + intros E. inversion E; subst. reflexivity.
  - match goal with |- context [if ?c then _ else _] => destruct c end.
    + destruct (if in_literal lz then code_match cfg b 0 0 else Some b)
        as [b1|] eqn:E1; [|discriminate].
      assert (H1 : total b1 = total b).
      { destruct (in_literal lz); [apply code_match_total in E1; exact E1|].
        inversion E1; subst. reflexivity. }
      match goal with |- context [add_len b1 ?m ?l] =>
        destruct (add_len b1 m l) as [b2|] eqn:E2; [|discriminate] end.
      apply add_len_total in E2.
      destruct (add_byte b2 (at_ (data lz) pos)) as [b3|] eqn:E3; [|discriminate].
      intros E. inversion E; subst. apply add_byte_total in E3. congruence.
    + destruct (if negb (in_literal lz) then add_byte b 0 else Some b)
        as [b1|] eqn:E1; [|discriminate].
      assert (H1 : total b1 = total b).
      { destruct (negb (in_literal lz)).
        - apply (add_byte_total _ _ _ E1).
        - inversion E1; subst. reflexivity. }
      match goal with |- context [code_match cfg b1 ?l ?o] =>
        destruct (code_match cfg b1 l o) as [b2|] eqn:E2; [|discriminate] end.
      apply code_match_total in E2.
      intros E. inversion E; subst. congruence.
Qed.

Lemma encode_loop_total (cfg : Cfg) (n : nat) (b : bf) (lz : lzop) (pos lpos : Z) b' lz' lpos' :
  encode_loop cfg n b lz pos lpos = Some (b', lz', lpos') -> total b' = total b.
Proof.
  revert b lz pos lpos. induction n as [|n IH]; intros b lz pos lpos E.
  - cbn in E. inversion E; subst. reflexivity.
  - cbn [encode_loop] in E.
    destruct (lzop_encode cfg b lz pos lpos (offset_rel cfg)) as [[[b1 lz1] lpos1]|] eqn:E1;
      [|discriminate].
    apply lzop_encode_total in E1. apply IH in E. congruence.
Qed.

(** * The claims of the specification *)

(** ** Round trip and the output buffer *)

(** Whenever [compress] delivers an output, [decode] turns it back into the
    input, returns its length and reports nothing. *)
Theorem roundtrip_within_buffer (cfg : Cfg) (data output : list Z) (buf0 : Z -> Z) :
  check_options cfg = None ->
  exor_offset cfg = false ->
  bytes_ok data = true ->
  Z.of_nat (length data) <= MAX_INPUT ->
  compress cfg data = Some output ->
  decode cfg buf0 output = Some (Z.of_nat (length data), mkio [] data []).
Proof.
  intros Hc Hx Hb Hs E.
  apply check_options_valid in Hc. apply bytes_ok_spec in Hb.
  destruct (compress_parse cfg data Hc Hb Hs output E) as (bl & P & -> & _).
  destruct (parse_run cfg data _ Hc _ _ _ P) as [il' R].
  unfold decode.
  pose proof (decode_run cfg data _ Hc Hx Hb Hs _ _ _ _ _ R
                {| dio := {| stdin := wire cfg bl; stdout := []; stderr := [] |};
                   dbuf := buf0; dpos := 0 |} [] (S (length (wire cfg bl)))) as D.
  rewrite app_nil_r in D.
  destruct D as (st' & f' & S' & F' & Ph).
  { apply synced_start. lia. }
  { pose proof (wire_length cfg bl). lia. }
  cbn [phase] in Ph. rewrite Ph.
  rewrite (phase_eof cfg data _ Hs _ il' f' st' S').
  - rewrite Nat2Z.id, slice_all. reflexivity.
  - pose proof (wire_length cfg bl). lia.
Qed.

(** The round trip at a concrete input. *)
Lemma roundtrip_within_buffer_witness :
  let data := [65; 66; 65; 66; 65; 66; 65; 66] in
  let output := [2; 65; 66; 6; 1] in
  check_options default_cfg = None /\ exor_offset default_cfg = false /\
  bytes_ok data = true /\ Z.of_nat (length data) <= MAX_INPUT /\
  compress default_cfg data = Some output /\
  decode default_cfg (fun _ => 0) output =
    Some (Z.of_nat (length data), mkio [] data []).
Proof.
  intros data output.
  assert (E : compress default_cfg data = Some output) by (vm_compute; reflexivity).
  split; [reflexivity|]. split; [reflexivity|]. split; [reflexivity|].
  split; [vm_compute; discriminate|]. split; [exact E|].
  apply (roundtrip_within_buffer default_cfg data output (fun _ => 0));
    [reflexivity | reflexivity | reflexivity | vm_compute; discriminate | exact E].
Defined.

(** The round trip needs the same offset convention on both sides: the
    encoder has no option to invert offsets, and the decoder's [-x] on a
    stream of this encoder reads the match from the wrong place. *)
Example exor_offset_needs_matching_encoder :
  let cfg_x := {| bits_moff := 8; max_mlen := 255; max_llen := 255;
                  zero_offset := false; offset_rel := -1; exor_offset := true |} in
  compress cfg_x [65; 66; 65; 66; 65; 66; 65; 66] = Some [2; 65; 66; 6; 1] /\
  decode cfg_x (fun _ => 0) [2; 65; 66; 6; 1] =
    Some (8, mkio [] [65; 66; 0; 0; 0; 0; 0; 0] []).
Proof. split; vm_compute; reflexivity. Qed.

(** The other scenarios of the specification, by evaluation: "ABABABAB" is
    a literal of 2 and a match of 6 at offset 2; 300 equal bytes are a
    literal of 1, a match of 255, a zero-length literal and a match of 44
    whose offset is the largest one in the window (field FF); sixteen
    distinct bytes without offsets are one literal of 16. *)
Example scenarios :
  compress default_cfg [65; 66; 65; 66; 65; 66; 65; 66] = Some [2; 65; 66; 6; 1] /\
  compress default_cfg (repeat 85 300) = Some [1; 85; 255; 0; 0; 44; 255] /\
  compress rle_cfg [0; 1; 2; 3; 4; 5; 6; 7; 8; 9; 10; 11; 12; 13; 14; 15] =
    Some [16; 0; 1; 2; 3; 4; 5; 6; 7; 8; 9; 10; 11; 12; 13; 14; 15].
Proof. repeat split; vm_compute; reflexivity. Qed.

(** C1, the code at the failing inputs: with matches limited to one byte
    every block takes at least as many bytes as it stands for, so any
    input of 65536 bytes or more needs more than the 65536 bytes of [buf];
    [add_byte] then stores outside the array and [main] has no defined
    result. *)
Theorem output_buffer_overflow (cfg : Cfg) (data : list Z) :
  check_options cfg = None ->
  max_mlen cfg = 1 ->
  bytes_ok data = true ->
  BUF_SIZE <= Z.of_nat (length data) <= MAX_INPUT ->
  lz8s.main cfg data = Undefined_behaviour.
Proof.
  intros Hc Hm Hb Hs. unfold lz8s.main. rewrite Hc.
  rewrite firstn_all2 by lia.
  destruct (compress cfg data) as [output|] eqn:E; [|reflexivity].
  exfalso. apply check_options_valid in Hc. apply bytes_ok_spec in Hb.
  destruct (compress_parse cfg data Hc Hb ltac:(lia) output E) as (bl & P & -> & F).
  pose proof (parse_wire_min cfg data _ 0 false bl Hm P) as W.
  unfold BUF_SIZE in *.
  destruct (Z.ltb_spec 0 (Z.of_nat (length data))); lia.
Qed.

(** The failing input of C1: 65536 zero bytes with [max_mlen = 1]. *)
Lemma output_buffer_overflow_witness :
  let cfg := {| bits_moff := 8; max_mlen := 1; max_llen := 255;
                zero_offset := false; offset_rel := -1; exor_offset := false |} in
  let data := repeat 0 (Z.to_nat BUF_SIZE) in
  check_options cfg = None /\ max_mlen cfg = 1 /\ bytes_ok data = true /\
  BUF_SIZE <= Z.of_nat (length data) <= MAX_INPUT /\
  lz8s.main cfg data = Undefined_behaviour.
Proof.
  intros cfg data.
  assert (Hb : bytes_ok data = true) by (vm_compute; reflexivity).
  assert (Hs : BUF_SIZE <= Z.of_nat (length data) <= MAX_INPUT)
    by (unfold data; rewrite repeat_length; unfold BUF_SIZE, MAX_INPUT; lia).
  split; [reflexivity|]. split; [reflexivity|]. split; [exact Hb|].
  split; [exact Hs|].
  apply (output_buffer_overflow cfg data); [reflexivity | reflexivity | exact Hb | exact Hs].
Defined.

(** ** Match finder *)

(** C2, as the code has it: [match] returns the length of the longest
    common prefix, capped by [min(max_mlen, size - pos)], that a window
    position [i] in [max(pos - max_off, 0), pos) has with the position
    [pos], the common prefix being read in the bytes of [data]; among
    the window positions that reach it, the first one scanned, which is
    the smallest index and so the largest offset, is the one whose offset
    is returned; with no match of length at least 1 the result is 0 and
    [*mpos] is left as it was. *)
Theorem match_longest_first_scanned (cfg : Cfg) (data : list Z) (pos size mp0 : Z) :
  let cap := Z.min (max_mlen cfg) (size - pos) in
  let lo := Z.max (pos - max_off cfg) 0 in
  let '(ml, mp) := match_ cfg data pos size mp0 in
  0 <= ml /\
  (forall i k, lo <= i < pos -> 0 <= k <= cap ->
     common_prefix data pos i k -> k <= ml) /\
  (1 <= ml ->
     ml <= cap /\
     lo <= pos - mp < pos /\
     common_prefix data pos (pos - mp) ml /\
     (ml < cap -> at_ data (pos + ml) <> at_ data (pos - mp + ml)) /\
     forall i, lo <= i < pos - mp -> ~ common_prefix data pos i ml) /\
  ((forall i, lo <= i < pos -> 1 <= cap -> at_ data pos <> at_ data i) ->
     ml = 0 /\ mp = mp0).
Proof.
  intros cap lo. pose proof (match_scan data cfg pos size mp0) as S.
  cbv zeta in S. fold cap lo in S.
  destruct (match_ cfg data pos size mp0) as [ml mp].
  destruct S as (S0 & S1 & S2 & S3).
  assert (Hwin : 1 <= ml ->
            ml <= cap /\ lo <= pos - mp < pos /\
            common_prefix data pos (pos - mp) ml /\
            (ml < cap -> at_ data (pos + ml) <> at_ data (pos - mp + ml)) /\
            forall i, lo <= i < pos - mp -> ~ common_prefix data pos i ml).
  { intros H1. destruct (S3 H1) as (K1 & K2 & K3).
    pose proof (get_mlen_le data pos (pos - mp) cap) as Hle. rewrite K2 in Hle.
    destruct (get_mlen_spec data pos (pos - mp) cap ltac:(lia)) as (_ & G2 & G3).
    rewrite K2 in G2, G3.
    split; [exact Hle|]. split; [exact K1|]. split; [exact G2|]. split; [exact G3|].
    intros i Hi Hcp. specialize (K3 i Hi).
    destruct (get_mlen_spec data pos i cap ltac:(lia)) as (R1 & _ & R3).
    apply (R3 ltac:(lia)). apply Hcp. lia. }
  split; [exact S0|]. split; [|split; [exact Hwin|]].
  - intros i k Hi Hk Hcp. specialize (S1 i Hi).
    destruct (get_mlen_spec data pos i cap ltac:(lia)) as (R1 & _ & R3).
    destruct (Z.le_gt_cases k (get_mlen data pos i cap)) as [|Hgt]; [lia|].
    exfalso. apply (R3 ltac:(lia)). apply Hcp. lia.
  - intros Hnone.
    assert (ml = 0).
    { destruct (Z.eq_dec ml 0) as [|Hne]; [assumption|].
      destruct (Hwin ltac:(lia)) as (W1 & W2 & W3 & _).
      exfalso. apply (Hnone (pos - mp) W2 ltac:(lia)).
      specialize (W3 0 ltac:(lia)). rewrite !Z.add_0_r in W3. exact W3. }
    split; [assumption | auto].
Qed.

(** C2, counterexample: in "AAA" at position 2 both window positions give
    a match of length 1; the offset returned is 2 (index 0), not the
    smaller offset 1 of the later index. *)
Lemma match_tie_keeps_first_index :
  match_ default_cfg [65; 65; 65] 2 3 0 = (1, 2) /\
  get_mlen [65; 65; 65] 2 1 (Z.min (max_mlen default_cfg) (3 - 2)) = 1 /\
  2 - 1 <> 2.
Proof. split; [reflexivity|]. split; [reflexivity | lia]. Qed.

(** ** The one-byte scenario *)

(** C3, as the code has it: with the default configuration the input "A"
    is written as the two bytes 01 41, a literal block of length 1 with no
    match-length byte after it, and [decode] returns "A" from them. *)
Theorem single_byte_scenario (buf0 : Z -> Z) :
  lz8s.main default_cfg [65] = Exit_success [1; 65] /\
  decode default_cfg buf0 [1; 65] = Some (1, mkio [] [65] []).
Proof. split; reflexivity. Qed.

(** C3, counterexample: the output for "A" is not 01 41 00. *)
Lemma single_byte_has_no_trailer :
  lz8s.main default_cfg [65] <> Exit_success [1; 65; 0].
Proof. vm_compute. discriminate. Qed.

(** ** End of file inside a length *)

(** C4, the code at the failing input: with a limit above 255 and a first
    byte of at least 128, end of file in place of the second byte is not
    reported; [get_len] writes nothing to the error stream and returns the
    first byte less 128 as the length, and the one-byte stream 80 decodes
    as a clean end of file. *)
Theorem second_byte_eof_unreported (cfg : Cfg) (buf0 : Z -> Z) (c : Z)
    (o : list Z) (e : list string) :
  255 < max_llen cfg -> 128 <= c < 256 ->
  get_len (max_llen cfg) (mkio [c] o e) = (c - 128, mkio [] o e) /\
  decode cfg buf0 [128] = Some (0, mkio [] [] []).
Proof.
  intros Hm Hc.
  assert (G : forall c' o' e', 128 <= c' < 256 ->
            get_len (max_llen cfg) (mkio [c'] o' e') = (c' - 128, mkio [] o' e')).
  { intros c' o' e' Hc'. unfold get_len, getchar, mkio. cbn [stdin stdout stderr].
    destruct (Z.eqb_spec c' EOF) as [E|_]; [unfold EOF in E; lia|].
    destruct (Z.ltb_spec (max_llen cfg) 256); [lia|].
    destruct (Z.ltb_spec c' 128); [lia|]. cbn [orb].
    change (Z.shiftl EOF 7) with (-128). f_equal. }
  split; [apply G; assumption|].
  unfold decode. cbn [length decode_loop]. unfold decode_literal. cbn [dio].
  change {| stdin := [128]; stdout := []; stderr := [] |} with (mkio [128] [] []).
  rewrite G by lia. reflexivity.
Qed.

(** C4 at the limit 300: the lone byte C8 is read as the length 72. *)
Lemma second_byte_eof_unreported_witness :
  let cfg := {| bits_moff := 8; max_mlen := 255; max_llen := 300;
                zero_offset := false; offset_rel := -1; exor_offset := false |} in
  255 < max_llen cfg /\ 128 <= 200 < 256 /\
  get_len (max_llen cfg) (mkio [200] [] []) = (72, mkio [] [] []) /\
  decode cfg (fun _ => 0) [128] = Some (0, mkio [] [] []).
Proof.
  intros cfg. split; [cbn; lia|]. split; [lia|].
  apply (second_byte_eof_unreported cfg (fun _ => 0) 200 [] []); cbn; lia.
Defined.

(** ** Truncated streams *)

(** C5, as the code has it by design: when offsets take at least one byte
    ([bits_moff >= 1]) every non-empty output ends inside a block, and
    [decode] on the output less its last byte reports a short file
    (reading a literal, or reading a match offset) and has written a
    proper prefix of the input, whose length it returns. *)
Theorem truncation_reported (cfg : Cfg) (data output : list Z) (buf0 : Z -> Z) :
  check_options cfg = None ->
  exor_offset cfg = false ->
  1 <= bits_moff cfg ->
  bytes_ok data = true ->
  Z.of_nat (length data) <= MAX_INPUT ->
  compress cfg data = Some output ->
  output <> [] ->
  exists k msg,
    decode cfg buf0 (removelast output) =
      Some (k, mkio [] (firstn (Z.to_nat k) data) [msg]) /\
    0 <= k < Z.of_nat (length data) /\
    (msg = msg_literal \/ msg = msg_offset).
Proof.
  intros Hc Hx Hbits Hb Hs E Hne.
  apply check_options_valid in Hc. apply bytes_ok_spec in Hb.
  destruct (compress_parse cfg data Hc Hb Hs output E) as (bl & P & -> & _).
  assert (Hbl : bl <> []) by (intros ->; apply Hne; reflexivity).
  destruct (parse_closing cfg data _ Hc _ _ _ P Hbl)
    as (bl0 & b & pos' & il' & -> & R & C).
  assert (Hwb : wire_block cfg b <> []).
  { pose proof (wire_length cfg [b]) as L. unfold wire in L. cbn in L.
    rewrite app_nil_r in L. intros Hn. rewrite Hn in L. cbn in L. lia. }
  rewrite wire_snoc, removelast_app by exact Hwb.
  unfold decode.
  destruct (decode_run cfg data _ Hc Hx Hb Hs _ _ _ _ _ R
              {| dio := {| stdin := wire cfg bl0 ++ removelast (wire_block cfg b);
                           stdout := []; stderr := [] |};
                 dbuf := buf0; dpos := 0 |}
              (removelast (wire_block cfg b))
              (S (length (wire cfg bl0 ++ removelast (wire_block cfg b)))))
    as (st' & f' & S' & F' & Ph).
  { apply synced_start. lia. }
  { pose proof (wire_length cfg bl0). rewrite length_app. lia. }
  assert (Hf' : (1 <= f')%nat).
  { pose proof (wire_length cfg bl0). rewrite length_app in F'. lia. }
  cbn [phase] in Ph. rewrite Ph. clear Ph.
  destruct C as [(-> & Hp & ln & Hl & Hle & ->) | (-> & ml & mp & M & Hle & ->)];
    cbn [phase].
  - rewrite (truncated_literal cfg data _ Hc Hb Hs pos' ln st' f' Hl Hle Hf' S').
    exists (Z.of_nat (length data) - 1), msg_literal.
    rewrite slice_firstn by lia. split; [reflexivity|]. split; [lia | left; reflexivity].
  - rewrite (truncated_match cfg data _ Hc Hs pos' ml mp st' f' Hbits M S').
    destruct M as (M1 & _ & M3 & M4 & _).
    exists pos', msg_offset.
    rewrite slice_firstn by lia. split; [reflexivity|]. split; [lia | right; reflexivity].
Qed.

(** C5 on "ABABABAB": without the offset byte of the closing match, the
    decoder reports a short file after writing "AB". *)
Lemma truncation_reported_witness :
  let data := [65; 66; 65; 66; 65; 66; 65; 66] in
  let output := [2; 65; 66; 6; 1] in
  check_options default_cfg = None /\ exor_offset default_cfg = false /\
  1 <= bits_moff default_cfg /\ bytes_ok data = true /\
  Z.of_nat (length data) <= MAX_INPUT /\
  compress default_cfg data = Some output /\ output <> [] /\
  exists k msg,
    decode default_cfg (fun _ => 0) (removelast output) =
      Some (k, mkio [] (firstn (Z.to_nat k) data) [msg]) /\
    0 <= k < Z.of_nat (length data) /\
    (msg = msg_literal \/ msg = msg_offset).
Proof.
  intros data output.
  assert (E : compress default_cfg data = Some output) by (vm_compute; reflexivity).
  split; [reflexivity|]. split; [reflexivity|]. split; [cbn; lia|].
  split; [reflexivity|]. split; [vm_compute; discriminate|].
  split; [exact E|]. split; [discriminate|].
  apply (truncation_reported default_cfg data output (fun _ => 0));
    [reflexivity | reflexivity | cbn; lia | reflexivity
    | vm_compute; discriminate | exact E | discriminate].
Defined.

(** C5, counterexample: with [bits_moff = 0] the input "AAAA" is coded as
    01 41 03, which ends with the length byte of a match; without that byte
    the stream ends at a block boundary, and [decode] returns the prefix "A"
    and reports nothing. *)
Lemma truncation_missed_without_offsets :
  check_options rle_cfg = None /\
  compress rle_cfg [65; 65; 65; 65] = Some [1; 65; 3] /\
  decode rle_cfg (fun _ => 0) (removelast [1; 65; 3]) =
    Some (1, mkio [] [65] []).
Proof. split; [reflexivity|]. split; vm_compute; reflexivity. Qed.

(** ** Oversized input *)

(** C6, as the code has it: no input is rejected for its size; [main]
    reads at most 128 KiB and compresses those bytes, so an input and its
    first 131072 bytes give the same result, and with accepted options
    that result is never the error exit. *)
Theorem oversized_input_truncated (cfg : Cfg) (input : list Z) :
  lz8s.main cfg input = lz8s.main cfg (firstn (Z.to_nat MAX_INPUT) input) /\
  (check_options cfg = None ->
   forall msg, lz8s.main cfg input <> Exit_failure msg).
Proof.
  split.
  - unfold lz8s.main. rewrite firstn_idem. reflexivity.
  - intros Hc msg. unfold lz8s.main. rewrite Hc.
    destruct (compress cfg (firstn (Z.to_nat MAX_INPUT) input)); discriminate.
Qed.

(** C6, counterexample: an input of 131073 zero bytes is not rejected; it
    is handled exactly as its first 131072 bytes are. *)
Lemma oversized_input_not_rejected :
  Z.of_nat (length (repeat 0 (Z.to_nat MAX_INPUT + 1))) > MAX_INPUT /\
  lz8s.main default_cfg (repeat 0 (Z.to_nat MAX_INPUT + 1)) =
    lz8s.main default_cfg (repeat 0 (Z.to_nat MAX_INPUT)) /\
  forall msg, lz8s.main default_cfg (repeat 0 (Z.to_nat MAX_INPUT + 1))
              <> Exit_failure msg.
Proof.
  split; [rewrite repeat_length; lia|]. split.
  - unfold lz8s.main. change (check_options default_cfg) with (@None string).
    cbv iota. rewrite firstn_repeat_more.
    rewrite <- (repeat_length 0 (Z.to_nat MAX_INPUT)) at 2.
    rewrite firstn_all. reflexivity.
  - intros msg. unfold lz8s.main.
    change (check_options default_cfg) with (@None string). cbv iota.
    destruct (compress default_cfg _); discriminate.
Qed.

(** ** Length fields *)

(** C7: for a limit in [1, 32895] and a length [L] up to the limit, the
    encoder writes the two-byte form [0x80 | (L & 0x7F)], [(L >> 7) - 1]
    when the limit is above 255 and [L >= 128], the single byte [L]
    otherwise: with room for them in the buffer [add_len] appends exactly
    these bytes (without room it stores outside the buffer), and [get_len]
    reads [L] back from them. *)
Theorem length_field_inverse (mx L : Z) (b : bf) (rest o : list Z)
    (e : list string) :
  1 <= mx <= 32895 -> 0 <= L <= mx ->
  exists written,
    (255 < mx -> 128 <= L ->
       written = [Z.lor 128 (Z.land L 127); Z.shiftr L 7 - 1]) /\
    (mx <= 255 \/ L < 128 -> written = [L]) /\
    (len b + Z.of_nat (length written) <= BUF_SIZE ->
       add_len b mx L
       = Some {| buf := buf b ++ written; total := total b; out := out b |}) /\
    (BUF_SIZE < len b + Z.of_nat (length written) -> add_len b mx L = None) /\
    get_len mx (mkio (written ++ rest) o e) = (L, mkio rest o e).
Proof.
  intros Hm HL. exists (len_field mx L).
  split; [|split; [|split; [|split]]].
  - intros H1 H2. unfold len_field.
    destruct (Z.leb_spec mx 255); [lia|]. destruct (Z.ltb_spec L 128); [lia|].
    reflexivity.
  - intros H. unfold len_field.
    destruct (Z.leb_spec mx 255); [reflexivity|].
    destruct (Z.ltb_spec L 128); [reflexivity | lia].
  - intros Hroom.
    destruct (add_len b mx L) as [b'|] eqn:E.
    + pose proof (add_len_buf b b' mx L ltac:(lia) ltac:(lia) E) as B.
      pose proof (add_len_out b b' mx L E) as [O _].
      pose proof (add_len_total b b' mx L E) as T.
      destruct b' as [bb bt bo]. cbn [buf total out] in B, O, T. subst. reflexivity.
    + exfalso. revert E Hroom. unfold add_len, add_byte, len_field.
      destruct (Z.gtb_spec L 127); destruct (Z.gtb_spec mx 255);
        destruct (Z.leb_spec mx 255); destruct (Z.ltb_spec L 128);
        cbn [andb orb length]; try lia;
        destruct (Z.ltb_spec (len b) BUF_SIZE); try discriminate; try lia.
      unfold len. cbn [buf]. rewrite length_app. cbn [length].
      match goal with |- context [Z.ltb ?x ?y] => destruct (Z.ltb_spec x y) end;
        try discriminate.
      unfold len in *. lia.
  - intros Hfull. unfold add_len, add_byte. revert Hfull. unfold len_field.
    destruct (Z.gtb_spec L 127); destruct (Z.gtb_spec mx 255);
      destruct (Z.leb_spec mx 255); destruct (Z.ltb_spec L 128);
      cbn [andb orb length]; try lia; intros Hfull;
      destruct (Z.ltb_spec (len b) BUF_SIZE); try reflexivity; try lia.
    unfold len. cbn [buf]. rewrite length_app. cbn [length].
    match goal with |- context [Z.ltb ?x ?y] => destruct (Z.ltb_spec x y) end;
      [|reflexivity].
    unfold len in *. lia.
  - apply get_len_field; lia.
Qed.

(** C7 at the limit 300 and the length 200: the bytes C8 00. *)
Lemma length_field_inverse_witness :
  let b := {| buf := [1; 65]; total := 0; out := [] |} in
  1 <= 300 <= 32895 /\ 0 <= 200 <= 300 /\
  exists written,
    (255 < 300 -> 128 <= 200 ->
       written = [Z.lor 128 (Z.land 200 127); Z.shiftr 200 7 - 1]) /\
    (300 <= 255 \/ 200 < 128 -> written = [200]) /\
    (len b + Z.of_nat (length written) <= BUF_SIZE ->
       add_len b 300 200
       = Some {| buf := buf b ++ written; total := total b; out := out b |}) /\
    (BUF_SIZE < len b + Z.of_nat (length written) -> add_len b 300 200 = None) /\
    get_len 300 (mkio (written ++ [7]) [] []) = (200, mkio [7] [] []).
Proof.
  intros b.
  split; [lia|]. split; [lia|].
  apply (length_field_inverse 300 200 b [7] [] []); lia.
Defined.

(** ** Alternation of blocks *)



(** ** The empty input *)

(** C9: the empty input gives an empty output, and [decode] of the empty
    stream returns 0 without any message; on every stream the value that
    [decode] returns is the number of bytes it has written (below 2^31,
    where the [unsigned] count and the returned [int] agree). *)
Theorem empty_input (cfg : Cfg) (buf0 : Z -> Z) :
  compress cfg [] = Some [] /\
  decode cfg buf0 [] = Some (0, mkio [] [] []) /\
  (forall input r s,
     decode cfg buf0 input = Some (r, s) ->
     Z.of_nat (length (stdout s)) < 2147483648 ->
     r = Z.of_nat (length (stdout s))).
Proof.
  split; [reflexivity|]. split; [reflexivity|].
  intros input r s E Hlt. unfold decode in E.
  apply decode_loop_count in E; [|reflexivity].
  rewrite E, Z.mod_small by lia.
  unfold to_int. destruct (Z.ltb_spec (Z.of_nat (length (stdout s))) 2147483648); lia.
Qed.

(** ** No validation in the decoder *)

(** C10: [decode] checks nothing but the end of its input.
    - On every stream of bytes it comes to an end only when the input is
      used up, and what it leaves on the error stream is nothing or one of
      the two "short file" messages.
    - Whatever literal length [get_len] returns is taken: when that many
      bytes follow they are all copied to the output, with no comparison
      to [max_llen].
    - Whatever match length [get_len] returns and whatever offset is read,
      that many bytes are copied from the window, with no comparison to
      [max_mlen] and no check of the offset. *)
Theorem decoder_checks_only_eof (cfg : Cfg) (buf0 : Z -> Z) :
  (forall input,
     bytes_ok input = true ->
     exists r s,
       decode cfg buf0 input = Some (r, s) /\ stdin s = [] /\
       (stderr s = [] \/ stderr s = [msg_literal] \/ stderr s = [msg_offset])) /\
  (forall st n s bs rest,
     get_len (max_llen cfg) (dio st) = (n, s) ->
     stdin s = bs ++ rest -> Z.of_nat (length bs) = n -> bytes_ok bs = true ->
     exists st',
       decode_literal cfg st = Next st' /\
       stdin (dio st') = rest /\
       stdout (dio st') = stdout s ++ bs /\
       stderr (dio st') = stderr s) /\
  (forall st n s off s',
     get_len (max_mlen cfg) (dio st) = (n, s) -> 0 <= n ->
     zero_offset cfg || negb (n =? 0) = true ->
     read_offset cfg {| dio := s; dbuf := dbuf st; dpos := dpos st |} = inr (off, s') ->
     exists st',
       decode_match cfg st = Next st' /\
       stdin (dio st') = stdin s' /\
       stderr (dio st') = stderr s' /\
       length (stdout (dio st')) = (length (stdout s') + Z.to_nat n)%nat).
Proof.
  split; [|split].
  - intros input Hb. apply bytes_ok_spec in Hb. unfold decode.
    apply decode_loop_any; cbn [dio stdin stderr]; [lia | exact Hb | reflexivity].
  - intros st n s bs rest G E Hn Hb. apply bytes_ok_spec in Hb.
    unfold decode_literal. rewrite G.
    destruct (Z.ltb_spec n 0); [lia|].
    rewrite <- Hn, Nat2Z.id.
    destruct (copy_literal_bytes (mask_of cfg) bs
                {| dio := s; dbuf := dbuf st; dpos := dpos st |} rest Hb E)
      as (st' & C & I1 & I2 & I3).
    exists st'. repeat split; assumption.
  - intros st n s off s' G Hn Hz R.
    unfold decode_match. rewrite G.
    destruct (Z.ltb_spec n 0); [lia|].
    rewrite Hz, R.
    eexists. split; [reflexivity|].
    match goal with |- context [copy_match ?m ?k ?o ?st2] =>
      destruct (copy_match_any cfg k o st2) as (C1 & C2 & C3) end.
    rewrite C1, C2, C3. cbn [dio]. repeat split; reflexivity.
Qed.

(** With both limits at 4: a literal of 6 bytes is copied in full, and a
    match of length 9 at an offset that reaches before the start of the
    output copies 9 bytes of the window as it was. *)
Example lengths_and_offsets_unchecked :
  let cfg := {| bits_moff := 8; max_mlen := 4; max_llen := 4;
                zero_offset := false; offset_rel := -1; exor_offset := false |} in
  decode cfg (fun _ => 0) [6; 1; 2; 3; 4; 5; 6] =
    Some (6, mkio [] [1; 2; 3; 4; 5; 6] []) /\
  decode cfg (fun _ => 7) [1; 65; 9; 200] =
    Some (10, mkio [] [65; 7; 7; 7; 7; 7; 7; 7; 7; 7] []).
Proof. split; vm_compute; reflexivity. Qed.

(** * Further properties of the code

    Properties of the two programs beyond the claims of the specification,
    each read off the source: the option checks, the reads of the match
    finder, the cost functions against the bytes written, the parsing
    table, the emitted blocks, the room in the output buffer, and the
    decoder on streams of any origin. *)

(** ** The option checks *)

(** X1: both programs accept exactly the options within these bounds: the two
    length limits in [1, 32895], the offset bits in [0, 16], and a relative
    address that is not negative only with 8-bit offsets (then at most 255)
    or with 16-bit offsets (then at most 65535).  A negative address passes
    with any number of offset bits: it means that [-A] is not in use. *)
Theorem options_accepted_iff (cfg : Cfg) :
  check_options cfg = None <->
  1 <= max_mlen cfg <= 32895 /\ 1 <= max_llen cfg <= 32895 /\
  0 <= bits_moff cfg <= 16 /\
  (0 <= offset_rel cfg ->
   (bits_moff cfg = 8 /\ offset_rel cfg <= 255) \/
   (bits_moff cfg = 16 /\ offset_rel cfg <= 65535)).
Proof.
  rewrite check_options_valid. split.
  - intros [H1 H2 H3 H4]. repeat split; lia.
  - intros (H1 & H2 & H3 & H4). constructor; try assumption.
    destruct (Z.lt_ge_cases (offset_rel cfg) 0) as [Hn|Hp]; [left; exact Hn|].
    right. apply H4. exact Hp.
Qed.

(** ** The reads of the match finder *)

Lemma read_in (data : list Z) (i : Z) :
  0 <= i < Z.of_nat (length data) -> read data i = Some (at_ data i).
Proof.
  intros H. unfold read.
  destruct (Z.leb_spec 0 i); [|lia].
  destruct (Z.ltb_spec i (Z.of_nat (length data))); [reflexivity | lia].
Qed.

Lemma get_mlen_loop_checked_ok (data : list Z) (a b mx : Z) (n : nat) (i : Z) :
  0 <= a -> 0 <= b -> 0 <= i ->
  a + i + Z.of_nat n <= Z.of_nat (length data) ->
  b + i + Z.of_nat n <= Z.of_nat (length data) ->
  get_mlen_loop_checked data a b mx n i = Some (get_mlen_loop data a b mx n i).
Proof.
  revert i. induction n as [|n IH]; intros i Ha Hb Hi H1 H2;
    cbn [get_mlen_loop_checked get_mlen_loop]; [reflexivity|].
  rewrite !read_in by lia.
  destruct (at_ data (a + i) =? at_ data (b + i)); [|reflexivity].
  apply IH; lia.
Qed.

Lemma get_mlen_checked_ok (data : list Z) (a b mx : Z) :
  0 <= a -> 0 <= b ->
  a + mx <= Z.of_nat (length data) -> b + mx <= Z.of_nat (length data) ->
  get_mlen_checked data a b mx = Some (get_mlen data a b mx).
Proof.
  intros Ha Hb H1 H2. unfold get_mlen_checked, get_mlen.
  destruct (Z.le_gt_cases 0 mx).
  - apply get_mlen_loop_checked_ok; lia.
  - replace (Z.to_nat mx) with O by lia. reflexivity.
Qed.

Lemma match_loop_checked_ok (data : list Z) (pos mxlen : Z) (n : nat)
    (i mlen mpos : Z) :
  0 <= i -> i + Z.of_nat n <= pos ->
  pos + mxlen <= Z.of_nat (length data) ->
  match_loop_checked data pos mxlen n i mlen mpos =
  Some (match_loop data pos mxlen n i mlen mpos).
Proof.
  revert i mlen mpos. induction n as [|n IH]; intros i mlen mpos Hi Hn Hm;
    cbn [match_loop_checked match_loop]; [reflexivity|].
  rewrite get_mlen_checked_ok by lia.
  destruct (get_mlen data pos i mxlen >? mlen).
  - destruct (get_mlen data pos i mxlen >=? mxlen); [reflexivity | apply IH; lia].
  - apply IH; lia.
Qed.

(** X2: [match] never reads outside the input.  At every position of an
    input of [size] bytes, whatever the options, each [a[i]] and [b[i]] that
    [get_mlen] compares lies inside the array: the functions with every
    read checked return what [match] returns. *)
Theorem match_reads_inside (cfg : Cfg) (data : list Z) (pos size mp0 : Z) :
  0 <= pos <= size -> size <= Z.of_nat (length data) ->
  match_checked cfg data pos size mp0 = Some (match_ cfg data pos size mp0).
Proof.
  intros Hp Hs. unfold match_checked, match_. rewrite !max_spec.
  destruct (Z.le_gt_cases (Z.max (pos - max_off cfg) 0) pos).
  - apply match_loop_checked_ok; lia.
  - replace (Z.to_nat (pos - Z.max (pos - max_off cfg) 0)) with O by lia.
    reflexivity.
Qed.

(** X2 on "ABABABAB" at position 2. *)
Lemma match_reads_inside_witness :
  0 <= 2 <= 8 /\ 8 <= Z.of_nat (length [65; 66; 65; 66; 65; 66; 65; 66]) /\
  match_checked default_cfg [65; 66; 65; 66; 65; 66; 65; 66] 2 8 0 =
  Some (match_ default_cfg [65; 66; 65; 66; 65; 66; 65; 66] 2 8 0).
Proof.
  split; [lia|]. split; [cbn; lia|].
  apply (match_reads_inside default_cfg [65; 66; 65; 66; 65; 66; 65; 66] 2 8 0);
    [lia | cbn; lia].
Defined.

(** ** The cost functions and the bytes written *)

Lemma add_byte_len (b b' : bf) (x : Z) :
  add_byte b x = Some b' -> len b' = len b + 1.
Proof.
  intros E. apply add_byte_buf in E. unfold len. rewrite E, length_app. cbn. lia.
Qed.

Lemma add_len_len (b b' : bf) (mx x : Z) :
  add_len b mx x = Some b' ->
  len b' = len b + (if (x >? 127) && (mx >? 255) then 2 else 1).
Proof.
  unfold add_len. destruct ((x >? 127) && (mx >? 255)).
  - destruct (add_byte b (Z.land (Z.lor 128 x) 255)) as [b1|] eqn:E1; [|discriminate].
    intros E2. apply add_byte_len in E1, E2. lia.
  - apply add_byte_len.
Qed.

Lemma code_match_len (cfg : Cfg) (b b' : bf) (ln off : Z) :
  code_match cfg b ln off = Some b' ->
  len b' = len b + (if (ln >? 127) && (max_mlen cfg >? 255) then 2 else 1)
         + (if negb (ln =? 0) || zero_offset cfg
            then (if bits_moff cfg =? 0 then 0 else 1)
                 + (if bits_moff cfg >? 8 then 1 else 0)
            else 0).
Proof.
  unfold code_match.
  destruct (add_len b (max_mlen cfg) ln) as [b1|] eqn:E1; [|discriminate].
  apply add_len_len in E1.
  destruct (negb (ln =? 0) || zero_offset cfg).
  - destruct (bits_moff cfg =? 0); cbn [negb].
    + destruct (bits_moff cfg >? 8).
      * intros E. apply add_byte_len in E. lia.
      * intros E. inversion E; subst. lia.
    + destruct (add_byte b1 (Z.land off 255)) as [b2|] eqn:E2; [|discriminate].
      apply add_byte_len in E2.
      destruct (bits_moff cfg >? 8).
      * intros E. apply add_byte_len in E. lia.
      * intros E. inversion E; subst. lia.
  - intros E. inversion E; subst. lia.
Qed.

(** X3: [code_match] writes what the cost functions count.  With four
    free bytes in the buffer the call stores every byte inside it; a
    zero-length match takes [zero_match_cost] bits of the buffer; a match
    of a length in [1, max_mlen] whose offset [mp] is in [1, max_off] takes
    [mlen_cost ln + moff_cost mp] bits, whatever offset field is written. *)
Theorem match_block_cost (cfg : Cfg) (b : bf) (ln off : Z) :
  check_options cfg = None ->
  (len b + 4 <= BUF_SIZE -> exists b', code_match cfg b ln off = Some b') /\
  forall b', code_match cfg b ln off = Some b' ->
    (ln = 0 -> 8 * (len b' - len b) = zero_match_cost cfg) /\
    (forall mp, 1 <= ln <= max_mlen cfg -> 1 <= mp <= max_off cfg ->
       8 * (len b' - len b) = mlen_cost cfg ln + moff_cost cfg mp).
Proof.
  intros Hc. split.
  { intros Hroom. destruct (code_match_ok cfg b ln off Hroom) as (b' & E & _).
    exists b'. exact E. }
  intros b' E.
  apply check_options_valid in Hc. destruct Hc as [Hm Hl Hb Hr].
  apply code_match_len in E. rewrite E. clear E.
  pose proof (max_off_pos cfg ltac:(lia)) as Hmo.
  split.
  - intros ->. unfold zero_match_cost, mlen_cost, moff_cost.
    change (0 >? 127) with false. change (0 =? 0) with true. cbn [andb negb orb].
    destruct (zero_offset cfg); zcases; lia.
  - intros mp H1 H2. unfold mlen_cost, moff_cost.
    destruct (Z.eqb_spec ln 0); [lia|]. cbn [negb orb].
    zcases; lia.
Qed.

(** X3 on a match of 6 bytes with the default options: two bytes. *)
Lemma match_block_cost_witness :
  let b := {| buf := []; total := 0; out := [] |} in
  let b' := {| buf := [6; 1]; total := 0; out := [] |} in
  check_options default_cfg = None /\
  code_match default_cfg b 6 1 = Some b' /\
  (len b + 4 <= BUF_SIZE -> exists b', code_match default_cfg b 6 1 = Some b') /\
  forall b', code_match default_cfg b 6 1 = Some b' ->
    (6 = 0 -> 8 * (len b' - len b) = zero_match_cost default_cfg) /\
    (forall mp, 1 <= 6 <= max_mlen default_cfg -> 1 <= mp <= max_off default_cfg ->
       8 * (len b' - len b) = mlen_cost default_cfg 6 + moff_cost default_cfg mp).
Proof.
  intros b b'. split; [reflexivity|]. split; [reflexivity|].
  apply (match_block_cost default_cfg b 6 1); reflexivity.
Defined.

(** X4: the header that [lzop_encode] writes for a literal of [ln] bytes, [ln]
    in [1, max_llen], is stored inside the buffer when two bytes are free,
    and takes [llen_cost ln] bits of the buffer. *)
Theorem literal_header_cost (cfg : Cfg) (b : bf) (ln : Z) :
  1 <= ln <= max_llen cfg ->
  (len b + 2 <= BUF_SIZE -> exists b', add_len b (max_llen cfg) ln = Some b') /\
  forall b', add_len b (max_llen cfg) ln = Some b' ->
    8 * (len b' - len b) = llen_cost cfg ln.
Proof.
  intros Hl. split.
  { intros Hroom. destruct (add_len_ok b (max_llen cfg) ln Hroom) as (b' & E & _).
    exists b'. exact E. }
  intros b' E. apply add_len_len in E. rewrite E. clear E.
  unfold llen_cost. destruct (Z.eqb_spec ln 0); [lia|].
  replace (Z.to_nat ln) with (S (Z.to_nat (ln - 1))) by lia.
  cbn [llen_cost_loop]. destruct (Z.gtb_spec ln (max_llen cfg)); [lia|].
  rewrite andb_comm. destruct ((max_llen cfg >? 255) && (ln >? 127)); lia.
Qed.

(** X4 at the limit 300 and the length 200: two bytes. *)
Lemma literal_header_cost_witness :
  let cfg := {| bits_moff := 8; max_mlen := 255; max_llen := 300;
                zero_offset := false; offset_rel := -1; exor_offset := false |} in
  let b := {| buf := []; total := 0; out := [] |} in
  let b' := {| buf := [200; 0]; total := 0; out := [] |} in
  1 <= 200 <= max_llen cfg /\
  add_len b (max_llen cfg) 200 = Some b' /\
  (len b + 2 <= BUF_SIZE -> exists b', add_len b (max_llen cfg) 200 = Some b') /\
  forall b', add_len b (max_llen cfg) 200 = Some b' ->
    8 * (len b' - len b) = llen_cost cfg 200.
Proof.
  intros cfg b b'. split; [cbn; lia|]. split; [reflexivity|].
  apply (literal_header_cost cfg b 200); cbn; lia.
Defined.

(** X5: the loop of [llen_cost] in closed form.  A literal of [l >= 1] bytes
    is counted as [(l - 1) / max_llen] full runs, each with one header byte
    and a zero-length match, and a last run of [(l - 1) mod max_llen + 1]
    bytes whose header takes a second byte above 127 when the limit is
    above 255. *)
Theorem llen_cost_closed_form (cfg : Cfg) (l : Z) :
  check_options cfg = None -> 1 <= l ->
  llen_cost cfg l =
    8 + ((l - 1) / max_llen cfg) * (8 + zero_match_cost cfg)
      + two_byte (max_llen cfg) ((l - 1) mod max_llen cfg + 1).
Proof.
  intros Hc Hl. apply check_options_valid in Hc.
  destruct (llen_cost_spec cfg Hc l Hl) as (q & r & Hq & Hr & El & E).
  destruct Hc as [_ Hm _ _].
  assert (Hq' : (l - 1) / max_llen cfg = q).
  { symmetry. apply (Z.div_unique (l - 1) (max_llen cfg) q (r - 1)); lia. }
  assert (Hr' : (l - 1) mod max_llen cfg = r - 1).
  { symmetry. apply (Z.mod_unique (l - 1) (max_llen cfg) q (r - 1)); lia. }
  rewrite Hq', Hr', E. f_equal. f_equal. lia.
Qed.

(** X5 on a literal of 600 bytes with the default options. *)
Lemma llen_cost_closed_form_witness :
  check_options default_cfg = None /\ 1 <= 600 /\
  llen_cost default_cfg 600 =
    8 + ((600 - 1) / max_llen default_cfg) * (8 + zero_match_cost default_cfg)
      + two_byte (max_llen default_cfg) ((600 - 1) mod max_llen default_cfg + 1).
Proof.
  split; [reflexivity|]. split; [lia|].
  apply (llen_cost_closed_form default_cfg 600); [reflexivity | lia].
Defined.

(** ** The parsing table after [lzop_backfill] *)

(** X6: the table that [lzop_backfill] leaves is sound at every position [p]
    of the input: the literal length is in [1, size - p], the literal cost
    is finite, and a finite match cost comes with a true match, of a length
    in [1, max_mlen] that stays inside the input and an offset in
    [1, min(p, max_off)] at which the same bytes are found. *)
Theorem backfill_table_sound (cfg : Cfg) (data : list Z) (p : Z) :
  check_options cfg = None ->
  Z.of_nat (length data) <= MAX_INPUT ->
  0 <= p < Z.of_nat (length data) ->
  let size := Z.of_nat (length data) in
  let c := sp (lzop_backfill cfg (lzop_init data size)) p in
  1 <= llen c <= size - p /\
  lbits c < INFINITE_COST /\
  (mbits c < INFINITE_COST ->
     1 <= mlen c <= max_mlen cfg /\ p + mlen c <= size /\
     1 <= mpos c <= p /\ mpos c <= max_off cfg /\
     forall k, 0 <= k < mlen c -> at_ data (p + k) = at_ data (p - mpos c + k)).
Proof.
  intros Hc Hs Hp size c. apply check_options_valid in Hc.
  destruct (backfill_table cfg data Hc Hs) as [T _].
  destruct (T p Hp) as (L & B & M). fold size in L, B, M. fold c in L, B, M.
  split; [exact L|]. split.
  - assert (INFINITE_COST = 8388607) by reflexivity.
    unfold MAX_INPUT in Hs. lia.
  - intros Hfin. destruct (M Hfin) as (M1 & M2 & M3 & M4 & M5 & M6).
    repeat split; try lia. exact M6.
Qed.

(** X6 on "ABABABAB" at position 2. *)
Lemma backfill_table_sound_witness :
  let data := [65; 66; 65; 66; 65; 66; 65; 66] in
  check_options default_cfg = None /\
  Z.of_nat (length data) <= MAX_INPUT /\
  0 <= 2 < Z.of_nat (length data) /\
  let size := Z.of_nat (length data) in
  let c := sp (lzop_backfill default_cfg (lzop_init data size)) 2 in
  1 <= llen c <= size - 2 /\
  lbits c < INFINITE_COST /\
  (mbits c < INFINITE_COST ->
     1 <= mlen c <= max_mlen default_cfg /\ 2 + mlen c <= size /\
     1 <= mpos c <= 2 /\ mpos c <= max_off default_cfg /\
     forall k, 0 <= k < mlen c -> at_ data (2 + k) = at_ data (2 - mpos c + k)).
Proof.
  intros data.
  split; [reflexivity|]. split; [vm_compute; discriminate|].
  split; [cbn; lia|].
  apply (backfill_table_sound default_cfg data 2);
    [reflexivity | vm_compute; discriminate | cbn; lia].
Defined.

Section Candidates.
Variable cfg : Cfg.
Hypothesis Hv : valid_cfg cfg.
Variable data : list Z.
Variable size : Z.
Hypothesis Hsize : size <= MAX_INPUT.

(** The third loop keeps [cur->mbits] equal to [bestm], which never grows. *)
Lemma match_len_loop_best (sp : table) (pos mp : Z) (n : nat) (l bm cl bm' cb' cl' : Z) :
  match_len_loop cfg sp pos mp n l bm bm cl = (bm', cb', cl') ->
  cb' = bm' /\ bm' <= bm.
Proof.
  revert l bm cl. induction n as [|n IH]; intros l bm cl E; cbn [match_len_loop] in E.
  - inversion E; subst. lia.
  - revert E. zcases; intros E; apply IH in E; lia.
Qed.

Lemma match_len_loop_S (sp : table) (pos mp : Z) (n : nat) (l bm cb cl : Z) :
  match_len_loop cfg sp pos mp (S n) l bm cb cl =
  let nxt := sp (pos + l) in
  let mb := mbits nxt + llen_cost cfg 1 + moff_cost cfg mp + mlen_cost cfg l in
  let lb := lbits nxt + moff_cost cfg mp + mlen_cost cfg l in
  let '(bestm, cm_bits, cm_len) :=
    if lb <=? bm then (lb, lb, l) else (bm, cb, cl) in
  let '(bestm, cm_bits, cm_len) :=
    if mb <=? bestm then (mb, mb, l) else (bestm, cm_bits, cm_len) in
  match_len_loop cfg sp pos mp n (l + 1) bestm cm_bits cm_len.
Proof. reflexivity. Qed.

(** The cell that [lzop_backfill] computes at [pos] keeps a match exactly
    when [match] finds one. *)
Lemma backfill_at_candidate (sp : table) (pos : Z) :
  0 <= pos < size -> table_ok cfg data size sp (pos + 1) ->
  let c := backfill_at cfg data size sp pos pos in
  let m := match_ cfg data pos size 0 in
  mpos c = snd m /\
  (mbits c < INFINITE_COST <-> 1 <= fst m) /\
  (1 <= fst m -> 1 <= mlen c <= fst m).
Proof.
  intros Hp T c m. subst c m. unfold backfill_at.
  destruct (lit_lit_loop cfg sp pos size 5 1 0 INFINITE_COST 0) as [[ml cb] cl].
  destruct (lit_match_loop cfg sp pos (Z.to_nat (ml - 1)) 1 cb cl) as [cb2 cl2].
  pose proof (match_valid data cfg pos size 0 Hp) as MV.
  destruct (match_ cfg data pos size 0) as [mlm mp]. destruct MV as [M0 MV].
  cbn [fst snd].
  destruct (match_len_loop cfg sp pos mp (Z.to_nat (mlm + 1 - min_mlen))
              min_mlen INFINITE_COST INFINITE_COST (mlen (sp pos)))
    as [[bm cmb] cml] eqn:E3.
  unfold set_st. rewrite Z.eqb_refl. cbn [lbits llen mbits mlen mpos].
  unfold min_mlen in E3.
  split; [reflexivity|].
  destruct (Z.eq_dec mlm 0) as [->|Hne].
  - change (Z.to_nat (0 + 1 - 1)) with O in E3. cbn [match_len_loop] in E3.
    inversion E3; subst. split; [split; lia | lia].
  - pose proof (match_len_loop_inv cfg sp pos mp _ _ _ _ _ _ _ _ E3) as I.
    destruct (MV ltac:(lia)) as (V1 & V2 & V3 & V4 & V5 & V6).
    replace (Z.to_nat (mlm + 1 - 1)) with (S (Z.to_nat (mlm - 1))) in E3 by lia.
    rewrite match_len_loop_S in E3. cbv zeta in E3.
    pose proof (table_after cfg data size sp (pos + 1) (pos + 1) T ltac:(lia)) as [A1 A2].
    assert (Hinf : INFINITE_COST = 8388607) by reflexivity.
    unfold MAX_INPUT in Hsize.
    assert (Hmo : 0 <= moff_cost cfg mp <= 16).
    { unfold moff_cost. zcases; lia. }
    assert (Hml : 0 <= mlen_cost cfg 1 <= 16).
    { unfold mlen_cost. zcases; lia. }
    revert E3.
    destruct (Z.leb_spec (lbits (sp (pos + 1)) + moff_cost cfg mp + mlen_cost cfg 1)
                         INFINITE_COST) as [_|]; [|lia].
    match goal with |- context [if ?a <=? ?b then _ else _] =>
      destruct (Z.leb_spec a b) end;
      intros E3; apply match_len_loop_best in E3; split; try lia; split; lia.
Qed.
End Candidates.

Section Cells.
Variable cfg : Cfg.
Hypothesis Hv : valid_cfg cfg.
Variable data : list Z.
Variable size : Z.
Hypothesis Hsize : size <= MAX_INPUT.
Variable P : Z -> lzop_st -> Prop.
Hypothesis HP : forall sp pos,
  0 <= pos < size -> table_ok cfg data size sp (pos + 1) ->
  P pos (backfill_at cfg data size sp pos pos).

(** What holds of each cell when it is computed holds of the final table:
    the backward loop never writes a cell twice. *)
Lemma backfill_loop_cells (n : nat) (pos : Z) (sp : table) :
  Z.of_nat n = pos + 1 -> pos < size ->
  table_ok cfg data size sp (pos + 1) ->
  (forall p, pos < p < size -> P p (sp p)) ->
  forall p, 0 <= p < size -> P p (backfill_loop cfg data size n pos sp p).
Proof.
  revert pos sp. induction n as [|n IH]; intros pos sp Hn Hp T H p Hr;
    cbn [backfill_loop].
  - apply H. lia.
  - apply IH; [lia | lia | | | exact Hr].
    + replace (pos - 1 + 1) with pos by lia.
      apply backfill_at_ok; [assumption | assumption | lia | exact T].
    + intros q Hq. destruct (Z.eq_dec q pos) as [->|Hne].
      * apply HP; [lia | exact T].
      * rewrite backfill_at_other by assumption. apply H. lia.
Qed.

Lemma lzop_backfill_cells (p : Z) :
  0 <= p < size ->
  P p (sp (lzop_backfill cfg (lzop_init data size)) p).
Proof.
  intros Hp. unfold lzop_backfill, lzop_init. cbn [lz8s.size lz8s.sp lz8s.data].
  destruct (Z.eqb_spec size 0); [lia|]. cbn [lz8s.sp].
  apply backfill_loop_cells; [lia | lia | | intros; lia | exact Hp].
  replace (size - 1 + 1) with size by lia.
  split; [intros; lia|].
  unfold set_st. rewrite Z.eqb_refl. cbn. split; reflexivity.
Qed.
End Cells.

(** X7: the table keeps a match at [p] exactly when [match] finds one there:
    the offset kept is the one [match] returns, the cost is finite if and
    only if [match] returns a length of at least 1, and the length kept is
    then between 1 and that length. *)
Theorem match_candidate_iff (cfg : Cfg) (data : list Z) (p : Z) :
  check_options cfg = None ->
  Z.of_nat (length data) <= MAX_INPUT ->
  0 <= p < Z.of_nat (length data) ->
  let size := Z.of_nat (length data) in
  let c := sp (lzop_backfill cfg (lzop_init data size)) p in
  let m := match_ cfg data p size 0 in
  mpos c = snd m /\
  (mbits c < INFINITE_COST <-> 1 <= fst m) /\
  (1 <= fst m -> 1 <= mlen c <= fst m).
Proof.
  intros Hc Hs Hp size c m. apply check_options_valid in Hc.
  apply (lzop_backfill_cells cfg Hc data size Hs
           (fun p c => mpos c = snd (match_ cfg data p size 0) /\
                       (mbits c < INFINITE_COST <-> 1 <= fst (match_ cfg data p size 0)) /\
                       (1 <= fst (match_ cfg data p size 0) ->
                        1 <= mlen c <= fst (match_ cfg data p size 0)))).
  - intros sp0 pos Hpos T. apply backfill_at_candidate; assumption.
  - exact Hp.
Qed.

(** X7 on "ABABABAB" at position 2. *)
Lemma match_candidate_iff_witness :
  let data := [65; 66; 65; 66; 65; 66; 65; 66] in
  check_options default_cfg = None /\
  Z.of_nat (length data) <= MAX_INPUT /\
  0 <= 2 < Z.of_nat (length data) /\
  let size := Z.of_nat (length data) in
  let c := sp (lzop_backfill default_cfg (lzop_init data size)) 2 in
  let m := match_ default_cfg data 2 size 0 in
  mpos c = snd m /\
  (mbits c < INFINITE_COST <-> 1 <= fst m) /\
  (1 <= fst m -> 1 <= mlen c <= fst m).
Proof.
  intros data.
  split; [reflexivity|]. split; [vm_compute; discriminate|].
  split; [cbn; lia|].
  apply (match_candidate_iff default_cfg data 2);
    [reflexivity | vm_compute; discriminate | cbn; lia].
Defined.

Section Frames.
Variable cfg : Cfg.
Hypothesis Hv : valid_cfg cfg.
Variable data : list Z.
Variable size : Z.
Hypothesis Hsize : size <= MAX_INPUT.
Variable P : Z -> table -> Prop.
Hypothesis Hframe : forall sp sp' q,
  (forall r, q <= r -> sp' r = sp r) -> P q sp -> P q sp'.
Hypothesis HP : forall sp pos,
  0 <= pos < size -> table_ok cfg data size sp (pos + 1) ->
  (forall q, pos < q <= size -> P q sp) ->
  P pos (backfill_at cfg data size sp pos).

(** A property of a cell that looks at the cells after it only, and that
    holds when the cell is computed, holds in the final table. *)
Lemma backfill_loop_frames (n : nat) (pos : Z) (sp : table) :
  Z.of_nat n = pos + 1 -> pos < size ->
  table_ok cfg data size sp (pos + 1) ->
  (forall q, pos < q <= size -> P q sp) ->
  forall p, 0 <= p <= size -> P p (backfill_loop cfg data size n pos sp).
Proof.
  revert pos sp. induction n as [|n IH]; intros pos sp Hn Hp T H p Hr;
    cbn [backfill_loop].
  - apply H. lia.
  - apply IH; [lia | lia | | | exact Hr].
    + replace (pos - 1 + 1) with pos by lia.
      apply backfill_at_ok; [assumption | assumption | lia | exact T].
    + intros q Hq. destruct (Z.eq_dec q pos) as [->|Hne].
      * apply HP; [lia | exact T | exact H].
      * apply (Hframe sp); [|apply H; lia].
        intros r Hr'. apply backfill_at_other. lia.
Qed.

Lemma lzop_backfill_frames (p : Z) :
  0 < size ->
  P size (set_st calloc_table size
            {| lbits := 0; llen := 0; mbits := INFINITE_COST; mlen := 0; mpos := 0 |}) ->
  0 <= p <= size ->
  P p (sp (lzop_backfill cfg (lzop_init data size))).
Proof.
  intros Hs Hend Hp. unfold lzop_backfill, lzop_init. cbn [lz8s.size lz8s.sp lz8s.data].
  destruct (Z.eqb_spec size 0); [lia|]. cbn [lz8s.sp].
  apply backfill_loop_frames; [lia | lia | | | exact Hp].
  - replace (size - 1 + 1) with size by lia.
    split; [intros; lia|].
    unfold set_st. rewrite Z.eqb_refl. cbn. split; reflexivity.
  - intros q Hq. replace q with size by lia. exact Hend.
Qed.
End Frames.

Section CellCosts.
Variable cfg : Cfg.
Hypothesis Hv : valid_cfg cfg.
Variable data : list Z.
Variable size : Z.
Hypothesis Hsize : size <= MAX_INPUT.
Variable sp : table.
Variable pos : Z.
Hypothesis Hpos : 0 <= pos < size.
Hypothesis Hnext : forall p, pos < p <= size -> after_ok size p (sp p).
Hypothesis Hcost : forall q, pos < q <= size -> literal_cost_ok cfg size sp q.

Local Notation "'lit_inv_'" := (lit_inv cfg size sp pos).

Lemma lit_lit_loop_cost (n : nat) (i ml cb cl ml' cb' cl' : Z) :
  1 <= i ->
  lit_lit_loop cfg sp pos size n i ml cb cl = (ml', cb', cl') ->
  (cb' = cb /\ cl' = cl) \/ lit_inv_ cb' cl'.
Proof.
  revert i ml cb cl.
  induction n as [|n IH]; intros i ml cb cl Hi E; cbn [lit_lit_loop] in E.
  - inversion E; subst. left. split; reflexivity.
  - revert E. destruct (Z.gtb_spec (pos + i) size) as [Hout|Hin]; intros E.
    + inversion E; subst. left. split; reflexivity.
    + revert E. cbv zeta.
      match goal with |- context [if ?a <? cb then _ else _] =>
        destruct (Z.ltb_spec a cb) as [Hlt|Hge] end; intros E.
      * apply IH in E; [|lia]. right.
        assert (I : lit_inv_ (lbits (sp (pos + i)) + 8 * i
                             - llen_cost cfg (llen (sp (pos + i)))
                             + llen_cost cfg (llen (sp (pos + i)) + i))
                            (llen (sp (pos + i)) + i)).
        { destruct (Hnext (pos + i) ltac:(lia)) as [L _].
          pose proof (Hcost (pos + i) ltac:(lia)) as C.
          unfold literal_cost_ok in C. unfold lit_inv.
          split; [lia|]. rewrite C.
          replace (pos + (llen (sp (pos + i)) + i))
            with (pos + i + llen (sp (pos + i))) by lia.
          lia. }
        destruct E as [[-> ->] | E]; [exact I | exact E].
      * apply IH in E; [exact E | lia].
Qed.

Lemma lit_match_loop_cost (n : nat) (i cb cl cb' cl' : Z) :
  1 <= i -> pos + i + Z.of_nat n <= size ->
  lit_match_loop cfg sp pos n i cb cl = (cb', cl') ->
  (cb' = cb /\ cl' = cl) \/ lit_inv_ cb' cl'.
Proof.
  revert i cb cl.
  induction n as [|n IH]; intros i cb cl Hi Hn E; cbn [lit_match_loop] in E.
  - inversion E; subst. left. split; reflexivity.
  - revert E. cbv zeta.
    match goal with |- context [if ?a <? cb then _ else _] =>
      destruct (Z.ltb_spec a cb) as [Hlt|Hge] end; intros E.
    + apply IH in E; [|lia|lia]. right.
      destruct E as [[-> ->] | E]; [|exact E].
      unfold lit_inv, after_literal. split; [lia|].
      destruct (Z.eqb_spec (pos + i) size); lia.
    + apply IH in E; [exact E | lia | lia].
Qed.

Lemma match_len_loop_cost (mp : Z) (n : nat) (l bm cl bm' cb' cl' : Z) :
  match_len_loop cfg sp pos mp n l bm bm cl = (bm', cb', cl') ->
  (cb' = bm /\ cl' = cl) \/
  cb' = Z.min (lbits (sp (pos + cl')) + moff_cost cfg mp + mlen_cost cfg cl')
              (mbits (sp (pos + cl')) + llen_cost cfg 1 + moff_cost cfg mp
               + mlen_cost cfg cl').
Proof.
  revert l bm cl.
  induction n as [|n IH]; intros l bm cl E.
  - cbn [match_len_loop] in E. inversion E; subst. left. split; reflexivity.
  - rewrite match_len_loop_S in E. cbv zeta in E. revert E.
    match goal with |- context [if ?a <=? bm then _ else _] =>
      destruct (Z.leb_spec a bm) as [H1|H1] end;
    match goal with |- context [if ?a <=? ?b then _ else _] =>
      destruct (Z.leb_spec a b) as [H2|H2] end;
    intros E; apply IH in E; try exact E;
    right; (destruct E as [[-> ->] | E]; [lia | exact E]).
Qed.

Lemma backfill_at_costs :
  let sp' := backfill_at cfg data size sp pos in
  literal_cost_ok cfg size sp' pos /\ match_cost_ok cfg sp' pos.
Proof.
  cbv zeta. unfold backfill_at.
  destruct (lit_lit_loop cfg sp pos size 5 1 0 INFINITE_COST 0)
    as [[ml cb] cl] eqn:E1.
  pose proof (lit_lit_loop_first cfg Hv size Hsize sp pos Hpos Hnext _ _ _ E1)
    as (B1 & M1 & L1).
  apply lit_lit_loop_cost in E1; [|lia].
  assert (I1 : lit_inv_ cb cl) by (destruct E1 as [[_ ->] | E1]; [lia | exact E1]).
  destruct (lit_match_loop cfg sp pos (Z.to_nat (ml - 1)) 1 cb cl)
    as [cb2 cl2] eqn:E2.
  apply lit_match_loop_cost in E2; [|lia|lia].
  assert (I2 : lit_inv_ cb2 cl2) by (destruct E2 as [[-> ->] | E2]; assumption).
  destruct (match_ cfg data pos size 0) as [mlm mp].
  destruct (match_len_loop cfg sp pos mp (Z.to_nat (mlm + 1 - min_mlen))
              min_mlen INFINITE_COST INFINITE_COST (mlen (sp pos)))
    as [[bm cmb] cml] eqn:E3.
  pose proof (match_len_loop_inv cfg sp pos mp _ _ _ _ _ _ _ _ E3) as R3.
  apply match_len_loop_cost in E3. unfold min_mlen in R3.
  destruct I2 as [I2a I2b].
  unfold literal_cost_ok, match_cost_ok, after_literal, set_st.
  rewrite Z.eqb_refl. cbn [lbits llen mbits mlen mpos].
  split.
  - destruct (Z.eqb_spec (pos + cl2) pos); [lia|].
    unfold after_literal in I2b. exact I2b.
  - intros Hfin. destruct E3 as [[-> _] | E3]; [lia|].
    destruct R3 as [[R3 _] | R3]; [lia|].
    destruct (Z.eqb_spec (pos + cml) pos); [lia|].
    assert (L8 : llen_cost cfg 1 = 8).
    { destruct (llen_cost_spec cfg Hv 1 ltac:(lia)) as (q & r & Hq & Hr & El & E).
      assert (q = 0) by (destruct Hv; nia). subst q.
      assert (r = 1) by lia. subst r.
      rewrite E. unfold two_byte. rewrite andb_false_r. lia. }
    rewrite E3, L8. lia.
Qed.
End CellCosts.

(** X8: what the costs in the table stand for.  At every position [p] the
    literal cost is the cost of the header of the literal kept there, 8
    bits for each of its bytes, and the match cost kept where the literal
    ends (nothing at the end of the input); a finite match cost is the cost
    of the length and offset of the match kept there and the cheaper of
    the literal cost where the match ends and the match cost there with the
    8 bits of a zero-length literal. *)
Theorem table_costs_consistent (cfg : Cfg) (data : list Z) (p : Z) :
  check_options cfg = None ->
  Z.of_nat (length data) <= MAX_INPUT ->
  0 <= p < Z.of_nat (length data) ->
  let size := Z.of_nat (length data) in
  let t := sp (lzop_backfill cfg (lzop_init data size)) in
  lbits (t p) =
    llen_cost cfg (llen (t p)) + 8 * llen (t p)
    + (if p + llen (t p) =? size then 0 else mbits (t (p + llen (t p)))) /\
  (mbits (t p) < INFINITE_COST ->
   mbits (t p) =
     mlen_cost cfg (mlen (t p)) + moff_cost cfg (mpos (t p))
     + Z.min (lbits (t (p + mlen (t p)))) (mbits (t (p + mlen (t p))) + 8)).
Proof.
  intros Hc Hs Hp size t. apply check_options_valid in Hc.
  assert (H : 0 <= llen (t p) /\ literal_cost_ok cfg size t p /\
              (p < size -> mbits (t p) < INFINITE_COST ->
               0 <= mlen (t p) /\ match_cost_ok cfg t p)).
  { apply (lzop_backfill_frames cfg Hc data size Hs
             (fun q sp => 0 <= llen (sp q) /\ literal_cost_ok cfg size sp q /\
                          (q < size -> mbits (sp q) < INFINITE_COST ->
                           0 <= mlen (sp q) /\ match_cost_ok cfg sp q))).
    - (* the property looks at the cells from [q] on only *)
      intros sp0 sp' q Hag (L0 & L & M).
      unfold literal_cost_ok, match_cost_ok, after_literal in *.
      rewrite !(Hag q) by lia. split; [exact L0|]. split.
      + rewrite (Hag (q + llen (sp0 q))) by lia. exact L.
      + intros Hq Hfin. destruct (M Hq Hfin) as [M0 M1]. split; [exact M0|].
        intros _. rewrite (Hag (q + mlen (sp0 q))) by lia. apply M1. exact Hfin.
    - (* the cell just computed *)
      intros sp0 pos Hpos T HQ.
      assert (Hn : forall q, pos < q <= size -> after_ok size q (sp0 q)).
      { intros q Hq. apply (table_after cfg data size sp0 (pos + 1)); [exact T | lia]. }
      assert (Hcost : forall q, pos < q <= size -> literal_cost_ok cfg size sp0 q).
      { intros q Hq. apply HQ. exact Hq. }
      pose proof (backfill_at_costs cfg Hc data size Hs sp0 pos Hpos Hn Hcost) as [C1 C2].
      destruct (backfill_at_ok cfg Hc data size Hs sp0 pos Hpos T) as [TC _].
      destruct (TC pos ltac:(lia)) as (K1 & _ & K3).
      split; [lia|]. split; [exact C1|].
      intros _ Hfin. split; [|exact C2].
      destruct (K3 Hfin) as (? & _). lia.
    - lia.
    - (* the cell after the last byte *)
      unfold literal_cost_ok, after_literal, set_st. rewrite Z.eqb_refl.
      cbn [lbits llen mbits]. split; [lia|]. split; [|intros; lia].
      replace (size + 0) with size by lia. rewrite Z.eqb_refl. reflexivity.
    - lia. }
  destruct H as (_ & L & M). split.
  - exact L.
  - intros Hfin. apply (M ltac:(lia) Hfin). exact Hfin.
Qed.

(** X8 on "ABABABAB" at position 2. *)
Lemma table_costs_consistent_witness :
  let data := [65; 66; 65; 66; 65; 66; 65; 66] in
  check_options default_cfg = None /\
  Z.of_nat (length data) <= MAX_INPUT /\
  0 <= 2 < Z.of_nat (length data) /\
  let size := Z.of_nat (length data) in
  let t := sp (lzop_backfill default_cfg (lzop_init data size)) in
  lbits (t 2) =
    llen_cost default_cfg (llen (t 2)) + 8 * llen (t 2)
    + (if 2 + llen (t 2) =? size then 0 else mbits (t (2 + llen (t 2)))) /\
  (mbits (t 2) < INFINITE_COST ->
   mbits (t 2) =
     mlen_cost default_cfg (mlen (t 2)) + moff_cost default_cfg (mpos (t 2))
     + Z.min (lbits (t (2 + mlen (t 2)))) (mbits (t (2 + mlen (t 2))) + 8)).
Proof.
  intros data.
  split; [reflexivity|]. split; [vm_compute; discriminate|].
  split; [cbn; lia|].
  apply (table_costs_consistent default_cfg data 2);
    [reflexivity | vm_compute; discriminate | cbn; lia].
Defined.

(** ** The emitted blocks *)

Lemma bytes_ok_intro (l : list Z) : Forall is_byte l -> bytes_ok l = true.
Proof.
  unfold bytes_ok. rewrite forallb_forall, Forall_forall.
  intros H x Hin. specialize (H x Hin). unfold is_byte in H.
  apply andb_true_iff. split; [apply Z.leb_le | apply Z.ltb_lt]; lia.
Qed.

Lemma slice_bytes (data : list Z) (pos : Z) (n : nat) :
  Forall is_byte data -> Forall is_byte (slice data pos n).
Proof.
  intros H. revert pos. induction n as [|n IH]; intros pos; cbn [slice];
    constructor; [apply at_byte, H | apply IH].
Qed.

Lemma len_field_length (mx x : Z) :
  length (len_field mx x) = if (mx <=? 255) || (x <? 128) then 1%nat else 2%nat.
Proof. unfold len_field. destruct ((mx <=? 255) || (x <? 128)); reflexivity. Qed.

Lemma offset_field_length (cfg : Cfg) (off : Z) :
  (length (offset_field cfg off) <= 2)%nat.
Proof.
  unfold offset_field. rewrite length_app.
  destruct (bits_moff cfg =? 0); destruct (bits_moff cfg >? 8); cbn; lia.
Qed.

Section Limits.
Variable cfg : Cfg.
Variable data : list Z.
Variable size : Z.
Hypothesis Hv : valid_cfg cfg.
Hypothesis Hbytes : Forall is_byte data.

Lemma enc_off_window (pos mp : Z) :
  offset_rel cfg < 0 -> 1 <= mp <= max_off cfg ->
  enc_off cfg pos mp = mp - 1.
Proof.
  intros Hr Hm. unfold enc_off. destruct (Z.ltb_spec (offset_rel cfg) 0); [|lia].
  rewrite land_65535. apply Z.mod_small.
  destruct Hv as [_ _ Hb _]. pose proof (max_off_le cfg 16 ltac:(lia)) as H16.
  change (2 ^ 16) with 65536 in H16. lia.
Qed.

Lemma lit_within (pos ln : Z) :
  0 <= ln <= max_llen cfg ->
  within_limits cfg (Lit (slice data pos (Z.to_nat ln))) = true.
Proof.
  intros Hl. unfold within_limits. cbn [well_formed]. rewrite andb_true_r.
  rewrite slice_length, Z2Nat.id by lia.
  apply andb_true_iff. split; [apply Z.leb_le; lia|].
  apply bytes_ok_intro, slice_bytes, Hbytes.
Qed.

Lemma mat_within (pos ml mp : Z) :
  match_at data cfg size pos ml mp ->
  within_limits cfg (Mat ml (enc_off cfg pos mp)) = true.
Proof.
  intros (M1 & M2 & M3 & M4 & M5 & M6). unfold within_limits. cbn [well_formed].
  pose proof (enc_off_range cfg pos mp) as Ho.
  repeat (apply andb_true_iff; split); try (apply Z.leb_le; lia); try (apply Z.ltb_lt; lia).
  apply orb_true_iff. destruct (Z.leb_spec 0 (offset_rel cfg)); [left; reflexivity|].
  right. apply Z.ltb_lt. rewrite enc_off_window; lia.
Qed.

Lemma zero_mat_within : within_limits cfg (Mat 0 0) = true.
Proof.
  destruct Hv as [Hm _ Hb _]. pose proof (max_off_pos cfg ltac:(lia)).
  unfold within_limits. cbn [well_formed].
  repeat (apply andb_true_iff; split); try (apply Z.leb_le; lia); try (apply Z.ltb_lt; lia).
  apply orb_true_iff. right. apply Z.ltb_lt. lia.
Qed.

Lemma parse_within (pos : Z) (il : bool) (bl : list block) :
  parse cfg data size pos il bl -> forallb (within_limits cfg) bl = true.
Proof.
  pose proof Hv as [Hm Hl Hb Hr].
  induction 1 as [pos il E | pos ln bl Hp Hln Hle P IH | pos ln bl Hp Hln Hle P IH
                 | pos ml mp bl M P IH | pos ml mp bl M P IH];
    cbn [forallb].
  - reflexivity.
  - rewrite lit_within by lia. exact IH.
  - rewrite zero_mat_within, lit_within by lia. exact IH.
  - rewrite (mat_within pos ml mp M). exact IH.
  - rewrite (mat_within pos ml mp M), IH.
    pose proof (lit_within pos 0 ltac:(lia)) as E0.
    cbn [Z.to_nat slice] in E0. rewrite E0. reflexivity.
Qed.

Lemma parse_wire_max (pos : Z) (il : bool) (bl : list block) :
  parse cfg data size pos il bl ->
  Z.of_nat (length (wire cfg bl)) <= 5 * (size - pos).
Proof.
  induction 1 as [pos il E | pos ln bl Hp Hln Hle P IH | pos ln bl Hp Hln Hle P IH
                 | pos ml mp bl M P IH | pos ml mp bl M P IH];
    unfold wire in *; cbn [flat_map wire_block];
    rewrite ?length_app, ?slice_length, ?len_field_length.
  - cbn [length]. lia.
  - rewrite Z2Nat.id by lia.
    destruct (max_llen cfg <=? 255); destruct (Z.ltb_spec ln 128); cbn [orb]; lia.
  - rewrite Z2Nat.id by lia. change (0 <? 128) with true. rewrite orb_true_r.
    pose proof (offset_field_length cfg 0).
    destruct (negb (0 =? 0) || zero_offset cfg);
    destruct (max_llen cfg <=? 255); destruct (Z.ltb_spec ln 128); cbn [orb length]; lia.
  - destruct M as (M1 & _).
    pose proof (offset_field_length cfg (enc_off cfg pos mp)).
    destruct (negb (ml =? 0) || zero_offset cfg);
    destruct ((max_mlen cfg <=? 255) || (ml <? 128)); cbn [length]; lia.
  - destruct M as (M1 & _).
    pose proof (offset_field_length cfg (enc_off cfg pos mp)).
    change (Z.of_nat (@length Z [])) with 0. change (0 <? 128) with true.
    rewrite orb_true_r.
    destruct (negb (ml =? 0) || zero_offset cfg);
    destruct ((max_mlen cfg <=? 255) || (ml <? 128)); cbn [length]; lia.
Qed.
End Limits.

Lemma layout_alternating (bl : list block) :
  forall e p, layout_ok e p bl = true -> alternating e bl = true.
Proof.
  induction bl as [|b tl IH]; intros e p; cbn [layout_ok alternating].
  - reflexivity.
  - intros H. apply andb_true_iff in H. destruct H as [H H3].
    apply andb_true_iff in H. destruct H as [H1 H2].
    rewrite H1. cbn [andb]. apply (IH _ _ H3).
Qed.

(** X9: the stream that [compress] delivers is made of literal and match
    blocks in turn, a literal block first, as [decode] reads them, and
    every block is within the limits of the options: every literal block
    carries at most [max_llen] bytes, every match block stands for at
    most [max_mlen] bytes, and without [-A] every offset field is below
    [max_off], so the decoder never looks further back than
    [2^bits_moff] bytes.  The blocks stand for the whole input. *)
Theorem blocks_within_limits (cfg : Cfg) (data output : list Z) :
  check_options cfg = None ->
  bytes_ok data = true ->
  Z.of_nat (length data) <= MAX_INPUT ->
  compress cfg data = Some output ->
  exists bl,
    output = wire cfg bl /\
    alternating true bl = true /\
    forallb (within_limits cfg) bl = true /\
    total_len bl = Z.of_nat (length data).
Proof.
  intros Hc Hb Hs E.
  apply check_options_valid in Hc. apply bytes_ok_spec in Hb.
  destruct (compress_parse cfg data Hc Hb Hs output E) as (bl & P & -> & _).
  exists bl. split; [reflexivity|]. split; [|split].
  - apply (layout_alternating bl true true).
    apply (parse_layout _ _ _ _ _ _ P).
  - apply (parse_within cfg data _ Hc Hb _ _ _ P).
  - rewrite (parse_total _ _ _ _ _ _ P). lia.
Qed.

(** X9 on "ABABABAB" with the default options. *)
Lemma blocks_within_limits_witness :
  let data := [65; 66; 65; 66; 65; 66; 65; 66] in
  let output := [2; 65; 66; 6; 1] in
  check_options default_cfg = None /\ bytes_ok data = true /\
  Z.of_nat (length data) <= MAX_INPUT /\
  compress default_cfg data = Some output /\
  exists bl,
    output = wire default_cfg bl /\
    alternating true bl = true /\
    forallb (within_limits default_cfg) bl = true /\
    total_len bl = Z.of_nat (length data).
Proof.
  intros data output.
  assert (E : compress default_cfg data = Some output) by (vm_compute; reflexivity).
  split; [reflexivity|]. split; [reflexivity|].
  split; [vm_compute; discriminate|]. split; [exact E|].
  apply (blocks_within_limits default_cfg data output);
    [reflexivity | reflexivity | vm_compute; discriminate | exact E].
Defined.

(** X10: the output is never more than five times the input: a block that
    stands for [n >= 1] bytes, with a zero-length block before it when it
    is of the kind of the block before, takes at most [5 * n] bytes. *)
Theorem output_size_bound (cfg : Cfg) (data output : list Z) :
  check_options cfg = None ->
  bytes_ok data = true ->
  Z.of_nat (length data) <= MAX_INPUT ->
  compress cfg data = Some output ->
  Z.of_nat (length output) <= 5 * Z.of_nat (length data).
Proof.
  intros Hc Hb Hs E.
  apply check_options_valid in Hc. apply bytes_ok_spec in Hb.
  destruct (compress_parse cfg data Hc Hb Hs output E) as (bl & P & -> & _).
  pose proof (parse_wire_max cfg data _ _ _ _ P). lia.
Qed.

(** X10 where the bound is nearly reached: literals of one byte, each after
    a zero-length match with a two-byte offset; 12 bytes for 3. *)
Lemma output_size_bound_witness :
  let cfg := {| bits_moff := 16; max_mlen := 255; max_llen := 1;
                zero_offset := true; offset_rel := -1; exor_offset := false |} in
  let data := [1; 2; 3] in
  let output := [1; 1; 0; 0; 0; 1; 2; 0; 0; 0; 1; 3] in
  check_options cfg = None /\ bytes_ok data = true /\
  Z.of_nat (length data) <= MAX_INPUT /\
  compress cfg data = Some output /\
  Z.of_nat (length output) <= 5 * Z.of_nat (length data).
Proof.
  intros cfg data output.
  assert (E : compress cfg data = Some output) by (vm_compute; reflexivity).
  split; [reflexivity|]. split; [reflexivity|].
  split; [vm_compute; discriminate|]. split; [exact E|].
  apply (output_size_bound cfg data output);
    [reflexivity | reflexivity | vm_compute; discriminate | exact E].
Defined.

(** ** Small inputs *)

(** X11: an input of at most 13107 bytes never overflows the output buffer,
    whatever the accepted options: [main] ends with an output, and [decode]
    turns that output back into the input.  (Five bytes of output for each
    byte of input, and one more, fit the 65536 bytes of [buf].) *)
Theorem small_input_roundtrip (cfg : Cfg) (data : list Z) (buf0 : Z -> Z) :
  check_options cfg = None ->
  exor_offset cfg = false ->
  bytes_ok data = true ->
  Z.of_nat (length data) <= 13107 ->
  exists output,
    lz8s.main cfg data = Exit_success output /\
    decode cfg buf0 output = Some (Z.of_nat (length data), mkio [] data []).
Proof.
  intros Hc Hx Hb Hs.
  assert (Hs' : Z.of_nat (length data) <= MAX_INPUT) by (unfold MAX_INPUT; lia).
  assert (E : exists output, compress cfg data = Some output).
  { unfold compress.
    match goal with |- context [encode_loop cfg ?n ?b ?lz 0 (-1)] =>
      destruct (encode_loop_ok cfg n b lz 0 (-1)) as ([[b' lz'] lpos'] & E) end.
    - cbn. lia.
    - unfold BUF_SIZE. lia.
    - rewrite E. eexists. reflexivity. }
  destruct E as [output E]. exists output. split.
  - unfold lz8s.main. rewrite Hc, firstn_all2 by lia. rewrite E. reflexivity.
  - apply check_options_valid in Hc. apply bytes_ok_spec in Hb.
    destruct (compress_parse cfg data Hc Hb Hs' output E) as (bl & P & -> & _).
    destruct (parse_run cfg data _ Hc _ _ _ P) as [il' R].
    unfold decode.
    pose proof (decode_run cfg data _ Hc Hx Hb Hs' _ _ _ _ _ R
                  {| dio := {| stdin := wire cfg bl; stdout := []; stderr := [] |};
                     dbuf := buf0; dpos := 0 |} [] (S (length (wire cfg bl)))) as D.
    rewrite app_nil_r in D.
    destruct D as (st' & f' & S' & F' & Ph).
    { apply synced_start. lia. }
    { pose proof (wire_length cfg bl). lia. }
    cbn [phase] in Ph. rewrite Ph.
    rewrite (phase_eof cfg data _ Hs' _ il' f' st' S').
    + rewrite Nat2Z.id, slice_all. reflexivity.
    + pose proof (wire_length cfg bl). lia.
Qed.

(** X11 on "ABABABAB" with the default options. *)
Lemma small_input_roundtrip_witness :
  let data := [65; 66; 65; 66; 65; 66; 65; 66] in
  check_options default_cfg = None /\ exor_offset default_cfg = false /\
  bytes_ok data = true /\ Z.of_nat (length data) <= 13107 /\
  exists output,
    lz8s.main default_cfg data = Exit_success output /\
    decode default_cfg (fun _ => 0) output =
      Some (Z.of_nat (length data), mkio [] data []).
Proof.
  intros data.
  split; [reflexivity|]. split; [reflexivity|]. split; [reflexivity|].
  split; [vm_compute; discriminate|].
  apply (small_input_roundtrip default_cfg data (fun _ => 0));
    [reflexivity | reflexivity | reflexivity | vm_compute; discriminate].
Defined.

(** ** The hash of a pointer *)

Lemma land_lxor_distr (a b c : Z) :
  Z.land (Z.lxor a b) c = Z.lxor (Z.land a c) (Z.land b c).
Proof.
  apply Z.bits_inj'. intros n Hn.
  rewrite Z.land_spec, !Z.lxor_spec, !Z.land_spec.
  destruct (Z.testbit a n), (Z.testbit b n), (Z.testbit c n); reflexivity.
Qed.

(** X12: [hsh], which the program defines and never calls, folds the four
    low bytes of the address with exclusive or: the result is a byte, and
    the bits of the address from bit 32 on do not count. *)
Theorem hsh_low_bytes (p : Z) :
  hsh p = Z.lxor (Z.lxor (Z.lxor (p mod 256) (p / 2 ^ 8 mod 256))
                         (p / 2 ^ 16 mod 256)) (p / 2 ^ 24 mod 256) /\
  0 <= hsh p < 256 /\
  hsh p = hsh (p mod 2 ^ 32).
Proof.
  assert (E : forall q, hsh q =
            Z.lxor (Z.lxor (Z.lxor (q mod 256) (q / 2 ^ 8 mod 256))
                           (q / 2 ^ 16 mod 256)) (q / 2 ^ 24 mod 256)).
  { intros q. unfold hsh. rewrite Z.land_comm, !land_lxor_distr, !land_255.
    rewrite !Z.shiftr_div_pow2 by lia. reflexivity. }
  split; [apply E|]. split.
  - unfold hsh. rewrite Z.land_comm, land_255. apply Z.mod_pos_bound. lia.
  - rewrite !E. 
    assert (M : forall k, 0 <= k <= 24 -> p mod 2 ^ 32 / 2 ^ k mod 256 = p / 2 ^ k mod 256).
    { intros k Hk.
      replace (2 ^ 32) with (2 ^ k * 2 ^ (32 - k))
        by (rewrite <- Z.pow_add_r by lia; f_equal; lia).
      assert (0 < 2 ^ k) by (apply Z.pow_pos_nonneg; lia).
      assert (0 < 2 ^ (32 - k)) by (apply Z.pow_pos_nonneg; lia).
      rewrite Z.rem_mul_r by lia.
      rewrite (Z.mul_comm (2 ^ k)), Z.div_add by lia.
      rewrite (Z.div_small (p mod 2 ^ k)) by (apply Z.mod_pos_bound; lia).
      rewrite Z.add_0_l.
      replace (2 ^ (32 - k)) with (256 * 2 ^ (24 - k)).
      - rewrite Z.rem_mul_r; [|lia|apply Z.pow_pos_nonneg; lia].
        rewrite Z.mul_comm, Z.mod_add by lia. apply Z.mod_mod. lia.
      - change 256 with (2 ^ 8). rewrite <- Z.pow_add_r by lia. f_equal. lia. }
    rewrite (M 8), (M 16), (M 24) by lia.
    specialize (M 0 ltac:(lia)). rewrite !Z.pow_0_r, !Z.div_1_r in M.
    rewrite M. reflexivity.
Qed.

(** ** The decoder on streams of any origin *)

(** X13: [decode] is right on every well-formed stream, not only on those of
    this encoder.  If the blocks [bl] stand for [data] (of at most 128 KiB):
    literal and match blocks in turn from a literal on, each literal block
    the next bytes of [data], of a length up to [max_llen] (0 included),
    each match block of length 0, or of a length up to [max_mlen] with an
    offset up to [max_off] at which [data] repeats; then [decode] on their
    wire form writes [data], returns its length and reports nothing. *)
Theorem decode_valid_stream (cfg : Cfg) (data : list Z) (bl : list block)
    (il' : bool) (buf0 : Z -> Z) :
  check_options cfg = None ->
  exor_offset cfg = false ->
  bytes_ok data = true ->
  Z.of_nat (length data) <= MAX_INPUT ->
  run cfg data (Z.of_nat (length data)) 0 false bl (Z.of_nat (length data)) il' ->
  decode cfg buf0 (wire cfg bl) = Some (Z.of_nat (length data), mkio [] data []).
Proof.
  intros Hc Hx Hb Hs R.
  apply check_options_valid in Hc. apply bytes_ok_spec in Hb.
  unfold decode.
  pose proof (decode_run cfg data _ Hc Hx Hb Hs _ _ _ _ _ R
                {| dio := {| stdin := wire cfg bl; stdout := []; stderr := [] |};
                   dbuf := buf0; dpos := 0 |} [] (S (length (wire cfg bl)))) as D.
  rewrite app_nil_r in D.
  destruct D as (st' & f' & S' & F' & Ph).
  { apply synced_start. lia. }
  { pose proof (wire_length cfg bl). lia. }
  cbn [phase] in Ph. rewrite Ph.
  rewrite (phase_eof cfg data _ Hs _ il' f' st' S').
  - rewrite Nat2Z.id, slice_all. reflexivity.
  - pose proof (wire_length cfg bl). lia.
Qed.

(** A stream no encoder run is needed for: an empty literal, a literal of
    one byte after a zero-length match, and an overlapping match that
    repeats that byte three times. *)
(** X13 on a stream that no run of the encoder gives: an empty literal, a
    zero-length match, a literal of one byte, and an overlapping match that
    repeats that byte three times. *)
Lemma decode_valid_stream_witness :
  let data := [65; 65; 65; 65] in
  let bl := [Lit []; Mat 0 0; Lit [65]; Mat 3 0] in
  check_options default_cfg = None /\ exor_offset default_cfg = false /\
  bytes_ok data = true /\ Z.of_nat (length data) <= MAX_INPUT /\
  run default_cfg data (Z.of_nat (length data)) 0 false bl
      (Z.of_nat (length data)) false /\
  decode default_cfg (fun _ => 0) (wire default_cfg bl) =
    Some (Z.of_nat (length data), mkio [] data []).
Proof.
  intros data bl.
  assert (R : run default_cfg data (Z.of_nat (length data)) 0 false bl
                  (Z.of_nat (length data)) false).
  { apply run_cons with (pos1 := 0).
    { cbn. split; [reflexivity|]. split; [lia|]. exists 0. cbn. repeat split; lia. }
    apply run_cons with (pos1 := 0).
    { cbn. split; [reflexivity|]. split; [lia|]. left. repeat split. }
    apply run_cons with (pos1 := 1).
    { cbn. split; [reflexivity|]. split; [lia|]. exists 1. cbn. repeat split; lia. }
    apply run_cons with (pos1 := 4).
    { cbn. split; [reflexivity|]. split; [lia|]. right. exists 1.
      split; [|split; reflexivity].
      unfold match_at. cbn. repeat split; try lia.
      intros k Hk. assert (Hk' : k = 0 \/ k = 1 \/ k = 2) by lia.
      destruct Hk' as [->|[->| ->]]; reflexivity. }
    apply run_nil. }
  split; [reflexivity|]. split; [reflexivity|]. split; [reflexivity|].
  split; [vm_compute; discriminate|]. split; [exact R|].
  apply (decode_valid_stream default_cfg data bl false (fun _ => 0));
    [reflexivity | reflexivity | reflexivity | vm_compute; discriminate | exact R].
Defined.

(** ** What the options mean to the decoder *)

Lemma get_len_test (mx mx' : Z) (s : io) :
  (mx <? 256) = (mx' <? 256) -> get_len mx s = get_len mx' s.
Proof. intros E. unfold get_len. rewrite E. reflexivity. Qed.

Section Tests.
Variables cfg cfg' : Cfg.
Hypothesis Hl : (max_llen cfg <? 256) = (max_llen cfg' <? 256).
Hypothesis Hm : (max_mlen cfg <? 256) = (max_mlen cfg' <? 256).
Hypothesis H0 : (bits_moff cfg >? 0) = (bits_moff cfg' >? 0).
Hypothesis H8 : (bits_moff cfg >? 8) = (bits_moff cfg' >? 8).
Hypothesis Hz : zero_offset cfg = zero_offset cfg'.
Hypothesis Hx : exor_offset cfg = exor_offset cfg'.
Hypothesis Hr : (offset_rel cfg < 0 /\ offset_rel cfg' < 0) \/
                offset_rel cfg = offset_rel cfg'.

Lemma mask_of_test : mask_of cfg = mask_of cfg'.
Proof. unfold mask_of. rewrite H8. reflexivity. Qed.

Lemma decode_literal_test (st : dstate) :
  decode_literal cfg st = decode_literal cfg' st.
Proof.
  unfold decode_literal. rewrite (get_len_test _ _ _ Hl), mask_of_test. reflexivity.
Qed.

Lemma read_offset_test (st : dstate) : read_offset cfg st = read_offset cfg' st.
Proof. unfold read_offset. rewrite H0, H8. reflexivity. Qed.

Lemma decode_match_test (st : dstate) :
  decode_match cfg st = decode_match cfg' st.
Proof.
  unfold decode_match.
  rewrite (get_len_test _ _ _ Hm), mask_of_test, Hz, Hx.
  destruct (get_len (max_mlen cfg') (dio st)) as [n s].
  destruct (n <? 0); [reflexivity|].
  destruct (zero_offset cfg' || negb (n =? 0)); [|reflexivity].
  rewrite read_offset_test.
  destruct (read_offset cfg' _) as [r|[off s']]; [reflexivity|].
  destruct Hr as [[R1 R2] | R].
  - destruct (Z.ltb_spec (offset_rel cfg) 0); [|lia].
    destruct (Z.ltb_spec (offset_rel cfg') 0); [|lia]. reflexivity.
  - rewrite R. reflexivity.
Qed.

Lemma decode_loop_test (fuel : nat) (st : dstate) :
  decode_loop cfg fuel st = decode_loop cfg' fuel st.
Proof.
  revert st. induction fuel as [|fuel IH]; intros st; [reflexivity|].
  cbn [decode_loop]. rewrite decode_literal_test.
  destruct (decode_literal cfg' st) as [r s|st1]; [reflexivity|].
  rewrite decode_match_test.
  destruct (decode_match cfg' st1) as [r s|st2]; [reflexivity | apply IH].
Qed.
End Tests.

(** X14: the decoder looks at its numeric options through four tests only:
    [max_llen < 256], [max_mlen < 256], [bits_moff > 0] and [bits_moff > 8]
    (and at the relative address through its sign, and its value when it
    is not negative).  Two configurations on which these agree decode
    every stream alike; so [-o 1] to [-o 8] are one and the same to it. *)
Theorem decode_reads_options_by_tests (cfg cfg' : Cfg) (buf0 : Z -> Z)
    (input : list Z) :
  same_tests cfg cfg' = true ->
  decode cfg buf0 input = decode cfg' buf0 input.
Proof.
  unfold same_tests. intros H.
  repeat (apply andb_true_iff in H; destruct H as [H ?]).
  repeat match goal with
  | E : Bool.eqb _ _ = true |- _ => apply Bool.eqb_prop in E
  end.
  unfold decode. apply decode_loop_test; try assumption.
  match goal with E : _ || _ = true |- _ =>
    apply orb_true_iff in E; destruct E as [E1|E2] end.
  - apply andb_true_iff in E1. destruct E1 as [E1 E2].
    left. split; apply Z.ltb_lt; assumption.
  - right. apply Z.eqb_eq. assumption.
Qed.

(** X14: the defaults against [-o 3 -m 17 -l 1 -A -7]. *)
Lemma decode_reads_options_by_tests_witness :
  let cfg' := {| bits_moff := 3; max_mlen := 17; max_llen := 1;
                 zero_offset := false; offset_rel := -7; exor_offset := false |} in
  same_tests default_cfg cfg' = true /\
  decode default_cfg (fun _ => 0) [2; 65; 66; 6; 1] =
  decode cfg' (fun _ => 0) [2; 65; 66; 6; 1].
Proof.
  intros cfg'. split; [reflexivity|].
  apply (decode_reads_options_by_tests default_cfg cfg' (fun _ => 0) [2; 65; 66; 6; 1]).
  reflexivity.
Defined.

Section Potential.
Variable cfg : Cfg.

Lemma max_copy_cases : max_copy cfg = 255 \/ max_copy cfg = 32895.
Proof. unfold max_copy. destruct (max_mlen cfg <? 256); auto. Qed.

Lemma get_len_potential (mx : Z) (s : io) :
  Forall is_byte (stdin s) ->
  let '(n, s') := get_len mx s in
  stdout s' = stdout s /\ Forall is_byte (stdin s') /\
  (length (stdin s') <= length (stdin s))%nat /\
  n <= (if mx <? 256 then 255 else 32895)
       * (Z.of_nat (length (stdin s)) - Z.of_nat (length (stdin s'))).
Proof.
  intros Hb. unfold get_len.
  destruct (getchar_cases s Hb) as [[E ->] | (c & rest & E & Hc & Hr & ->)].
  - cbn. rewrite E. repeat split; auto. cbn. lia.
  - unfold is_byte in Hc.
    destruct (Z.eqb_spec c EOF) as [Ec|_]; [unfold EOF in Ec; lia|].
    destruct (Z.ltb_spec mx 256) as [Hmx|Hmx]; cbn [orb].
    + cbn [stdin stdout]. rewrite E. cbn [length]. repeat split; auto; lia.
    + destruct (Z.ltb_spec c 128).
      * cbn [stdin stdout]. rewrite E. cbn [length]. repeat split; auto; lia.
      * destruct (getchar_cases {| stdin := rest; stdout := stdout s; stderr := stderr s |} Hr)
          as [[E2 ->] | (c2 & rest2 & E2 & Hc2 & Hr2 & ->)];
          cbn [stdin stdout stderr] in *; rewrite E; subst rest; cbn [length].
        -- change (Z.shiftl EOF 7) with (-128). repeat split; auto; lia.
        -- unfold is_byte in Hc2. rewrite shiftl_7. repeat split; auto; lia.
Qed.

Lemma copy_literal_potential (mask : Z) (n : nat) (st : dstate) :
  Forall is_byte (stdin (dio st)) ->
  match copy_literal mask n st with
  | Return _ s => potential cfg s <= potential cfg (dio st)
  | Next st' => potential cfg (dio st') <= potential cfg (dio st) /\
                Forall is_byte (stdin (dio st'))
  end.
Proof.
  pose proof max_copy_cases as K.
  revert st. induction n as [|n IH]; intros st Hb; cbn [copy_literal].
  - split; [lia | exact Hb].
  - destruct (getchar_cases (dio st) Hb) as [[E ->] | (c & rest & E & Hc & Hr & ->)].
    + cbn. unfold potential. cbn [stdin stdout fprintf_stderr]. lia.
    + unfold is_byte in Hc.
      destruct (Z.eqb_spec c EOF) as [Ec|_]; [unfold EOF in Ec; lia|].
      match goal with |- match copy_literal _ _ ?st1 with _ => _ end =>
        specialize (IH st1 Hr); destruct (copy_literal mask n st1) as [r s|st'];
        assert (P1 : potential cfg (dio st1) <= potential cfg (dio st))
      end.
      1,3: unfold potential; cbn [dio putchar stdin stdout]; rewrite E, length_app;
           cbn [length]; lia.
      * lia.
      * destruct IH. split; [lia | assumption].
Qed.

Lemma read_offset_stdout (st : dstate) :
  match read_offset cfg st with
  | inl (Return _ s) => stdout s = stdout (dio st)
  | inl (Next _) => False
  | inr (_, s) => stdout s = stdout (dio st)
  end.
Proof.
  unfold read_offset.
  assert (H2 : forall off s, stdout s = stdout (dio st) ->
    match (if bits_moff cfg >? 8
           then let '(x, s0) := getchar s in
                if x =? EOF
                then inl (Return (to_int (dpos st)) (fprintf_stderr s0 msg_offset))
                else inr (off + Z.shiftl x 8, s0)
           else inr (off, s)) with
    | inl (Return _ s') => stdout s' = stdout (dio st)
    | inl (Next _) => False
    | inr (_, s') => stdout s' = stdout (dio st)
    end).
  { intros off s Es. destruct (bits_moff cfg >? 8); [|exact Es].
    pose proof (getchar_stdout s) as G. destruct (getchar s) as [x s0]. cbn [snd] in G.
    destruct (x =? EOF); cbn; congruence. }
  destruct (bits_moff cfg >? 0).
  - pose proof (getchar_stdout (dio st)) as G.
    destruct (getchar (dio st)) as [x s0]. cbn [snd] in G.
    destruct (x =? EOF); [cbn; exact G|]. apply H2. exact G.
  - apply H2. reflexivity.
Qed.

Lemma decode_literal_potential (st : dstate) :
  Forall is_byte (stdin (dio st)) ->
  match decode_literal cfg st with
  | Return _ s => potential cfg s <= potential cfg (dio st)
  | Next st' => potential cfg (dio st') <= potential cfg (dio st) /\
                Forall is_byte (stdin (dio st'))
  end.
Proof.
  intros Hb. unfold decode_literal.
  pose proof max_copy_cases as K.
  pose proof (get_len_potential (max_llen cfg) (dio st) Hb) as G.
  destruct (get_len (max_llen cfg) (dio st)) as [n s].
  destruct G as (G1 & G2 & G3 & _).
  assert (P0 : potential cfg s <= potential cfg (dio st)).
  { unfold potential. rewrite G1. destruct K as [K|K]; rewrite K in *; lia. }
  destruct (n <? 0); [exact P0|].
  match goal with |- match copy_literal _ _ ?st1 with _ => _ end =>
    pose proof (copy_literal_potential (mask_of cfg) (Z.to_nat n) st1 G2) as C;
    destruct (copy_literal (mask_of cfg) (Z.to_nat n) st1) as [r s'|st'] end;
    cbn [dio] in C.
  - lia.
  - destruct C. split; [lia | assumption].
Qed.

Lemma decode_match_potential (st : dstate) :
  Forall is_byte (stdin (dio st)) ->
  match decode_match cfg st with
  | Return _ s => potential cfg s <= potential cfg (dio st)
  | Next st' => potential cfg (dio st') <= potential cfg (dio st) /\
                Forall is_byte (stdin (dio st'))
  end.
Proof.
  intros Hb. unfold decode_match.
  pose proof (get_len_potential (max_mlen cfg) (dio st) Hb) as G.
  destruct (get_len (max_mlen cfg) (dio st)) as [n s].
  destruct G as (G1 & G2 & G3 & G4). fold (max_copy cfg) in G4.
  pose proof max_copy_cases as K.
  assert (P0 : potential cfg s <= potential cfg (dio st)).
  { unfold potential. rewrite G1. destruct K as [K|K]; rewrite K in *; lia. }
  destruct (Z.ltb_spec n 0); [exact P0|].
  destruct (zero_offset cfg || negb (n =? 0)).
  - match goal with |- context [read_offset cfg ?st1] =>
      pose proof (read_offset_any cfg st1 G2) as R;
      pose proof (read_offset_stdout st1) as O;
      destruct (read_offset cfg st1) as [[r s'|st']|[off s']] end;
      cbn [dio] in R, O.
    + destruct R as [R1 _]. unfold potential in *. rewrite R1, O, <- G1. cbn [length].
      destruct K as [K|K]; rewrite K in *; lia.
    + contradiction.
    + destruct R as (_ & R2 & R3).
      match goal with |- context [copy_match ?m ?k ?o ?st2] =>
        destruct (copy_match_any cfg k o st2) as (C1 & _ & C3) end.
      split; [|rewrite C1; exact R2].
      unfold potential in *. rewrite C1, C3. cbn [dio]. rewrite O, G1.
      destruct K as [K|K]; rewrite K in *; lia.
  - cbn [dio]. split; [exact P0 | exact G2].
Qed.

Lemma decode_loop_potential (fuel : nat) (st : dstate) r s :
  Forall is_byte (stdin (dio st)) ->
  decode_loop cfg fuel st = Some (r, s) ->
  potential cfg s <= potential cfg (dio st).
Proof.
  revert st. induction fuel as [|fuel IH]; intros st Hb E; [discriminate|].
  cbn [decode_loop] in E.
  pose proof (decode_literal_potential st Hb) as L.
  destruct (decode_literal cfg st) as [r1 s1|st1].
  - inversion E; subst. exact L.
  - destruct L as [L1 L2].
    pose proof (decode_match_potential st1 L2) as M.
    destruct (decode_match cfg st1) as [r2 s2|st2].
    + inversion E; subst. lia.
    + destruct M as [M1 M2]. apply IH in E; [lia | exact M2].
Qed.
End Potential.

(** X15: the decoder writes at most [max_copy] bytes for each byte it reads:
    255 when match lengths take one byte ([max_mlen < 256]), 32895 when
    they may take two. *)
Theorem decode_output_bound (cfg : Cfg) (buf0 : Z -> Z) (input : list Z)
    (r : Z) (s : io) :
  bytes_ok input = true ->
  decode cfg buf0 input = Some (r, s) ->
  Z.of_nat (length (stdout s)) <= max_copy cfg * Z.of_nat (length input).
Proof.
  intros Hb E. apply bytes_ok_spec in Hb. unfold decode in E.
  apply decode_loop_potential in E; [|exact Hb].
  unfold potential in E. cbn [dio stdin stdout length] in E.
  destruct (max_copy_cases cfg) as [K|K]; rewrite K in *; lia.
Qed.

(** X15 on a stream of 4 bytes that gives 10. *)
Lemma decode_output_bound_witness :
  let s := mkio [] [65; 7; 7; 7; 7; 7; 7; 7; 7; 7] [] in
  bytes_ok [1; 65; 9; 200] = true /\
  decode default_cfg (fun _ => 7) [1; 65; 9; 200] = Some (10, s) /\
  Z.of_nat (length (stdout s)) <=
    max_copy default_cfg * Z.of_nat (length [1; 65; 9; 200]).
Proof.
  intros s. split; [reflexivity|]. split; [vm_compute; reflexivity|].
  apply (decode_output_bound default_cfg (fun _ => 7) [1; 65; 9; 200] 10 s);
    [reflexivity | vm_compute; reflexivity].
Defined.

(** ** Inverted offsets *)

Lemma lxor_ones (k x : Z) :
  0 <= k -> 0 <= x < 2 ^ k -> Z.lxor x (Z.ones k) = Z.ones k - x.
Proof.
  intros Hk Hx.
  assert (E : Z.lxor x (Z.ones k) + x = Z.ones k).
  { rewrite Z.add_nocarry_lxor.
    - rewrite (Z.lxor_comm x), Z.lxor_assoc, Z.lxor_nilpotent. apply Z.lxor_0_r.
    - apply Z.bits_inj'. intros n Hn.
      rewrite Z.land_spec, Z.lxor_spec, Z.bits_0.
      destruct (Z.testbit x n) eqn:T; [|apply andb_false_r].
      destruct (Z.ltb_spec n k) as [Hlt|Hge].
      + rewrite Z.ones_spec_low by lia. reflexivity.
      + exfalso. rewrite Z.bits_above_log2 in T; [discriminate | lia |].
        destruct (Z.eq_dec x 0) as [->|]; [rewrite Z.bits_0 in T; discriminate|].
        apply Z.lt_le_trans with (m := k); [|exact Hge].
        apply Z.log2_lt_pow2; lia. }
  lia.
Qed.

Lemma lxor_65535 (x : Z) : 0 <= x < 65536 -> Z.lxor x 65535 = 65535 - x.
Proof. intros H. apply (lxor_ones 16 x); [lia | exact H]. Qed.

Lemma lxor_255 (x : Z) : 0 <= x < 256 -> Z.lxor 255 x = 255 - x.
Proof. intros H. rewrite Z.lxor_comm. apply (lxor_ones 8 x); [lia | exact H]. Qed.

Lemma copy_literal_feed (mask : Z) (bs rest o : list Z) (e : list string)
    (b : Z -> Z) (p : Z) :
  Forall is_byte bs ->
  copy_literal mask (length bs) (mkst (bs ++ rest) o e b p) =
  Next (mkst rest (o ++ bs) e (fst (feed mask bs b p)) (snd (feed mask bs b p))).
Proof.
  revert o b p. induction bs as [|x bs IH]; intros o b p Hb.
  - cbn. rewrite app_nil_r. reflexivity.
  - inversion Hb as [|? ? Hx Hbs]; subst. cbn [length copy_literal].
    unfold mkst at 1. cbn [dio]. unfold getchar, mkio at 1. cbn [stdin stdout stderr app].
    unfold is_byte in Hx.
    destruct (Z.eqb_spec x EOF) as [Ex|_]; [unfold EOF in Ex; lia|].
    unfold putchar. cbn [stdin stdout stderr dbuf dpos].
    rewrite land_byte by (unfold is_byte; lia).
    change (copy_literal mask (length bs)
              (mkst (bs ++ rest) (o ++ [x]) e (store b (Z.land p mask) x) (incr p)) =
            Next (mkst rest (o ++ x :: bs) e (fst (feed mask (x :: bs) b p))
                       (snd (feed mask (x :: bs) b p)))).
    rewrite IH by assumption. cbn [feed]. rewrite <- app_assoc. reflexivity.
Qed.

Lemma copy_match_replay (mask : Z) (n : nat) (off : Z) (i o : list Z)
    (e : list string) (b : Z -> Z) (p : Z) :
  copy_match mask n off (mkst i o e b p) =
  let '(o', b', p') := replay mask n off o b p in mkst i o' e b' p'.
Proof.
  revert off o b p. induction n as [|n IH]; intros off o b p.
  - reflexivity.
  - cbn [copy_match replay].
    change (copy_match mask n (off + 1)
              (mkst i (o ++ [Z.land (b (Z.land off mask)) 255]) e
                    (store b (Z.land p mask) (b (Z.land off mask))) (incr p)) =
            let '(o', b', p') :=
              replay mask n (off + 1) (o ++ [Z.land (b (Z.land off mask)) 255])
                     (store b (Z.land p mask) (b (Z.land off mask))) (incr p) in
            mkst i o' e b' p').
    apply IH.
Qed.

Lemma phase_end (cfg : Cfg) (il : bool) (f : nat) (o : list Z) (b : Z -> Z) (p : Z) :
  (1 <= f)%nat ->
  phase cfg il f (mkst [] o [] b p) = Some (to_int p, mkio [] o []).
Proof.
  intros Hf. destruct il; cbn [phase].
  - reflexivity.
  - destruct f as [|f]; [lia|]. reflexivity.
Qed.

Lemma well_formed_lit (cfg : Cfg) (bytes : list Z) :
  well_formed cfg (Lit bytes) = true ->
  Z.of_nat (length bytes) <= max_llen cfg /\ Forall is_byte bytes.
Proof.
  cbn. intros H. apply andb_true_iff in H. destruct H as [H1 H2].
  split; [apply Z.leb_le; exact H1 | apply bytes_ok_spec; exact H2].
Qed.

Lemma well_formed_mat (cfg : Cfg) (ln off : Z) :
  well_formed cfg (Mat ln off) = true ->
  0 <= ln <= max_mlen cfg /\ 0 <= off < 65536.
Proof.
  cbn. intros H. repeat (apply andb_true_iff in H; destruct H as [H ?]).
  repeat match goal with
  | E : (_ <=? _) = true |- _ => apply Z.leb_le in E
  | E : (_ <? _) = true |- _ => apply Z.ltb_lt in E
  end. lia.
Qed.

Section BlockDecoded.
Variable cfg : Cfg.
Hypothesis Hv : valid_cfg cfg.

Lemma literal_block_decoded (bytes rest o : list Z) (b : Z -> Z) (p : Z) :
  well_formed cfg (Lit bytes) = true ->
  decode_literal cfg (mkst (wire_block cfg (Lit bytes) ++ rest) o [] b p) =
  Next (mkst rest (o ++ bytes) []
          (fst (feed (mask_of cfg) bytes b p)) (snd (feed (mask_of cfg) bytes b p))).
Proof.
  intros W. apply well_formed_lit in W. destruct W as [Hl Hb].
  destruct Hv as [_ Hll _ _].
  unfold decode_literal. cbn [mkst dio dbuf dpos wire_block].
  rewrite <- app_assoc, get_len_field by lia.
  destruct (Z.ltb_spec (Z.of_nat (length bytes)) 0); [lia|].
  rewrite Nat2Z.id. apply (copy_literal_feed (mask_of cfg) bytes rest o [] b p Hb).
Qed.

Lemma match_block_decoded (ln off : Z) (rest o : list Z) (b : Z -> Z) (p : Z) :
  well_formed cfg (Mat ln off) = true ->
  decode_match cfg (mkst (wire_block cfg (Mat ln off) ++ rest) o [] b p) =
  Next (if zero_offset cfg || negb (ln =? 0)
        then let '(o', b', p') :=
               replay (mask_of cfg) (Z.to_nat ln) (match_source cfg off p) o b p in
             mkst rest o' [] b' p'
        else mkst rest o [] b p).
Proof.
  intros W. apply well_formed_mat in W. destruct W as [Hl Ho].
  pose proof Hv as [Hml _ _ _].
  unfold decode_match. cbn [mkst dio dbuf dpos wire_block].
  rewrite <- app_assoc, get_len_field by lia.
  destruct (Z.ltb_spec ln 0); [lia|].
  rewrite (orb_comm (negb (ln =? 0))).
  destruct (zero_offset cfg || negb (ln =? 0)).
  - rewrite (read_offset_ok cfg Hv _ off rest o) by (lia || reflexivity).
    cbn [dio dbuf dpos]. unfold match_source. cbv zeta.
    apply f_equal.
    apply (copy_match_replay (mask_of cfg) (Z.to_nat ln) _ rest o [] b p).
  - reflexivity.
Qed.
End BlockDecoded.

Section Inverted.
Variable cfg : Cfg.
Hypothesis Hv : valid_cfg cfg.
Hypothesis Hbits : 1 <= bits_moff cfg.

Local Notation "'cfg_x'" := (set_exor cfg (negb (exor_offset cfg))).

Lemma set_exor_valid (x : bool) : valid_cfg (set_exor cfg x).
Proof. destruct Hv. constructor; assumption. Qed.

Lemma read_value_inverted (off : Z) :
  0 <= off < 65536 ->
  read_value cfg (Z.lxor off 65535) = Z.lxor (mask_of cfg) (read_value cfg off).
Proof.
  intros Ho. unfold read_value, mask_of.
  destruct (Z.eqb_spec (bits_moff cfg) 0); [lia|].
  rewrite lxor_65535 by lia.
  destruct (Z.leb_spec (bits_moff cfg) 8); destruct (Z.gtb_spec (bits_moff cfg) 8); try lia.
  - rewrite lxor_255 by (apply Z.mod_pos_bound; lia).
    Z.div_mod_to_equations. lia.
  - rewrite Z.lxor_comm. symmetry. apply lxor_65535. lia.
Qed.

Lemma match_source_inverted (off p : Z) :
  0 <= off < 65536 ->
  match_source cfg_x (Z.lxor off 65535) p = match_source cfg off p.
Proof.
  intros Ho. unfold match_source.
  change (read_value cfg_x (Z.lxor off 65535))
    with (read_value cfg (Z.lxor off 65535)).
  change (mask_of cfg_x) with (mask_of cfg).
  change (offset_rel cfg_x) with (offset_rel cfg).
  change (exor_offset cfg_x) with (negb (exor_offset cfg)).
  rewrite read_value_inverted by exact Ho. cbv zeta.
  destruct (exor_offset cfg); cbn [negb]; [reflexivity|].
  rewrite <- Z.lxor_assoc, Z.lxor_nilpotent, Z.lxor_0_l. reflexivity.
Qed.

Lemma wire_block_inverted_length (b : block) :
  length (wire_block cfg (invert_offset b)) = length (wire_block cfg b).
Proof.
  destruct b as [bytes|ln off]; [reflexivity|].
  cbn [invert_offset wire_block]. rewrite !length_app. f_equal.
  destruct (negb (ln =? 0) || zero_offset cfg); [|reflexivity].
  unfold offset_field. rewrite !length_app.
  destruct (bits_moff cfg =? 0); destruct (bits_moff cfg >? 8); reflexivity.
Qed.

Lemma wire_inverted_length (bl : list block) :
  length (wire cfg (map invert_offset bl)) = length (wire cfg bl).
Proof.
  induction bl as [|b bl IH]; [reflexivity|].
  unfold wire in *. cbn [map flat_map]. rewrite !length_app, IH.
  rewrite wire_block_inverted_length. reflexivity.
Qed.

Lemma inverted_run (bl : list block) :
  forall (il : bool) (f : nat) (o : list Z) (b : Z -> Z) (p : Z),
    forallb (well_formed cfg) bl = true ->
    alternating (negb il) bl = true ->
    (length bl < f)%nat ->
    exists il' f' o' b' p',
      (f <= f' + length bl)%nat /\
      phase cfg il f (mkst (wire cfg bl) o [] b p) =
        phase cfg il' f' (mkst [] o' [] b' p') /\
      phase cfg_x il f (mkst (wire cfg (map invert_offset bl)) o [] b p) =
        phase cfg_x il' f' (mkst [] o' [] b' p').
Proof.
  induction bl as [|blk bl IH]; intros il f o b p W A Hf.
  - exists il, f, o, b, p. split; [cbn; lia|]. split; reflexivity.
  - cbn [forallb] in W. apply andb_true_iff in W. destruct W as [W1 W].
    cbn [alternating] in A. apply andb_true_iff in A. destruct A as [A1 A].
    apply Bool.eqb_prop in A1. rewrite negb_involutive in A.
    unfold wire. cbn [map flat_map]. fold (wire cfg bl).
    fold (wire cfg (map invert_offset bl)). cbn [length] in Hf.
    destruct il; cbn [negb] in A1.
    + (* a match block is due *)
      destruct blk as [bytes|ln off]; [discriminate|].
      cbn [phase]. unfold decode_from_match.
      rewrite (match_block_decoded cfg Hv ln off _ o b p W1).
      change (wire_block cfg (invert_offset (Mat ln off)))
        with (wire_block cfg_x (Mat ln (Z.lxor off 65535))).
      destruct (well_formed_mat cfg ln off W1) as [Hl Ho].
      rewrite (match_block_decoded cfg_x (set_exor_valid _) ln (Z.lxor off 65535) _ o b p).
      2: { cbn. rewrite lxor_65535 by lia.
           repeat (apply andb_true_iff; split);
             try (apply Z.leb_le; lia); apply Z.ltb_lt; lia. }
      change (zero_offset cfg_x) with (zero_offset cfg).
      change (mask_of cfg_x) with (mask_of cfg).
      rewrite match_source_inverted by exact Ho.
      destruct (zero_offset cfg || negb (ln =? 0)).
      * destruct (replay (mask_of cfg) (Z.to_nat ln) (match_source cfg off p) o b p)
          as [[o1 b1] p1].
        destruct (IH false f o1 b1 p1 W A ltac:(lia)) as (il' & f' & o' & b' & p' & F & E1 & E2).
        exists il', f', o', b', p'. split; [cbn [length]; lia|]. split; assumption.
      * destruct (IH false f o b p W A ltac:(lia)) as (il' & f' & o' & b' & p' & F & E1 & E2).
        exists il', f', o', b', p'. split; [cbn [length]; lia|]. split; assumption.
    + (* a literal block is due *)
      destruct blk as [bytes|ln off]; [|discriminate].
      destruct f as [|f1]; [lia|].
      cbn [phase invert_offset]. rewrite !decode_loop_S.
      rewrite (literal_block_decoded cfg Hv bytes _ o b p W1).
      change (wire_block cfg (Lit bytes)) with (wire_block cfg_x (Lit bytes)).
      rewrite (literal_block_decoded cfg_x (set_exor_valid _) bytes _ o b p W1).
      change (mask_of cfg_x) with (mask_of cfg).
      destruct (IH true f1 (o ++ bytes) (fst (feed (mask_of cfg) bytes b p))
                  (snd (feed (mask_of cfg) bytes b p)) W A ltac:(lia))
        as (il' & f' & o' & b' & p' & F & E1 & E2).
      exists il', f', o', b', p'. split; [cbn [length]; lia|]. split; assumption.
Qed.
End Inverted.

(** X16: [-x] undoes an inversion of the offset fields.  With offsets of at
    least one bit, on any stream of well-formed blocks, literal and match
    in turn: switching the decoder's [-x] and inverting every bit of every
    offset field leaves what [decode] returns and writes unchanged. *)
Theorem inverted_offsets_decoded (cfg : Cfg) (bl : list block) (buf0 : Z -> Z) :
  check_options cfg = None ->
  1 <= bits_moff cfg ->
  forallb (well_formed cfg) bl = true ->
  alternating true bl = true ->
  decode (set_exor cfg (negb (exor_offset cfg))) buf0
         (wire cfg (map invert_offset bl)) =
  decode cfg buf0 (wire cfg bl).
Proof.
  intros Hc Hbits W A. apply check_options_valid in Hc.
  unfold decode. rewrite (wire_inverted_length cfg).
  pose proof (wire_length cfg bl) as WL.
  destruct (inverted_run cfg Hc Hbits bl false (S (length (wire cfg bl))) [] buf0 0 W A
              ltac:(lia)) as (il' & f' & o' & b' & p' & F & E1 & E2).
  change (phase (set_exor cfg (negb (exor_offset cfg))) false
                (S (length (wire cfg bl)))
                (mkst (wire cfg (map invert_offset bl)) [] [] buf0 0) =
          phase cfg false (S (length (wire cfg bl))) (mkst (wire cfg bl) [] [] buf0 0)).
  rewrite E1, E2. rewrite !phase_end by lia. reflexivity.
Qed.

(** X16 on the stream of "ABABABAB": 02 41 42 06 FE with [-x]. *)
Lemma inverted_offsets_decoded_witness :
  let bl := [Lit [65; 66]; Mat 6 1] in
  check_options default_cfg = None /\ 1 <= bits_moff default_cfg /\
  forallb (well_formed default_cfg) bl = true /\ alternating true bl = true /\
  decode (set_exor default_cfg (negb (exor_offset default_cfg))) (fun _ => 0)
         (wire default_cfg (map invert_offset bl)) =
  decode default_cfg (fun _ => 0) (wire default_cfg bl).
Proof.
  intros bl. split; [reflexivity|]. split; [cbn; lia|].
  split; [reflexivity|]. split; [reflexivity|].
  apply (inverted_offsets_decoded default_cfg bl (fun _ => 0));
    [reflexivity | cbn; lia | reflexivity | reflexivity].
Defined.

(** ** The decoder on a prefix of its input *)

Lemma prefix_of_refl (a : list Z) : prefix_of a a.
Proof. exists []. symmetry. apply app_nil_r. Qed.

Lemma prefix_of_trans (a b c : list Z) :
  prefix_of a b -> prefix_of b c -> prefix_of a c.
Proof. intros [k ->] [k' ->]. exists (k ++ k'). symmetry. apply app_assoc. Qed.

Lemma prefix_of_app (a k : list Z) : prefix_of a (a ++ k).
Proof. exists k. reflexivity. Qed.

(** ** Output is only ever appended *)

Section Appended.
Variable cfg : Cfg.

Lemma copy_literal_appends (mask : Z) (n : nat) (st : dstate) :
  prefix_of (stdout (dio st)) (out_of (copy_literal mask n st)).
Proof.
  revert st. induction n as [|n IH]; intros st; cbn [copy_literal].
  - apply prefix_of_refl.
  - pose proof (getchar_stdout (dio st)) as G.
    destruct (getchar (dio st)) as [x s]. cbn [snd] in G.
    destruct (x =? EOF).
    + cbn. rewrite G. apply prefix_of_refl.
    + eapply prefix_of_trans; [|apply IH]. cbn [dio putchar stdout].
      rewrite G. apply prefix_of_app.
Qed.

Lemma copy_match_appends (mask : Z) (n : nat) (off : Z) (st : dstate) :
  prefix_of (stdout (dio st)) (stdout (dio (copy_match mask n off st))).
Proof.
  revert off st. induction n as [|n IH]; intros off st; cbn [copy_match].
  - apply prefix_of_refl.
  - eapply prefix_of_trans; [|apply IH]. cbn [dio putchar stdout].
    apply prefix_of_app.
Qed.

Lemma decode_literal_appends (st : dstate) :
  prefix_of (stdout (dio st)) (out_of (decode_literal cfg st)).
Proof.
  unfold decode_literal.
  pose proof (get_len_stdout (max_llen cfg) (dio st)) as G.
  destruct (get_len (max_llen cfg) (dio st)) as [n s]. cbn [snd] in G.
  destruct (n <? 0).
  - cbn. rewrite G. apply prefix_of_refl.
  - rewrite <- G. apply (copy_literal_appends (mask_of cfg) (Z.to_nat n)
                           {| dio := s; dbuf := dbuf st; dpos := dpos st |}).
Qed.

Lemma decode_match_appends (st : dstate) :
  prefix_of (stdout (dio st)) (out_of (decode_match cfg st)).
Proof.
  unfold decode_match.
  pose proof (get_len_stdout (max_mlen cfg) (dio st)) as G.
  destruct (get_len (max_mlen cfg) (dio st)) as [n s]. cbn [snd] in G.
  destruct (n <? 0).
  - cbn. rewrite G. apply prefix_of_refl.
  - destruct (zero_offset cfg || negb (n =? 0)).
    + pose proof (read_offset_stdout cfg {| dio := s; dbuf := dbuf st; dpos := dpos st |}) as O.
      destruct (read_offset cfg _) as [[r s'|st']|[off s']]; cbn [dio] in O.
      * cbn. rewrite O, G. apply prefix_of_refl.
      * contradiction.
      * cbn [out_of]. eapply prefix_of_trans; [|apply copy_match_appends].
        cbn [dio]. rewrite O, G. apply prefix_of_refl.
    + cbn. rewrite G. apply prefix_of_refl.
Qed.
End Appended.

Section Streaming.
Variable cfg : Cfg.

Lemma decode_loop_appends (f : nat) (st : dstate) r s :
  decode_loop cfg f st = Some (r, s) -> prefix_of (stdout (dio st)) (stdout s).
Proof.
  revert st. induction f as [|f IH]; intros st E; [discriminate|].
  cbn [decode_loop] in E.
  pose proof (decode_literal_appends cfg st) as L.
  destruct (decode_literal cfg st) as [r1 s1|st1]; cbn [out_of] in L.
  - inversion E; subst. exact L.
  - pose proof (decode_match_appends cfg st1) as M.
    destruct (decode_match cfg st1) as [r2 s2|st2]; cbn [out_of] in M.
    + inversion E; subst. eapply prefix_of_trans; eassumption.
    + apply IH in E. eapply prefix_of_trans; [exact L|].
      eapply prefix_of_trans; eassumption.
Qed.

Lemma phase_appends (il : bool) (f : nat) (st : dstate) r s :
  phase cfg il f st = Some (r, s) -> prefix_of (stdout (dio st)) (stdout s).
Proof.
  destruct il; cbn [phase]; [|apply decode_loop_appends].
  unfold decode_from_match. intros E.
  pose proof (decode_match_appends cfg st) as M.
  destruct (decode_match cfg st) as [r2 s2|st2]; cbn [out_of] in M.
  - inversion E; subst. exact M.
  - apply decode_loop_appends in E. eapply prefix_of_trans; eassumption.
Qed.

Lemma phase_no_input (il : bool) (f : nat) (st : dstate) r s :
  stdin (dio st) = [] -> phase cfg il f st = Some (r, s) -> s = dio st.
Proof.
  intros Hi. destruct il; cbn [phase].
  - unfold decode_from_match, decode_match, get_len, getchar. rewrite Hi.
    cbn. intros E. inversion E. reflexivity.
  - destruct f as [|f]; [discriminate|]. cbn [decode_loop].
    unfold decode_literal, get_len, getchar. rewrite Hi.
    cbn. intros E. inversion E. reflexivity.
Qed.

(** Reading a length from a prefix of the input: the same length as from
    the whole input, or the prefix is used up by it. *)
Lemma get_len_sync (mx : Z) (a x o : list Z) (e : list string) :
  Forall is_byte (a ++ x) ->
  (exists n a',
     0 <= n /\ get_len mx (mkio a o e) = (n, mkio a' o e) /\
     get_len mx (mkio (a ++ x) o e) = (n, mkio (a' ++ x) o e) /\
     Forall is_byte (a' ++ x)) \/
  (exists n n' i',
     get_len mx (mkio a o e) = (n, mkio [] o e) /\
     get_len mx (mkio (a ++ x) o e) = (n', mkio i' o e) /\ n <= n').
Proof.
  intros Hb. unfold get_len, getchar, mkio. cbn [stdin stdout stderr].
  destruct a as [|c a1]; cbn [app].
  - right. destruct x as [|c x1].
    + exists (-1), (-1), []. cbn. split; [reflexivity|]. split; [reflexivity | lia].
    + inversion Hb as [|? ? Hc Hx]; subst. unfold is_byte in Hc.
      destruct (Z.eqb_spec c EOF) as [Ec|_]; [unfold EOF in Ec; lia|].
      destruct ((mx <? 256) || (c <? 128)) eqn:Eone.
      * exists (-1), c, x1. cbn. split; [reflexivity|]. split; [reflexivity | lia].
      * apply orb_false_iff in Eone. destruct Eone as [_ Ec]. apply Z.ltb_ge in Ec.
        cbn [stdin stdout stderr]. destruct x1 as [|c2 x2].
        -- exists (-1), (c + Z.shiftl EOF 7), [].
           change (Z.shiftl EOF 7) with (-128). cbn.
           split; [reflexivity|]. split; [reflexivity | lia].
        -- inversion Hx as [|? ? Hc2 _]; subst. unfold is_byte in Hc2.
           exists (-1), (c + Z.shiftl c2 7), x2.
           destruct (Z.eqb_spec EOF EOF) as [_|N]; [|contradiction].
           split; [reflexivity|]. split; [reflexivity|]. rewrite shiftl_7. lia.
  - inversion Hb as [|? ? Hc Hr]; subst. unfold is_byte in Hc.
    destruct (Z.eqb_spec c EOF) as [Ec|_]; [unfold EOF in Ec; lia|].
    destruct ((mx <? 256) || (c <? 128)) eqn:Eone.
    + left. exists c, a1. repeat split; try lia; assumption.
    + apply orb_false_iff in Eone. destruct Eone as [_ Ec]. apply Z.ltb_ge in Ec.
      cbn [stdin stdout stderr]. destruct a1 as [|c2 a2]; cbn [app].
      * right. destruct x as [|c2 x2].
        -- exists (c + Z.shiftl EOF 7), (c + Z.shiftl EOF 7), [].
           split; [reflexivity|]. split; [reflexivity | lia].
        -- inversion Hr as [|? ? Hc2 _]; subst. unfold is_byte in Hc2.
           exists (c + Z.shiftl EOF 7), (c + Z.shiftl c2 7), x2.
           split; [reflexivity|]. split; [reflexivity|].
           change (Z.shiftl EOF 7) with (-128). rewrite shiftl_7. lia.
      * left. inversion Hr as [|? ? Hc2 Hr2]; subst. unfold is_byte in Hc2.
        exists (c + Z.shiftl c2 7), a2. rewrite shiftl_7.
        repeat split; try lia; assumption.
Qed.

Lemma in_step_ended (cs cl : ctl) :
  prefix_of (out_of cs) (out_of cl) ->
  match cs with Return _ _ => True | Next st => stdin (dio st) = [] end ->
  in_step cs cl.
Proof.
  intros P H. split; [exact P|]. destruct cs; [exact I | left; exact H].
Qed.

Lemma copy_literal_no_input (mask : Z) (n : nat) (o : list Z) (e : list string)
    (b : Z -> Z) (p : Z) :
  copy_literal mask n (mkst [] o e b p) =
  match n with
  | O => Next (mkst [] o e b p)
  | S _ => Return (to_int p) (fprintf_stderr (mkio [] o e) msg_literal)
  end.
Proof. destruct n; reflexivity. Qed.

Lemma copy_literal_sync (mask : Z) (n : nat) (a x o : list Z) (e : list string)
    (b : Z -> Z) (p : Z) :
  Forall is_byte (a ++ x) ->
  in_step (copy_literal mask n (mkst a o e b p))
          (copy_literal mask n (mkst (a ++ x) o e b p)).
Proof.
  revert a o b p. induction n as [|n IH]; intros a o b p Hb.
  - cbn [copy_literal]. split; [apply prefix_of_refl|].
    right. exists a, x, o, e, b, p. repeat split. exact Hb.
  - destruct a as [|y a2].
    + rewrite copy_literal_no_input. apply in_step_ended; [|exact I].
      apply (copy_literal_appends mask (S n) (mkst ([] ++ x) o e b p)).
    + inversion Hb as [|? ? Hy Hr]; subst. unfold is_byte in Hy.
      cbn [copy_literal]. unfold getchar, mkst, mkio.
      cbn [dio dbuf dpos stdin stdout stderr app].
      destruct (Z.eqb_spec y EOF) as [Ey|_]; [unfold EOF in Ey; lia|].
      apply (IH a2 (o ++ [Z.land y 255]) (store b (Z.land p mask) y) (incr p) Hr).
Qed.

Lemma decode_literal_sync (a x o : list Z) (e : list string) (b : Z -> Z) (p : Z) :
  Forall is_byte (a ++ x) ->
  in_step (decode_literal cfg (mkst a o e b p))
          (decode_literal cfg (mkst (a ++ x) o e b p)).
Proof.
  intros Hb.
  pose proof (decode_literal_appends cfg (mkst (a ++ x) o e b p)) as ML.
  cbn [mkst dio mkio stdout] in ML.
  destruct (get_len_sync (max_llen cfg) a x o e Hb)
    as [(n & a' & Hn & E1 & E2 & Hb') | (n & n' & i' & E1 & _)].
  - unfold decode_literal. cbn [mkst dio dbuf dpos]. rewrite E1, E2.
    destruct (Z.ltb_spec n 0); [lia|].
    apply (copy_literal_sync (mask_of cfg) (Z.to_nat n) a' x o e b p Hb').
  - unfold decode_literal at 1. cbn [mkst dio dbuf dpos]. rewrite E1.
    destruct (n <? 0).
    + apply in_step_ended; [exact ML | exact I].
    + change {| dio := mkio [] o e; dbuf := b; dpos := p |} with (mkst [] o e b p).
      rewrite copy_literal_no_input.
      destruct (Z.to_nat n); apply in_step_ended; try exact ML; [reflexivity | exact I].
Qed.

Lemma replay_appends (mask : Z) (n : nat) (off : Z) (o : list Z) (b : Z -> Z) (p : Z) :
  prefix_of o (fst (fst (replay mask n off o b p))).
Proof.
  revert off o b p. induction n as [|n IH]; intros off o b p; cbn [replay].
  - apply prefix_of_refl.
  - eapply prefix_of_trans; [|apply IH]. apply prefix_of_app.
Qed.

Lemma replay_prefix (mask : Z) (n n' : nat) (off : Z) (o : list Z) (b : Z -> Z)
    (p : Z) :
  (n <= n')%nat ->
  prefix_of (fst (fst (replay mask n off o b p)))
            (fst (fst (replay mask n' off o b p))).
Proof.
  revert n' off o b p. induction n as [|n IH]; intros n' off o b p Hn.
  - cbn [replay fst]. apply replay_appends.
  - destruct n' as [|n']; [lia|]. cbn [replay]. apply IH. lia.
Qed.

Lemma read_offset_sync (a x o : list Z) (e : list string) (b : Z -> Z) (p : Z) :
  Forall is_byte (a ++ x) ->
  (exists v a',
     read_offset cfg (mkst a o e b p) = inr (v, mkio a' o e) /\
     read_offset cfg (mkst (a ++ x) o e b p) = inr (v, mkio (a' ++ x) o e) /\
     Forall is_byte (a' ++ x)) \/
  (exists r s, read_offset cfg (mkst a o e b p) = inl (Return r s) /\ stdout s = o).
Proof.
  intros Hb. unfold read_offset, getchar, mkst, mkio.
  cbn [dio dbuf dpos stdin stdout stderr].
  destruct (bits_moff cfg >? 0).
  - destruct a as [|y a2]; cbn [app].
    + right. cbn. eexists _, _. split; reflexivity.
    + inversion Hb as [|? ? Hy Hr]; subst. unfold is_byte in Hy.
      destruct (Z.eqb_spec y EOF) as [Ey|_]; [unfold EOF in Ey; lia|].
      destruct (bits_moff cfg >? 8); cbn [stdin stdout stderr].
      * destruct a2 as [|z a3]; cbn [app].
        -- right. cbn. eexists _, _. split; reflexivity.
        -- inversion Hr as [|? ? Hz Hr3]; subst. unfold is_byte in Hz.
           destruct (Z.eqb_spec z EOF) as [Ez|_]; [unfold EOF in Ez; lia|].
           left. eexists _, a3. split; [reflexivity|]. split; [reflexivity | exact Hr3].
      * left. eexists _, a2. split; [reflexivity|]. split; [reflexivity | exact Hr].
  - destruct (bits_moff cfg >? 8); cbn [stdin stdout stderr].
    + destruct a as [|z a3]; cbn [app].
      * right. cbn. eexists _, _. split; reflexivity.
      * inversion Hb as [|? ? Hz Hr3]; subst. unfold is_byte in Hz.
        destruct (Z.eqb_spec z EOF) as [Ez|_]; [unfold EOF in Ez; lia|].
        left. eexists _, a3. split; [reflexivity|]. split; [reflexivity | exact Hr3].
    + left. eexists _, a. split; [reflexivity|]. split; [reflexivity | exact Hb].
Qed.

Lemma decode_match_sync (a x o : list Z) (e : list string) (b : Z -> Z) (p : Z) :
  Forall is_byte (a ++ x) ->
  in_step (decode_match cfg (mkst a o e b p))
          (decode_match cfg (mkst (a ++ x) o e b p)).
Proof.
  intros Hb.
  pose proof (decode_match_appends cfg (mkst (a ++ x) o e b p)) as ML.
  cbn [mkst dio mkio stdout] in ML.
  destruct (get_len_sync (max_mlen cfg) a x o e Hb)
    as [(n & a' & Hn & E1 & E2 & Hb') | (n & n' & i' & E1 & E2 & Hle)].
  - unfold decode_match at 1. cbn [mkst dio dbuf dpos]. rewrite E1.
    destruct (Z.ltb_spec n 0); [lia|].
    destruct (zero_offset cfg || negb (n =? 0)) eqn:Eflag.
    + change {| dio := mkio a' o e; dbuf := b; dpos := p |} with (mkst a' o e b p).
      destruct (read_offset_sync a' x o e b p Hb')
        as [(v & a2 & R1 & R2 & Hb2) | (r & s & R1 & Rs)].
      * rewrite R1. unfold decode_match. cbn [mkst dio dbuf dpos]. rewrite E2.
        destruct (Z.ltb_spec n 0); [lia|]. rewrite Eflag.
        change {| dio := mkio (a' ++ x) o e; dbuf := b; dpos := p |}
          with (mkst (a' ++ x) o e b p).
        rewrite R2. cbn [mkst dio dbuf dpos].
        match goal with |- in_step (Next (copy_match ?m ?k ?src _)) _ =>
          change (in_step (Next (copy_match m k src (mkst a2 o e b p)))
                          (Next (copy_match m k src (mkst (a2 ++ x) o e b p))));
          rewrite !copy_match_replay;
          destruct (replay m k src o b p) as [[o1 b1] p1]
        end.
        split; [apply prefix_of_refl|].
        right. exists a2, x, o1, e, b1, p1. repeat split. exact Hb2.
      * rewrite R1. apply in_step_ended; [|exact I]. cbn [out_of]. rewrite Rs. exact ML.
    + unfold decode_match. cbn [mkst dio dbuf dpos]. rewrite E2.
      destruct (Z.ltb_spec n 0); [lia|]. rewrite Eflag.
      split; [apply prefix_of_refl|].
      right. exists a', x, o, e, b, p. repeat split. exact Hb'.
  - unfold decode_match at 1. cbn [mkst dio dbuf dpos]. rewrite E1.
    destruct (Z.ltb_spec n 0) as [Hneg|Hpos].
    { apply in_step_ended; [exact ML | exact I]. }
    destruct (zero_offset cfg || negb (n =? 0)) eqn:Eflag.
    2: { apply in_step_ended; [exact ML | reflexivity]. }
    unfold read_offset, getchar, mkio. cbn [dio dbuf dpos stdin stdout stderr].
    destruct (bits_moff cfg >? 0) eqn:B0.
    { apply in_step_ended; [exact ML | exact I]. }
    destruct (bits_moff cfg >? 8) eqn:B8.
    { apply in_step_ended; [exact ML | exact I]. }
    (* no offset bytes: the match is copied, the longer one on the whole input *)
    assert (Eflag' : zero_offset cfg || negb (n' =? 0) = true).
    { destruct (zero_offset cfg); [reflexivity|]. cbn [orb] in *.
      destruct (Z.eqb_spec n 0); [discriminate|].
      destruct (Z.eqb_spec n' 0); [lia | reflexivity]. }
    unfold decode_match. cbn [mkst dio dbuf dpos]. rewrite E2.
    destruct (Z.ltb_spec n' 0); [lia|]. rewrite Eflag'.
    unfold read_offset, getchar, mkio. cbn [dio dbuf dpos stdin stdout stderr].
    rewrite B0, B8.
    match goal with |- in_step (Next (copy_match ?m ?k ?src _))
                               (Next (copy_match _ ?k' _ _)) =>
      change (in_step (Next (copy_match m k src (mkst [] o e b p)))
                      (Next (copy_match m k' src (mkst i' o e b p))));
      rewrite !copy_match_replay;
      pose proof (replay_prefix m k k' src o b p ltac:(lia)) as RP;
      destruct (replay m k src o b p) as [[o1 b1] p1];
      destruct (replay m k' src o b p) as [[o2 b2] p2]
    end.
    cbn [fst] in RP. split; [exact RP | left; reflexivity].
Qed.

(** The rest of a run after a part of the loop body. *)
Lemma continue_sync (il : bool) (f fl : nat) (cs cl : ctl) r1 s1 r2 s2 :
  (forall a x o e b p r1 s1 r2 s2,
     Forall is_byte (a ++ x) ->
     phase cfg il f (mkst a o e b p) = Some (r1, s1) ->
     phase cfg il fl (mkst (a ++ x) o e b p) = Some (r2, s2) ->
     prefix_of (stdout s1) (stdout s2)) ->
  in_step cs cl ->
  match cs with Return r s => Some (r, s) | Next st => phase cfg il f st end
    = Some (r1, s1) ->
  match cl with Return r s => Some (r, s) | Next st => phase cfg il fl st end
    = Some (r2, s2) ->
  prefix_of (stdout s1) (stdout s2).
Proof.
  intros IH [P H] E1 E2.
  assert (PL : prefix_of (out_of cl) (stdout s2)).
  { destruct cl as [r s|st]; cbn [out_of].
    - inversion E2; subst. apply prefix_of_refl.
    - apply phase_appends in E2. exact E2. }
  destruct cs as [r s|st]; cbn [out_of] in P.
  - inversion E1; subst. eapply prefix_of_trans; eassumption.
  - destruct H as [Hi | (a & x & o & e & b & p & Hb & -> & ->)].
    + apply (phase_no_input il f st r1 s1 Hi) in E1. subst s1.
      eapply prefix_of_trans; eassumption.
    + apply (IH a x o e b p r1 s1 r2 s2 Hb E1 E2).
Qed.

Lemma phase_sync (f : nat) :
  forall (il : bool) (fl : nat) a x o e b p r1 s1 r2 s2,
    Forall is_byte (a ++ x) ->
    phase cfg il f (mkst a o e b p) = Some (r1, s1) ->
    phase cfg il fl (mkst (a ++ x) o e b p) = Some (r2, s2) ->
    prefix_of (stdout s1) (stdout s2).
Proof.
  assert (Htrue : forall f,
    (forall fl a x o e b p r1 s1 r2 s2,
       Forall is_byte (a ++ x) ->
       phase cfg false f (mkst a o e b p) = Some (r1, s1) ->
       phase cfg false fl (mkst (a ++ x) o e b p) = Some (r2, s2) ->
       prefix_of (stdout s1) (stdout s2)) ->
    forall fl a x o e b p r1 s1 r2 s2,
      Forall is_byte (a ++ x) ->
      phase cfg true f (mkst a o e b p) = Some (r1, s1) ->
      phase cfg true fl (mkst (a ++ x) o e b p) = Some (r2, s2) ->
      prefix_of (stdout s1) (stdout s2)).
  { intros f0 Hf fl a x o e b p r1 s1 r2 s2 Hb E1 E2.
    cbn [phase] in E1, E2. unfold decode_from_match in E1, E2.
    apply (continue_sync false f0 fl _ _ r1 s1 r2 s2
             (fun a x o e b p r1 s1 r2 s2 => Hf fl a x o e b p r1 s1 r2 s2)
             (decode_match_sync a x o e b p Hb) E1 E2). }
  induction f as [|f IH].
  - assert (Hfalse : forall fl a x o e b p r1 s1 r2 s2,
       Forall is_byte (a ++ x) ->
       phase cfg false 0 (mkst a o e b p) = Some (r1, s1) ->
       phase cfg false fl (mkst (a ++ x) o e b p) = Some (r2, s2) ->
       prefix_of (stdout s1) (stdout s2)).
    { intros fl a x o e b p r1 s1 r2 s2 _ E. discriminate E. }
    intros [|]; [apply Htrue; exact Hfalse | exact Hfalse].
  - assert (Hfalse : forall fl a x o e b p r1 s1 r2 s2,
       Forall is_byte (a ++ x) ->
       phase cfg false (S f) (mkst a o e b p) = Some (r1, s1) ->
       phase cfg false fl (mkst (a ++ x) o e b p) = Some (r2, s2) ->
       prefix_of (stdout s1) (stdout s2)).
    { intros fl a x o e b p r1 s1 r2 s2 Hb E1 E2.
      destruct fl as [|fl]; [discriminate E2|].
      cbn [phase] in E1, E2. rewrite decode_loop_S in E1, E2.
      apply (continue_sync true f fl _ _ r1 s1 r2 s2
               (fun a x o e b p r1 s1 r2 s2 => IH true fl a x o e b p r1 s1 r2 s2)
               (decode_literal_sync a x o e b p Hb) E1 E2). }
    intros [|]; [apply Htrue; exact Hfalse | exact Hfalse].
Qed.
End Streaming.

(** X17: [decode] is a streaming decoder: what it has written when a stream
    of bytes stops early is a prefix of what it writes on the whole
    stream, also when the stream stops inside a two-byte length. *)
Theorem decode_prefix (cfg : Cfg) (buf0 : Z -> Z) (i1 i2 : list Z)
    (r1 r2 : Z) (s1 s2 : io) :
  bytes_ok (i1 ++ i2) = true ->
  decode cfg buf0 i1 = Some (r1, s1) ->
  decode cfg buf0 (i1 ++ i2) = Some (r2, s2) ->
  exists more, stdout s2 = stdout s1 ++ more.
Proof.
  intros Hb E1 E2. apply bytes_ok_spec in Hb.
  apply (phase_sync cfg (S (length i1)) false (S (length (i1 ++ i2)))
           i1 i2 [] [] buf0 0 r1 s1 r2 s2 Hb E1 E2).
Qed.

(** X17 on the stream of "ABABABAB" cut after two bytes. *)
Lemma decode_prefix_witness :
  bytes_ok ([2; 65] ++ [66; 6; 1]) = true /\
  decode default_cfg (fun _ => 0) [2; 65] =
    Some (1, mkio [] [65] [msg_literal]) /\
  decode default_cfg (fun _ => 0) ([2; 65] ++ [66; 6; 1]) =
    Some (8, mkio [] [65; 66; 65; 66; 65; 66; 65; 66] []) /\
  exists more,
    stdout (mkio [] [65; 66; 65; 66; 65; 66; 65; 66] []) =
    stdout (mkio [] [65] [msg_literal]) ++ more.
Proof.
  split; [reflexivity|]. split; [vm_compute; reflexivity|].
  split; [vm_compute; reflexivity|].
  apply (decode_prefix default_cfg (fun _ => 0) [2; 65] [66; 6; 1] 1 8
           (mkio [] [65] [msg_literal])
           (mkio [] [65; 66; 65; 66; 65; 66; 65; 66] []));
    [reflexivity | vm_compute; reflexivity | vm_compute; reflexivity].
Defined.

(** ** The exit status of the decoder *)

(** X18: with accepted options the decoder ends with exit status 0 on every
    stream of bytes, a truncated one included: a short file shows on the
    error stream only, where [-v] adds the size that [decode] returned. *)
Theorem decoder_exit_status (cfg : Cfg) (verbose : bool) (buf0 : Z -> Z)
    (input : list Z) :
  check_options cfg = None ->
  bytes_ok input = true ->
  exists r s,
    decode cfg buf0 input = Some (r, s) /\
    lz8dec.main cfg verbose buf0 input =
      Some (Status 0 (if verbose
                      then fprintf_stderr s ("Output size: " ++ string_of_int r ++ nl)
                      else s)).
Proof.
  intros Hc Hb. apply bytes_ok_spec in Hb.
  destruct (decode_loop_any cfg (S (length input))
              {| dio := {| stdin := input; stdout := []; stderr := [] |};
                 dbuf := buf0; dpos := 0 |}) as (r & s & E & _);
    [cbn; lia | exact Hb | reflexivity |].
  exists r, s. split; [exact E|].
  unfold lz8dec.main. rewrite Hc. unfold decode. rewrite E. reflexivity.
Qed.

(** X18 on a truncated stream, with [-v]. *)
Lemma decoder_exit_status_witness :
  check_options default_cfg = None /\ bytes_ok [2; 65] = true /\
  exists r s,
    decode default_cfg (fun _ => 0) [2; 65] = Some (r, s) /\
    lz8dec.main default_cfg true (fun _ => 0) [2; 65] =
      Some (Status 0 (if true
                      then fprintf_stderr s ("Output size: " ++ string_of_int r ++ nl)
                      else s)).
Proof.
  split; [reflexivity|]. split; [reflexivity|].
  apply (decoder_exit_status default_cfg true (fun _ => 0) [2; 65]); reflexivity.
Defined.

(** ** The statistics of the encoder *)

Lemma add_bits_fields (c : counters) (ln n : Z) :
  bytes_literal (add_bits c ln n) = bytes_literal c /\
  bytes_matches (add_bits c ln n) = bytes_matches c /\
  bits_literal (add_bits c ln n) + bits_matches (add_bits c ln n)
    = bits_literal c + bits_matches c + n /\
  stat_llen (add_bits c ln n) = stat_llen c /\
  stat_mlen (add_bits c ln n) = stat_mlen c /\
  stat_moff (add_bits c ln n) = stat_moff c.
Proof.
  unfold add_bits. destruct (ln =? 0); cbn; repeat split; lia.
Qed.

(** [code_match] with its counter writes what [code_match] writes and
    counts eight bits for each byte. *)
Lemma code_match_counted_plain (cfg : Cfg) (b b' : bf) (c c' : counters) (ln off : Z) :
  code_match_counted cfg b c ln off = Some (b', c') ->
  code_match cfg b ln off = Some b' /\
  bytes_literal c' = bytes_literal c /\
  bytes_matches c' = bytes_matches c /\
  bits_literal c' + bits_matches c' = bits_literal c + bits_matches c + 8 * (len b' - len b) /\
  stat_llen c' = stat_llen c /\ stat_mlen c' = stat_mlen c /\ stat_moff c' = stat_moff c.
Proof.
  unfold code_match_counted, code_match.
  destruct (add_len b (max_mlen cfg) ln) as [b1|] eqn:E1; [|discriminate].
  apply add_len_len in E1.
  set (c1 := add_bits c ln (if (ln >? 127) && (max_mlen cfg >? 255) then 16 else 8)).
  pose proof (add_bits_fields c ln (if (ln >? 127) && (max_mlen cfg >? 255) then 16 else 8)) as F1.
  fold c1 in F1. destruct F1 as (F1 & F2 & F3 & F4 & F5 & F6).
  assert (G : 8 * (len b1 - len b) = (if (ln >? 127) && (max_mlen cfg >? 255) then 16 else 8))
    by (destruct ((ln >? 127) && (max_mlen cfg >? 255)); lia).
  destruct (negb (ln =? 0) || zero_offset cfg).
  - destruct (negb (bits_moff cfg =? 0)).
    + destruct (add_byte b1 (Z.land off 255)) as [b2|] eqn:E2; [|discriminate].
      pose proof (add_byte_len _ _ _ E2) as L2.
      pose proof (add_bits_fields c1 ln 8) as (A1 & A2 & A3 & A4 & A5 & A6).
      destruct (bits_moff cfg >? 8).
      * destruct (add_byte b2 (Z.shiftr off 8)) as [b3|] eqn:E3; [|discriminate].
        pose proof (add_byte_len _ _ _ E3) as L3.
        pose proof (add_bits_fields (add_bits c1 ln 8) ln 8) as (B1 & B2 & B3 & B4 & B5 & B6).
        intros E. inversion E; subst b' c'.
        repeat split; try reflexivity; try congruence; lia.
      * intros E. inversion E; subst b' c'.
        repeat split; try reflexivity; try congruence; lia.
    + destruct (bits_moff cfg >? 8).
      * destruct (add_byte b1 (Z.shiftr off 8)) as [b3|] eqn:E3; [|discriminate].
        pose proof (add_byte_len _ _ _ E3) as L3.
        pose proof (add_bits_fields c1 ln 8) as (B1 & B2 & B3 & B4 & B5 & B6).
        intros E. inversion E; subst b' c'.
        repeat split; try reflexivity; try congruence; lia.
      * intros E. inversion E; subst b' c'.
        repeat split; try reflexivity; try congruence; lia.
  - intros E. inversion E; subst b' c'.
    repeat split; try reflexivity; try congruence; lia.
Qed.

(** The counter never makes [code_match] fail. *)
Lemma code_match_counted_total (cfg : Cfg) (b b' : bf) (c : counters) (ln off : Z) :
  code_match cfg b ln off = Some b' ->
  exists c', code_match_counted cfg b c ln off = Some (b', c').
Proof.
  unfold code_match_counted, code_match.
  destruct (add_len b (max_mlen cfg) ln) as [b1|]; [|discriminate].
  destruct (negb (ln =? 0) || zero_offset cfg).
  - destruct (negb (bits_moff cfg =? 0)).
    + destruct (add_byte b1 (Z.land off 255)) as [b2|]; [|discriminate].
      destruct (bits_moff cfg >? 8).
      * intros ->. eexists. reflexivity.
      * intros E. inversion E. eexists. reflexivity.
    + destruct (bits_moff cfg >? 8).
      * intros ->. eexists. reflexivity.
      * intros E. inversion E. eexists. reflexivity.
  - intros E. inversion E. eexists. reflexivity.
Qed.

Lemma bump_inside (n : Z) (a : Z -> Z) (i : Z) :
  0 <= i < n -> exists a', bump n a i = Some a'.
Proof.
  intros H. unfold bump.
  destruct (Z.leb_spec 0 i); [|lia]. destruct (Z.ltb_spec i n); [|lia].
  eexists. reflexivity.
Qed.

(** One call of [lzop_encode] with the counters: the same bytes and the
    same state as without them, one more input byte counted, and eight
    bits of overhead counted for every byte written that is not a literal
    byte. *)
Lemma lzop_encode_counted_plain (cfg : Cfg) (b : bf) (lz : lzop) (c : counters)
    (pos lpos rel : Z) b' lz' lpos' c' :
  lzop_encode_counted cfg b lz c pos lpos rel = Some (b', lz', lpos', c') ->
  lzop_encode cfg b lz pos lpos rel = Some (b', lz', lpos') /\
  bytes_literal c' + bytes_matches c' = bytes_literal c + bytes_matches c + 1 /\
  8 * bytes_literal c' + bits_literal c' + bits_matches c'
    = 8 * bytes_literal c + bits_literal c + bits_matches c + 8 * (len b' - len b).
Proof.
  unfold lzop_encode_counted, lzop_encode.
  destruct (pos <=? lpos).
  { destruct (in_literal lz).
    - destruct (add_byte b (at_ (data lz) pos)) as [b1|] eqn:E1; [|discriminate].
      apply add_byte_len in E1.
      intros E. inversion E; subst. unfold count_literal_byte, count_match_byte, set_arrays; cbn [bytes_literal bytes_matches bits_literal bits_matches]. repeat split; try reflexivity; lia.
    - intros E. inversion E; subst. unfold count_literal_byte, count_match_byte, set_arrays; cbn [bytes_literal bytes_matches bits_literal bits_matches]. repeat split; try reflexivity; lia. }
  cbv zeta.
  destruct (lbits (sp lz pos) + (if in_literal lz then zero_match_cost cfg else 0)
            <=? mbits (sp lz pos)).
  - set (ln := if llen (sp lz pos) >? max_llen cfg then max_llen cfg else llen (sp lz pos)).
    assert (P : (exists b1 c1,
              (if in_literal lz then code_match_counted cfg b c 0 0 else Some (b, c)) = Some (b1, c1) /\
              (if in_literal lz then code_match cfg b 0 0 else Some b) = Some b1 /\
              bytes_literal c1 = bytes_literal c /\ bytes_matches c1 = bytes_matches c /\
              bits_literal c1 + bits_matches c1
                = bits_literal c + bits_matches c + 8 * (len b1 - len b))
            \/ (if in_literal lz then code_match_counted cfg b c 0 0 else Some (b, c)) = None).
    { destruct (in_literal lz).
      - destruct (code_match_counted cfg b c 0 0) as [[b1 c1]|] eqn:E0.
        + pose proof (code_match_counted_plain _ _ _ _ _ _ _ E0) as (A & B & C & D & _).
          left. exists b1, c1. repeat split; assumption.
        + right. reflexivity.
      - left. exists b, c. repeat split; lia. }
    destruct P as [(b1 & c1 & -> & -> & P1 & P2 & P3)| ->]; [|discriminate].
    destruct (add_len b1 (max_llen cfg) ln) as [b2|] eqn:E2; [|discriminate].
    pose proof (add_len_len _ _ _ _ E2) as L2.
    set (k := if (max_llen cfg >? 255) && (ln >? 127) then 16 else 8).
    assert (K : 8 * (len b2 - len b1) = k).
    { unfold k. rewrite andb_comm. destruct ((ln >? 127) && (max_llen cfg >? 255)); lia. }
    pose proof (add_bits_fields c1 0 k) as (A1 & A2 & A3 & A4 & A5 & A6).
    destruct (bump (max_llen cfg + 1) (stat_llen (add_bits c1 0 k)) ln) as [sl|]; [|discriminate].
    destruct (add_byte b2 (at_ (data lz) pos)) as [b3|] eqn:E3; [|discriminate].
    apply add_byte_len in E3.
    intros E. inversion E; subst. unfold count_literal_byte, count_match_byte, set_arrays; cbn [bytes_literal bytes_matches bits_literal bits_matches]. repeat split; try reflexivity; lia.
  - destruct (bump (max_mlen cfg + 1) (stat_mlen c) (mlen (sp lz pos))) as [sm|]; [|discriminate].
    destruct (bump (max_off cfg + 1) (stat_moff c) (mpos (sp lz pos))) as [so|]; [|discriminate].
    set (c0 := set_arrays c (stat_llen c) sm so).
    set (mp := if rel <? 0 then Z.land (mpos (sp lz pos) - 1) 65535
               else Z.land (pos + rel - mpos (sp lz pos)) 65535).
    assert (P : (exists b1 c1,
              (if negb (in_literal lz) then
                 do b <- add_byte b 0;
                 do sl <- bump (max_llen cfg + 1) (stat_llen c0) 0;
                 Some (b, add_bits (set_arrays c0 sl (stat_mlen c0) (stat_moff c0)) 1 8)
               else Some (b, c0)) = Some (b1, c1) /\
              (if negb (in_literal lz) then add_byte b 0 else Some b) = Some b1 /\
              bytes_literal c1 = bytes_literal c /\ bytes_matches c1 = bytes_matches c /\
              bits_literal c1 + bits_matches c1
                = bits_literal c + bits_matches c + 8 * (len b1 - len b))
            \/ (if negb (in_literal lz) then
                 do b <- add_byte b 0;
                 do sl <- bump (max_llen cfg + 1) (stat_llen c0) 0;
                 Some (b, add_bits (set_arrays c0 sl (stat_mlen c0) (stat_moff c0)) 1 8)
               else Some (b, c0)) = None).
    { destruct (negb (in_literal lz)).
      - destruct (add_byte b 0) as [b1|] eqn:E1; [|right; reflexivity].
        destruct (bump (max_llen cfg + 1) (stat_llen c0) 0) as [sl|]; [|right; reflexivity].
        left. eexists. eexists. split; [reflexivity|]. split; [reflexivity|].
        apply add_byte_len in E1.
        pose proof (add_bits_fields (set_arrays c0 sl (stat_mlen c0) (stat_moff c0)) 1 8)
          as (A1 & A2 & A3 & _).
        unfold c0, set_arrays in *. cbn [bytes_literal bytes_matches bits_literal bits_matches] in *.
        repeat split; lia.
      - left. exists b, c0. unfold c0, set_arrays.
        cbn [bytes_literal bytes_matches bits_literal bits_matches]. repeat split; lia. }
    destruct P as [(b1 & c1 & -> & -> & P1 & P2 & P3)| ->]; [|discriminate].
    destruct (code_match_counted cfg b1 c1 (mlen (sp lz pos)) mp) as [[b2 c2]|] eqn:E2;
      [|discriminate].
    pose proof (code_match_counted_plain _ _ _ _ _ _ _ E2) as (-> & B & C & D & _).
    intros E. inversion E; subst. unfold count_literal_byte, count_match_byte, set_arrays; cbn [bytes_literal bytes_matches bits_literal bits_matches]. repeat split; try reflexivity; lia.
Qed.

(** The whole loop with the counters. *)
Lemma encode_loop_counted_plain (cfg : Cfg) (n : nat) :
  forall b lz c pos lpos b' lz' lpos' c',
  encode_loop_counted cfg n b lz c pos lpos = Some (b', lz', lpos', c') ->
  encode_loop cfg n b lz pos lpos = Some (b', lz', lpos') /\
  bytes_literal c' + bytes_matches c' = bytes_literal c + bytes_matches c + Z.of_nat n /\
  8 * bytes_literal c' + bits_literal c' + bits_matches c'
    = 8 * bytes_literal c + bits_literal c + bits_matches c + 8 * (len b' - len b).
Proof.
  induction n as [|n IH]; intros b lz c pos lpos b' lz' lpos' c'.
  - cbn [encode_loop_counted encode_loop]. intros E. inversion E; subst. repeat split; try reflexivity; lia.
  - cbn [encode_loop_counted encode_loop].
    destruct (lzop_encode_counted cfg b lz c pos lpos (offset_rel cfg))
      as [[[[b1 lz1] lpos1] c1]|] eqn:E1; [|discriminate].
    apply lzop_encode_counted_plain in E1. destruct E1 as (-> & A & B).
    intros E. apply IH in E. destruct E as (-> & A' & B').
    repeat split; lia.
Qed.

(** [lzop_encode] changes nothing of the table. *)
Lemma lzop_encode_sp (cfg : Cfg) (b : bf) (lz : lzop) (pos lpos rel : Z) b' lz' lpos' :
  lzop_encode cfg b lz pos lpos rel = Some (b', lz', lpos') -> sp lz' = sp lz.
Proof.
  unfold lzop_encode.
  destruct (pos <=? lpos).
  { destruct (in_literal lz).
    - destruct (add_byte b (at_ (data lz) pos)); [|discriminate].
      intros E. inversion E; subst. reflexivity.
    - intros E. inversion E; subst. reflexivity. }
  cbv zeta.
  destruct (lbits (sp lz pos) + (if in_literal lz then zero_match_cost cfg else 0)
            <=? mbits (sp lz pos)).
  - destruct (if in_literal lz then code_match cfg b 0 0 else Some b); [|discriminate].
    destruct (add_len _ _ _); [|discriminate].
    destruct (add_byte _ _); [|discriminate].
    intros E. inversion E; subst. reflexivity.
  - destruct (if negb (in_literal lz) then add_byte b 0 else Some b); [|discriminate].
    destruct (code_match _ _ _ _); [|discriminate].
    intros E. inversion E; subst. reflexivity.
Qed.

Section Statistics.
Variable cfg : Cfg.
Hypothesis Hv : valid_cfg cfg.
Variable data : list Z.
Variable size : Z.
Hypothesis Hsize : size <= MAX_INPUT.

(** With a sound cell at a block boundary, every index into the
    statistics arrays is inside its array. *)
Lemma lzop_encode_counted_total (b : bf) (lz : lzop) (c : counters) (pos lpos : Z)
    b' lz' lpos' :
  0 <= pos ->
  cell_ok cfg data size pos (sp lz pos) ->
  lzop_encode cfg b lz pos lpos (offset_rel cfg) = Some (b', lz', lpos') ->
  exists c', lzop_encode_counted cfg b lz c pos lpos (offset_rel cfg)
             = Some (b', lz', lpos', c').
Proof.
  intros Hpos Hcell. unfold lzop_encode_counted, lzop_encode.
  destruct (pos <=? lpos).
  { destruct (in_literal lz).
    - destruct (add_byte b (at_ (lz8s.data lz) pos)); [|discriminate].
      intros E. inversion E; subst. eexists. reflexivity.
    - intros E. inversion E; subst. eexists. reflexivity. }
  cbv zeta.
  destruct (Z.leb_spec (lbits (sp lz pos) + (if in_literal lz then zero_match_cost cfg else 0))
                       (mbits (sp lz pos))) as [Hlit|Hmat].
  - pose proof (literal_choice cfg data size Hv _ pos Hcell) as L. cbv zeta in L.
    set (ln := if llen (sp lz pos) >? max_llen cfg then max_llen cfg else llen (sp lz pos)) in *.
    assert (P : exists c1, forall b1,
              (if in_literal lz then code_match cfg b 0 0 else Some b) = Some b1 ->
              (if in_literal lz then code_match_counted cfg b c 0 0 else Some (b, c))
                = Some (b1, c1)).
    { destruct (in_literal lz).
      - destruct (code_match cfg b 0 0) as [b1|] eqn:E0.
        + destruct (code_match_counted_total cfg b b1 c 0 0 E0) as [c1 E].
          exists c1. intros b2 E2. inversion E2; subst. exact E.
        + exists c. intros b1 E. discriminate.
      - exists c. intros b1 E. inversion E; subst. reflexivity. }
    destruct P as [c1 P].
    destruct (if in_literal lz then code_match cfg b 0 0 else Some b) as [b1|]; [|discriminate].
    rewrite (P b1 eq_refl).
    destruct (add_len b1 (max_llen cfg) ln) as [b2|]; [|discriminate].
    destruct (bump_inside (max_llen cfg + 1)
                (stat_llen (add_bits c1 0 (if (max_llen cfg >? 255) && (ln >? 127) then 16 else 8)))
                ln) as [sl ->]; [lia|].
    destruct (add_byte b2 (at_ (lz8s.data lz) pos)) as [b3|]; [|discriminate].
    intros E. inversion E; subst. eexists. reflexivity.
  - assert (M : match_at data cfg size pos (mlen (sp lz pos)) (mpos (sp lz pos))).
    { apply (match_choice cfg data size Hsize (sp lz pos) pos
               (if in_literal lz then zero_match_cost cfg else 0)); try assumption; try lia.
      pose proof (zero_match_cost_bound cfg Hv). destruct (in_literal lz); lia. }
    destruct M as (M1 & M2 & M3 & M4 & M5 & _).
    destruct (bump_inside (max_mlen cfg + 1) (stat_mlen c) (mlen (sp lz pos))) as [sm ->]; [lia|].
    destruct (bump_inside (max_off cfg + 1) (stat_moff c) (mpos (sp lz pos))) as [so ->]; [lia|].
    set (c0 := set_arrays c (stat_llen c) sm so).
    set (mp := if offset_rel cfg <? 0 then Z.land (mpos (sp lz pos) - 1) 65535
               else Z.land (pos + offset_rel cfg - mpos (sp lz pos)) 65535).
    destruct Hv as [V1 V2 V3 V4].
    destruct (bump_inside (max_llen cfg + 1) (stat_llen c0) 0) as [sl Esl]; [lia|].
    rewrite Esl.
    destruct (negb (in_literal lz)).
    + destruct (add_byte b 0) as [b1|]; [|discriminate].
      destruct (code_match cfg b1 (mlen (sp lz pos)) mp) as [b2|] eqn:E2; [|discriminate].
      destruct (code_match_counted_total cfg b1 b2
                  (add_bits (set_arrays c0 sl (stat_mlen c0) (stat_moff c0)) 1 8)
                  (mlen (sp lz pos)) mp E2) as [c2 ->].
      intros E. inversion E; subst. eexists. reflexivity.
    + destruct (code_match cfg b (mlen (sp lz pos)) mp) as [b2|] eqn:E2; [|discriminate].
      destruct (code_match_counted_total cfg b b2 c0 (mlen (sp lz pos)) mp E2) as [c2 ->].
      intros E. inversion E; subst. eexists. reflexivity.
Qed.

Lemma encode_loop_counted_total (n : nat) :
  forall b lz c pos lpos b' lz' lpos',
  0 <= pos -> pos + Z.of_nat n = size ->
  table_ok cfg data size (sp lz) 0 ->
  encode_loop cfg n b lz pos lpos = Some (b', lz', lpos') ->
  exists c', encode_loop_counted cfg n b lz c pos lpos = Some (b', lz', lpos', c').
Proof.
  induction n as [|n IH]; intros b lz c pos lpos b' lz' lpos' Hpos Hn T.
  - cbn [encode_loop_counted encode_loop]. intros E. inversion E; subst.
    eexists. reflexivity.
  - cbn [encode_loop_counted encode_loop].
    destruct (lzop_encode cfg b lz pos lpos (offset_rel cfg)) as [[[b1 lz1] lpos1]|] eqn:E1;
      [|discriminate].
    intros E.
    destruct (lzop_encode_counted_total b lz c pos lpos b1 lz1 lpos1 Hpos) as [c1 ->];
      [apply (proj1 T); lia | exact E1 |].
    apply (IH b1 lz1 c1 (pos + 1) lpos1); [lia | lia | | exact E].
    rewrite (lzop_encode_sp _ _ _ _ _ _ _ _ _ E1). exact T.
Qed.
End Statistics.

(** X19: the statistics account for the whole input and the whole output.
    When the compression loop of [main] ends, [bytes_literal] and
    [bytes_matches] add up to the number of input bytes, every byte of
    the output is either a literal byte or eight bits of [bits_literal] or
    [bits_matches], and [b.total], the size that [main] prints, is the
    number of bytes written to the output file. *)
Theorem statistics_account (cfg : Cfg) (data : list Z) (tot : Z) (c : counters) :
  compress_counted cfg data = Some (tot, c) ->
  (exists output, compress cfg data = Some output /\ tot = Z.of_nat (length output)) /\
  bytes_literal c + bytes_matches c = Z.of_nat (length data) /\
  8 * tot = 8 * bytes_literal c + bits_literal c + bits_matches c.
Proof.
  unfold compress_counted, compress. cbv zeta.
  destruct (encode_loop_counted _ _ _ _ _ _ _) as [[[[b lz] lpos] c']|] eqn:E; [|discriminate].
  intros H. inversion H; subst tot c'. clear H.
  apply encode_loop_counted_plain in E. destruct E as (E & A & B).
  rewrite E.
  pose proof (encode_loop_out _ _ _ _ _ _ _ _ _ E) as [O _].
  pose proof (encode_loop_total _ _ _ _ _ _ _ _ _ E) as T.
  cbn [init out total] in O, T.
  unfold bflush. cbn [total out]. rewrite O, T. cbn [app].
  unfold no_counts in A, B. cbn [bytes_literal bytes_matches bits_literal bits_matches] in A, B.
  unfold len in B at 2. cbn [init buf length] in B.
  split; [|split].
  - eexists. split; [reflexivity|]. unfold len. lia.
  - rewrite Z2Nat.id in A by lia. lia.
  - lia.
Qed.

Lemma statistics_account_witness :
  exists tot c,
    compress_counted default_cfg [65; 66; 65; 66; 65; 66; 65; 66; 67] = Some (tot, c) /\
    bytes_literal c = 3 /\ bytes_matches c = 6 /\ tot = 7 /\
    8 * tot = 8 * bytes_literal c + bits_literal c + bits_matches c.
Proof.
  destruct (compress_counted default_cfg [65; 66; 65; 66; 65; 66; 65; 66; 67])
    as [[tot c]|] eqn:E; [|vm_compute in E; discriminate].
  exists tot, c. split; [reflexivity|].
  pose proof (statistics_account _ _ _ _ E) as (_ & A & B).
  assert (F : bytes_literal c = 3 /\ tot = 7).
  { vm_compute in E. inversion E. split; reflexivity. }
  cbn [length] in A. lia.
Defined.

(** X20: the statistics arrays are never indexed outside their bounds.
    With accepted options and an input that fits the read buffer, every
    [stat_llen[len]++], [stat_mlen[mlen]++] and [stat_moff[mpos]++] of
    [lzop_encode] is inside the [max_llen + 1], [max_mlen + 1] and
    [max_off + 1] entries that [main] allocates: whenever the writes to
    the output buffer succeed, the run with the statistics succeeds with
    the same output. *)
Theorem statistics_in_bounds (cfg : Cfg) (data output : list Z) :
  check_options cfg = None ->
  Z.of_nat (length data) <= MAX_INPUT ->
  compress cfg data = Some output ->
  exists c, compress_counted cfg data = Some (Z.of_nat (length output), c).
Proof.
  intros Hc Hsize. apply check_options_valid in Hc.
  unfold compress_counted, compress. cbv zeta.
  destruct (encode_loop _ _ _ _ _ _) as [[[b lz] lpos]|] eqn:E; [|discriminate].
  intros H. inversion H; subst output. clear H.
  destruct (Nat.eq_dec (length data) 0) as [Z0|NZ].
  - rewrite Z0 in *. cbn [Z.of_nat Z.to_nat encode_loop encode_loop_counted] in *.
    inversion E; subst. eexists. reflexivity.
  - assert (T : table_ok cfg data (Z.of_nat (length data))
                 (sp (lzop_backfill cfg (lzop_init data (Z.of_nat (length data))))) 0)
      by (apply lzop_backfill_ok; [assumption | assumption | lia]).
    destruct (fun H1 H2 =>
                encode_loop_counted_total cfg Hc data (Z.of_nat (length data)) Hsize
                  _ _ _ no_counts _ _ _ _ _ H1 H2 T E) as [c ->]; [lia | lia |].
    exists c. f_equal. f_equal.
    pose proof (encode_loop_out _ _ _ _ _ _ _ _ _ E) as [O _].
    pose proof (encode_loop_total _ _ _ _ _ _ _ _ _ E) as T'.
    cbn [init out total] in O, T'.
    unfold bflush. cbn [total out]. rewrite O, T'. cbn [app]. unfold len. lia.
Qed.

Lemma statistics_in_bounds_witness :
  exists c, compress_counted default_cfg [65; 66; 65; 66; 65; 66; 65; 66; 67]
            = Some (7, c).
Proof.
  apply (statistics_in_bounds default_cfg [65; 66; 65; 66; 65; 66; 65; 66; 67]
           [2; 65; 66; 6; 1; 1; 67]);
    [reflexivity | cbn; unfold MAX_INPUT; lia | vm_compute; reflexivity].
Defined.
